(** * LAJFI: genome, creature and world rules, and the superformula radius

    A shallow embedding of [lajfi/gielis.py], [lajfi/dna.py],
    [lajfi/plant.py], [lajfi/creature.py] and [lajfi/world.py].

    Conventions.
    - Python floats are read as exact numbers: reals in [Gielis] (which
      needs [cos], [sin] and a real power), rationals everywhere else.
      Rounding is left out; the exceptions the float operations raise
      are kept.  Where rounding could carry a computed value
      across a bound (the blend of crossover, the energy after many
      updates), that bound is not stated.
    - The [random] module is a tape of unit draws [u] with [0 <= u < 1],
      read left to right; every helper of [random] is a function of the
      next draw.
    - Python objects that are mutated in place (creatures, plants) live
      in the list that owns them; their identity is their place in it. *)

From Stdlib Require Import ZArith QArith Qround List Bool Lia Lra Lqa.
From Stdlib Require Import String Ascii.
From Stdlib Require Import Reals.
Import ListNotations.

(** ** Results of code that can raise *)

Inductive py_error : Type :=
| ZeroDivisionError
| OverflowError
| ValueError.

Inductive result (A : Type) : Type :=
| Ok (a : A)
| Raise (e : py_error).

Arguments Ok {A} a.
Arguments Raise {A} e.

Definition rbind {A B : Type} (r : result A) (k : A -> result B) : result B :=
  match r with
  | Ok a => k a
  | Raise e => Raise e
  end.

(** ** gielis.py *)

Module Gielis.

Local Open Scope R_scope.

(** Largest finite double, [(2^53 - 1) * 2^971]. *)
Definition DBL_MAX : R := IZR ((2 ^ 53 - 1) * 2 ^ 971).

(** A float that is neither an infinity nor a NaN. *)
Definition finite (x : R) : Prop := Rabs x <= DBL_MAX.

(** [x ** y] on floats, for a base [x >= 0] (both call sites pass an
    absolute value or a sum of two powers of absolute values).
    [0.0 ** y] raises for [y < 0]; a result beyond [DBL_MAX] raises
    [OverflowError]; underflow is silent. *)
Definition float_pow (x y : R) : result R :=
  if Req_dec_T x 0 then
    if Rlt_dec y 0 then Raise ZeroDivisionError
    else if Req_dec_T y 0 then Ok 1 else Ok 0
  else
    if Rlt_dec DBL_MAX (Rpower x y) then Raise OverflowError
    else Ok (Rpower x y).

(** [min(a, b)] and [max(a, b)] of Python: the first argument unless the
    second is strictly smaller (larger). *)
Definition float_min (a b : R) : R := if Rlt_dec b a then b else a.
Definition float_max (a b : R) : R := if Rlt_dec a b then b else a.

Definition gielis_r (angle m n1 n2 n3 : R) : result R :=
  let n1 := if Rlt_dec (Rabs n1) (1 / 1000) then 1 / 1000 else n1 in
  (* m * angle beyond the float range is an infinity, and math.cos
     raises on it *)
  if Rlt_dec DBL_MAX (Rabs (m * angle)) then Raise ValueError else
  let t := m * angle / 4 in
  rbind (float_pow (Rabs (cos t)) n2) (fun term1 =>
  rbind (float_pow (Rabs (sin t)) n3) (fun term2 =>
  let denom := term1 + term2 in
  if Rlt_dec denom (1 / 10000) then Ok 1
  else if Rlt_dec DBL_MAX denom then
    (* the sum is an infinity: inf ** e is inf for e > 0, 0.0 for e < 0 *)
    Ok (if Rlt_dec 0 (- 1 / n1) then 5 else 1 / 10)
  else
    rbind (float_pow denom (- 1 / n1)) (fun p =>
    Ok (float_max (1 / 10) (float_min 5 p))))).

End Gielis.


(** ** The [random] module

    A computation that draws reads the tape at a cursor and moves the
    cursor on.  [uniform] is CPython's own formula, [a + (b - a) * random()];
    [randint] and [choice] scale the draw to the number of outcomes. *)

Module Random.

Local Open Scope Q_scope.

Definition tape : Type := nat -> Q.

Definition unit_draws (t : tape) : Prop := forall i : nat, 0 <= t i /\ t i < 1.

Definition Rand (A : Type) : Type := tape -> nat -> A * nat.

Definition ret {A : Type} (a : A) : Rand A := fun _ i => (a, i).

Definition bind {A B : Type} (m : Rand A) (k : A -> Rand B) : Rand B :=
  fun t i => match m t i with (a, j) => k a t j end.

Definition random : Rand Q := fun t i => (t i, S i).

Definition uniform (a b : Q) : Rand Q :=
  bind random (fun u => ret (a + (b - a) * u)).

(** [randint(a, b)], both ends included. *)
Definition randint (a b : Z) : Rand Z :=
  bind random (fun u => ret (a + Qfloor (u * inject_Z (b - a + 1)))%Z).

(** [choice] of the non-empty sequence [x :: xs]. *)
Definition choice {A : Type} (x : A) (xs : list A) : Rand A :=
  bind random (fun u =>
    ret (nth (Z.to_nat (Qfloor (u * inject_Z (Z.of_nat (List.length (x :: xs))))))
             (x :: xs) x)).

(** Python's two-argument [min] and [max]: the first argument unless the
    second is strictly smaller (larger). *)
Definition py_min (a b : Q) : Q := if Qlt_le_dec b a then b else a.
Definition py_max (a b : Q) : Q := if Qlt_le_dec a b then b else a.

End Random.

Declare Scope rand_scope.
Delimit Scope rand_scope with rand.
Notation "x <- m ;; k" := (Random.bind m (fun x => k))
  (at level 61, m at next level, right associativity) : rand_scope.
Notation "' pat <- m ;; k" :=
  (Random.bind m (fun x => match x with pat => k end))
  (at level 61, pat pattern, m at next level, right associativity) : rand_scope.

(** ** config.py *)

Module Config.

Local Open Scope Q_scope.

Definition WORLD_SIZE : Q := 20.
Definition MAX_CREATURES : Z := 3.
Definition MAX_PLANTS : Z := 8.

Definition START_ENERGY : Q := 40.
Definition MOVEMENT_COST : Q := 0.6.
Definition IDLE_COST : Q := 0.2.
Definition PLANT_ENERGY : Q := 25.
Definition EAT_RANGE : Q := 2.0.
Definition STARVATION_THRESHOLD : Q := 0.

Definition MATING_RANGE : Q := 3.0.
Definition MATING_ENERGY : Q := 60.
Definition MATING_COST : Q := 30.
Definition MUTATION_RATE : Q := 0.20.
Definition MUTATION_STRENGTH : Q := 0.25.

Definition ATTACK_COST : Q := 8.
Definition KILL_ENERGY_GAIN : Q := 0.7.
Definition CANNIBAL_RANGE : Q := 3.0.
Definition SATISFIED_ENERGY : Q := 70.

Definition MIN_FRACTAL_LEVELS : Z := 2.
Definition MAX_FRACTAL_LEVELS : Z := 3.
Definition MIN_CHILDREN : Z := 2.
Definition MAX_CHILDREN : Z := 5.

End Config.

(** ** dna.py

    A gene is the dict built by [random_gielis_gene], a genome the dict
    built by [random_dna]: their key sets are fixed there and every later
    genome is rebuilt key by key from one that has them, so both are
    records.  The loops over keys run in insertion order, which is the
    order of the fields below; that order decides which draw each field
    consumes. *)

Module Dna.

Import Random Config.
Local Open Scope Q_scope.
Local Open Scope rand_scope.

Record gene : Type := mk_gene {
  m1 : Z; m2 : Z;
  n1 : Q; n2 : Q; n3 : Q;
  n1b : Q; n2b : Q; n3b : Q
}.

Inductive gene_key : Type := key_1 | key_2 | key_3.

Definition GIELIS_GENES : list gene_key := [key_1; key_2; key_3].

Record DNA : Type := mk_DNA {
  lajfi_1 : gene; lajfi_2 : gene; lajfi_3 : gene;
  fractal_levels : Z;
  fractal_children : Z;
  scale_factor : Q;
  speed : Q
}.

(** [dna[key]] for a shape gene key. *)
Definition gene_of (k : gene_key) (d : DNA) : gene :=
  match k with
  | key_1 => lajfi_1 d
  | key_2 => lajfi_2 d
  | key_3 => lajfi_3 d
  end.

Definition random_gielis_gene : Rand gene :=
  a1 <- randint 3 14 ;;
  a2 <- randint 2 12 ;;
  b1 <- uniform 0.08 0.9 ;;
  b2 <- uniform 0.5 3.5 ;;
  b3 <- uniform 0.5 3.5 ;;
  c1 <- uniform 0.1 0.95 ;;
  c2 <- uniform 0.4 3.2 ;;
  c3 <- uniform 0.4 3.2 ;;
  ret (mk_gene a1 a2 b1 b2 b3 c1 c2 c3).

Definition random_dna : Rand DNA :=
  g1 <- random_gielis_gene ;;
  g2 <- random_gielis_gene ;;
  g3 <- random_gielis_gene ;;
  levels <- randint MIN_FRACTAL_LEVELS MAX_FRACTAL_LEVELS ;;
  children <- randint MIN_CHILDREN MAX_CHILDREN ;;
  scale <- uniform 0.45 0.70 ;;
  spd <- uniform 0.2 0.5 ;;
  ret (mk_DNA g1 g2 g3 levels children scale spd).

(** The three branches of the loop body of [combine_dna]. *)

(* isinstance(dna1[key], dict): the whole gene of one parent *)
Definition combine_gene (g1 g2 : gene) : Rand gene :=
  r <- random ;;
  ret (if Qlt_le_dec r 0.5 then g1 else g2).

(* isinstance(dna1[key], int): random.choice([dna1[key], dna2[key]]) *)
Definition combine_int (v1 v2 : Z) : Rand Z := choice v1 [v2].

(* floats *)
Definition combine_float (v1 v2 : Q) : Rand Q :=
  mix <- uniform 0.3 0.7 ;;
  ret (v1 * mix + v2 * (1 - mix)).

Definition combine_dna (dna1 dna2 : DNA) : Rand DNA :=
  g1 <- combine_gene (lajfi_1 dna1) (lajfi_1 dna2) ;;
  g2 <- combine_gene (lajfi_2 dna1) (lajfi_2 dna2) ;;
  g3 <- combine_gene (lajfi_3 dna1) (lajfi_3 dna2) ;;
  levels <- combine_int (fractal_levels dna1) (fractal_levels dna2) ;;
  children <- combine_int (fractal_children dna1) (fractal_children dna2) ;;
  scale <- combine_float (scale_factor dna1) (scale_factor dna2) ;;
  spd <- combine_float (speed dna1) (speed dna2) ;;
  ret (mk_DNA g1 g2 g3 levels children scale spd).

(** The branches of [mutate_dna]. *)

(* gkey in ['m1', 'm2'] *)
Definition mutate_symmetry (gval : Z) : Rand Z :=
  r <- random ;;
  if Qlt_le_dec r MUTATION_RATE then
    d <- randint (-2) 2 ;;
    ret (Z.max 3 (Z.min 12 (gval + d)))
  else ret gval.

(* the other six keys of a gene *)
Definition mutate_curvature (gval : Q) : Rand Q :=
  r <- random ;;
  if Qlt_le_dec r MUTATION_RATE then
    u <- uniform (-1) 1 ;;
    let change := gval * MUTATION_STRENGTH * u in
    ret (py_max 0.1 (py_min 3.0 (gval + change)))
  else ret gval.

Definition mutate_gene (value : gene) : Rand gene :=
  a1 <- mutate_symmetry (m1 value) ;;
  a2 <- mutate_symmetry (m2 value) ;;
  b1 <- mutate_curvature (n1 value) ;;
  b2 <- mutate_curvature (n2 value) ;;
  b3 <- mutate_curvature (n3 value) ;;
  c1 <- mutate_curvature (n1b value) ;;
  c2 <- mutate_curvature (n2b value) ;;
  c3 <- mutate_curvature (n3b value) ;;
  ret (mk_gene a1 a2 b1 b2 b3 c1 c2 c3).

(* key == 'fractal_levels', key == 'fractal_children' *)
Definition mutate_step (lo hi value : Z) : Rand Z :=
  r <- random ;;
  if Qlt_le_dec r MUTATION_RATE then
    d <- choice (-1)%Z [0%Z; 1%Z] ;;
    ret (Z.max lo (Z.min hi (value + d)))
  else ret value.

(* isinstance(value, float) *)
Definition mutate_float (value : Q) : Rand Q :=
  r <- random ;;
  if Qlt_le_dec r MUTATION_RATE then
    u <- uniform (-1) 1 ;;
    let change := value * MUTATION_STRENGTH * u in
    ret (py_max 0.1 (value + change))
  else ret value.

Definition mutate_dna (dna : DNA) : Rand DNA :=
  g1 <- mutate_gene (lajfi_1 dna) ;;
  g2 <- mutate_gene (lajfi_2 dna) ;;
  g3 <- mutate_gene (lajfi_3 dna) ;;
  levels <- mutate_step MIN_FRACTAL_LEVELS MAX_FRACTAL_LEVELS (fractal_levels dna) ;;
  children <- mutate_step MIN_CHILDREN MAX_CHILDREN (fractal_children dna) ;;
  scale <- mutate_float (scale_factor dna) ;;
  spd <- mutate_float (speed dna) ;;
  ret (mk_DNA g1 g2 g3 levels children scale spd).

End Dna.

(** A position list [[x, y, z]]. *)
Definition vec : Type := (Q * Q * Q)%type.

(** ** plant.py *)

Module Plant.

Import Random Config.
Local Open Scope Q_scope.
Local Open Scope rand_scope.

Record plant : Type := mk_plant {
  position : vec;
  energy : Q;
  age : Z
}.

(** [Plant()] with no position given. *)
Definition init : Rand plant :=
  x <- uniform (- WORLD_SIZE / 2 + 2) (WORLD_SIZE / 2 - 2) ;;
  y <- uniform (- WORLD_SIZE / 2 + 2) (WORLD_SIZE / 2 - 2) ;;
  ret (mk_plant (x, y, 0.3) PLANT_ENERGY 0).

Definition update (self : plant) : plant :=
  let age' := (age self + 1)%Z in
  if ((age' mod 30 =? 0)%Z &&
      (if Qlt_le_dec (energy self) (PLANT_ENERGY * 1.5) then true else false))%bool
  then mk_plant (position self) (energy self + 3) age'
  else mk_plant (position self) (energy self) age'.

End Plant.

(** ** creature.py *)

Module Creature.

Import Random Config Dna.
Local Open Scope Q_scope.
Local Open Scope rand_scope.

Record creature : Type := mk_creature {
  cid : nat;               (* self.id *)
  name : string;
  dna : DNA;
  position : vec;
  energy : Q;
  age : Z;
  obj : bool;              (* self.obj is not None *)
  generation : Z;
  parents : list string;
  children_count : Z;
  meals_eaten : Z;
  mating_cooldown : Z
}.

(** Assignments to one attribute. *)

Definition set_position (c : creature) (p : vec) : creature :=
  mk_creature (cid c) (name c) (dna c) p (energy c) (age c) (obj c)
    (generation c) (parents c) (children_count c) (meals_eaten c)
    (mating_cooldown c).

Definition set_energy (c : creature) (e : Q) : creature :=
  mk_creature (cid c) (name c) (dna c) (position c) e (age c) (obj c)
    (generation c) (parents c) (children_count c) (meals_eaten c)
    (mating_cooldown c).

Definition set_age (c : creature) (a : Z) : creature :=
  mk_creature (cid c) (name c) (dna c) (position c) (energy c) a (obj c)
    (generation c) (parents c) (children_count c) (meals_eaten c)
    (mating_cooldown c).

Definition set_obj (c : creature) (o : bool) : creature :=
  mk_creature (cid c) (name c) (dna c) (position c) (energy c) (age c) o
    (generation c) (parents c) (children_count c) (meals_eaten c)
    (mating_cooldown c).

Definition set_generation (c : creature) (g : Z) : creature :=
  mk_creature (cid c) (name c) (dna c) (position c) (energy c) (age c) (obj c)
    g (parents c) (children_count c) (meals_eaten c) (mating_cooldown c).

Definition set_children_count (c : creature) (n : Z) : creature :=
  mk_creature (cid c) (name c) (dna c) (position c) (energy c) (age c) (obj c)
    (generation c) (parents c) n (meals_eaten c) (mating_cooldown c).

Definition set_meals_eaten (c : creature) (n : Z) : creature :=
  mk_creature (cid c) (name c) (dna c) (position c) (energy c) (age c) (obj c)
    (generation c) (parents c) (children_count c) n (mating_cooldown c).

Definition set_mating_cooldown (c : creature) (n : Z) : creature :=
  mk_creature (cid c) (name c) (dna c) (position c) (energy c) (age c) (obj c)
    (generation c) (parents c) (children_count c) (meals_eaten c) n.

(** [_generate_name]: consonant, vowel, consonant, ... upper-cased. *)

Definition upper (ch : ascii) : ascii :=
  let n := nat_of_ascii ch in
  if ((97 <=? n)%nat && (n <=? 122)%nat)%bool then ascii_of_nat (n - 32) else ch.

Definition choice_consonant : Rand ascii :=
  choice "b"%char
    ["d"; "f"; "g"; "k"; "l"; "m"; "n"; "p"; "r"; "s"; "t"; "v"; "z"]%char.

Definition choice_vowel : Rand ascii :=
  choice "a"%char ["e"; "i"; "o"; "u"]%char.

(* the generator: letters number i, i + 1, ... ([count] of them) *)
Fixpoint name_letters (i count : nat) : Rand (list ascii) :=
  match count with
  | O => ret []
  | S count' =>
      ch <- (if Nat.even i then choice_consonant else choice_vowel) ;;
      rest <- name_letters (S i) count' ;;
      ret (ch :: rest)
  end.

Definition _generate_name : Rand string :=
  n <- randint 3 5 ;;
  letters <- name_letters 0 (Z.to_nat n) ;;
  ret (string_of_list_ascii (map upper letters)).

(** [TriadCreature(dna, position, parents)]; [counter] is the class
    attribute [TriadCreature.counter] before the call, and the id of the
    new creature is [counter + 1]. *)
Definition init (counter : nat) (dna0 : option DNA) (position0 : option vec)
    (parents0 : list string) : Rand creature :=
  nm <- _generate_name ;;
  d <- match dna0 with
       | Some d => ret d
       | None => random_dna
       end ;;
  p <- match position0 with
       | Some p => ret p
       | None =>
           x <- uniform (- WORLD_SIZE / 2 + 3) (WORLD_SIZE / 2 - 3) ;;
           y <- uniform (- WORLD_SIZE / 2 + 3) (WORLD_SIZE / 2 - 3) ;;
           ret (x, y, 1.0)
       end ;;
  ret (mk_creature (S counter) nm d p START_ENERGY 0 false 1 parents0 0 0 0).

Definition update (self : creature) : creature :=
  let c := set_age self (age self + 1) in
  let c := set_energy c (energy c - IDLE_COST) in
  if (0 <? mating_cooldown c)%Z
  then set_mating_cooldown c (mating_cooldown c - 1)
  else c.

Definition clamp_xy (boundary v : Q) : Q :=
  if Qlt_le_dec boundary v then boundary
  else if Qlt_le_dec v (- boundary) then - boundary
  else v.

Definition clamp_z (v : Q) : Q :=
  if Qlt_le_dec v 0.5 then 0.5
  else if Qlt_le_dec 3 v then 3
  else v.

Definition _clamp_to_world (self : creature) : creature :=
  if negb (obj self) then self else
  let boundary := WORLD_SIZE / 2 - 2 in
  match position self with
  | (x, y, z) =>
      set_position self (clamp_xy boundary x, clamp_xy boundary y, clamp_z z)
  end.

Section Movement.

(** [math.sqrt], which [Vector.length] and [Vector.normalize] also go
    through. *)
Variable fsqrt : Q -> Q.

Definition vec_length (v : vec) : Q :=
  match v with (x, y, z) => fsqrt (x * x + y * y + z * z) end.

(** [self.obj.location] and [self.position] hold the same point whenever
    a method starts ([build_mesh] sets the former from the latter, each
    move copies it back, [_clamp_to_world] copies forth), so the move is
    written on [position]. *)
Definition move_towards (self : creature) (target_pos : vec) : creature :=
  if negb (obj self) then self else
  match target_pos, position self with
  | (tx, ty, tz), (x, y, z) =>
      let dx := tx - x in
      let dy := ty - y in
      let dz := (tz - z) * 0.2 in
      let len := vec_length (dx, dy, dz) in
      let moved :=
        if Qlt_le_dec 0.1 len then
          let spd := speed (dna self) in
          let c := set_position self
                     (x + dx / len * spd, y + dy / len * spd, z + dz / len * spd) in
          set_energy c (energy c - MOVEMENT_COST)
        else self in
      _clamp_to_world moved
  end.

Definition move_random (self : creature) : Rand creature :=
  if negb (obj self) then ret self else
  rx <- uniform (-1) 1 ;;
  ry <- uniform (-1) 1 ;;
  rz <- uniform (-1) 1 ;;
  let dx := rx in
  let dy := ry in
  let dz := rz * 0.1 in
  let len := vec_length (dx, dy, dz) in
  match position self with
  | (x, y, z) =>
      let moved :=
        if Qlt_le_dec 0 len then
          let spd := speed (dna self) in
          let c := set_position self
                     (x + dx / len * spd * 0.5, y + dy / len * spd * 0.5,
                      z + dz / len * spd * 0.5) in
          set_energy c (energy c - MOVEMENT_COST * 0.5)
        else self in
      ret (_clamp_to_world moved)
  end.

End Movement.

Definition eat (self : creature) (plant : Plant.plant) : creature :=
  let c := set_energy self (energy self + Plant.energy plant) in
  set_meals_eaten c (meals_eaten c + 1).

Definition get_strength (self : creature) : Q :=
  let base := energy self * 0.5 in
  let complexity_bonus := inject_Z (fractal_levels (dna self) * 5) in
  let size_bonus := inject_Z (fractal_children (dna self) * 2) in
  base + complexity_bonus + size_bonus.

(** [attack] returns the attacker after the call and the boolean it
    returns. *)
Definition attack (self prey : creature) : Rand (creature * bool) :=
  let self := set_energy self (energy self - ATTACK_COST) in
  let my_strength := get_strength self in
  let their_strength := get_strength prey in
  ma <- uniform 0.8 1.2 ;;
  let my_roll := my_strength * ma in
  md <- uniform 0.6 1.4 ;;
  let their_roll := their_strength * md in
  ret (self, if Qlt_le_dec their_roll my_roll then true else false).

(** [devour] returns the eater after the call and [energy_gained]. *)
Definition devour (self victim : creature) : creature * Q :=
  let energy_gained := energy victim * KILL_ENERGY_GAIN in
  let c := set_energy self (energy self + energy_gained) in
  (set_meals_eaten c (meals_eaten c + 1), energy_gained).

Definition can_mate (self : creature) : bool :=
  (Qle_bool MATING_ENERGY (energy self) &&
   (mating_cooldown self =? 0)%Z &&
   (20 <? age self)%Z)%bool.

(** [mate_with] on two distinct creatures: both parents after the call,
    and the child.  [counter] is [TriadCreature.counter] before it. *)
Definition mate_with (counter : nat) (self partner : creature)
    : Rand (creature * creature * creature) :=
  let self := set_energy self (energy self - MATING_COST) in
  let partner := set_energy partner (energy partner - MATING_COST) in
  let self := set_mating_cooldown self 50 in
  let partner := set_mating_cooldown partner 50 in
  child_dna <- combine_dna (dna self) (dna partner) ;;
  child_dna <- mutate_dna child_dna ;;
  jx <- uniform (-1) 1 ;;
  jy <- uniform (-1) 1 ;;
  match position self, position partner with
  | (x1, y1, _), (x2, y2, _) =>
      let child_pos := ((x1 + x2) / 2 + jx, (y1 + y2) / 2 + jy, 1.0) in
      child <- init counter (Some child_dna) (Some child_pos)
                 [name self; name partner] ;;
      let child :=
        set_generation child (Z.max (generation self) (generation partner) + 1) in
      let self := set_children_count self (children_count self + 1) in
      let partner := set_children_count partner (children_count partner + 1) in
      ret (self, partner, child)
  end.

Definition is_dead (self : creature) : bool :=
  Qle_bool (energy self) STARVATION_THRESHOLD.

Section Mesh.

(** [build_mesh] makes the body in Blender.  Two things are left of it
    here: [obj] is set, and the placement of segments and outgrowths
    reads draws, one batch per segment and per outgrowth; how many
    outgrowths there are depends on the vertex counts Blender reports,
    so the number of draws is a function handed in.  What can raise
    inside it (the division by [fractal_children], [gielis_r]) is not
    met here, so this [build_mesh] always returns: where a statement
    about [tick] or [run] is to hold of the code, it is made of the
    calls that return. *)
Variable mesh_draws : DNA -> nat.

Definition build_mesh (self : creature) : Rand creature :=
  fun _ i => (set_obj self true, (i + mesh_draws (dna self))%nat).

End Mesh.

End Creature.

(** ** world.py *)

Module World.

Import Random Config Dna Creature.
Local Open Scope Q_scope.
Local Open Scope rand_scope.

(** A float that may be [float('inf')]. *)
Inductive xfloat : Type :=
| Fin (q : Q)
| Inf.

Definition Qltb (a b : Q) : bool := if Qlt_le_dec a b then true else false.

(* a < b *)
Definition xltb (a b : xfloat) : bool :=
  match a, b with
  | Fin x, Fin y => Qltb x y
  | Fin _, Inf => true
  | Inf, _ => false
  end.

(* a <= b *)
Definition xleb (a b : xfloat) : bool :=
  match a, b with
  | Fin x, Fin y => Qle_bool x y
  | _, Inf => true
  | Inf, Fin _ => false
  end.

(** The module globals [creatures], [plants], [generation_record], and
    the class attribute [TriadCreature.counter]. *)
Record world : Type := mk_world {
  creatures : list creature;
  plants : list Plant.plant;
  generation_record : Z;
  counter : nat
}.

(** Objects of a list with their place in it, which stands for their
    identity ([is], [in] and [remove] compare objects by identity: neither
    class defines [__eq__]). *)
Definition indexed {A : Type} (l : list A) : list (nat * A) :=
  combine (seq 0 (List.length l)) l.

Definition mem (i : nat) (l : list nat) : bool := existsb (Nat.eqb i) l.

(** [l[i] = x] for an [i] in range. *)
Fixpoint list_set {A : Type} (l : list A) (i : nat) (x : A) : list A :=
  match l, i with
  | [], _ => []
  | _ :: rest, O => x :: rest
  | y :: rest, S i' => y :: list_set rest i' x
  end.

(** [list.remove] of the object of identity [j]: [None] when it is not
    there (Python raises ValueError). *)
Fixpoint remove_obj {A : Type} (j : nat) (l : list (nat * A))
    : option (list (nat * A)) :=
  match l with
  | [] => None
  | (k, x) :: rest =>
      if (k =? j)%nat then Some rest
      else match remove_obj j rest with
           | Some rest' => Some ((k, x) :: rest')
           | None => None
           end
  end.

Definition distance_sq (pos1 pos2 : vec) : Q :=
  match pos1, pos2 with
  | (x1, y1, z1), (x2, y2, z2) =>
      0 + (x1 - x2) ^ 2 + (y1 - y2) ^ 2 + (z1 - z2) ^ 2
  end.

Section Tick.

Variable fsqrt : Q -> Q.
Variable mesh_draws : DNA -> nat.

Definition xsqrt (d : xfloat) : xfloat :=
  match d with
  | Fin q => Fin (fsqrt q)
  | Inf => Inf
  end.

Definition spawn_creature (w : world) : Rand world :=
  d <- random_dna ;;
  c <- Creature.init (counter w) (Some d) None [] ;;
  c <- build_mesh mesh_draws c ;;
  ret (mk_world (creatures w ++ [c]) (plants w) (generation_record w)
         (S (counter w))).

Definition spawn_plant (w : world) : Rand world :=
  p <- Plant.init ;;
  ret (mk_world (creatures w) (plants w ++ [p]) (generation_record w)
         (counter w)).

Section FindNearest.

Context {A : Type}.
Variable position_of : A -> vec.

(* the for loop of find_nearest, with its two local variables *)
Fixpoint nearest_loop (c_pos : vec) (targets : list A)
    (nearest : option A) (min_dist_sq : xfloat) : option A * xfloat :=
  match targets with
  | [] => (nearest, min_dist_sq)
  | t :: rest =>
      let dist_sq := distance_sq c_pos (position_of t) in
      if xltb (Fin dist_sq) min_dist_sq
      then nearest_loop c_pos rest (Some t) (Fin dist_sq)
      else nearest_loop c_pos rest nearest min_dist_sq
  end.

Definition find_nearest (c : creature) (targets : list A)
    : option A * xfloat :=
  match targets with
  | [] => (None, Inf)
  | _ :: _ =>
      match nearest_loop (position c) targets None Inf with
      | (nearest, min_dist_sq) => (nearest, xsqrt min_dist_sq)
      end
  end.

End FindNearest.

(** The state of the [for c in creatures] loop of [tick]: the globals
    and the four local lists.  [dead], [eaten_plants] and [killed] hold
    objects, written as their places in [creatures] and [plants]. *)
Record pass_state : Type := mk_pass {
  st_world : world;
  dead : list nat;
  eaten_plants : list nat;
  new_children : list creature;
  killed : list nat
}.

(** The object at place [i] of [creatures] takes the state [c]. *)
Definition put_creature (st : pass_state) (i : nat) (c : creature) : pass_state :=
  let w := st_world st in
  mk_pass (mk_world (list_set (creatures w) i c) (plants w)
             (generation_record w) (counter w))
    (dead st) (eaten_plants st) (new_children st) (killed st).

Definition plant_position (p : nat * Plant.plant) : vec := Plant.position (snd p).
Definition creature_position (x : nat * creature) : vec := position (snd x).

(* [x for x in creatures if x is not c and x not in killed] *)
Definition other_creatures_of (st : pass_state) (i : nat) : list (nat * creature) :=
  filter (fun x => negb (fst x =? i)%nat && negb (mem (fst x) (killed st)))
         (indexed (creatures (st_world st))).

Definition is_some {B : Type} (o : option B) : bool :=
  match o with Some _ => true | None => false end.

(** *** The satiated branch *)

Definition satiated_turn (st : pass_state) (i : nat) (c : creature)
    (other_creatures : list (nat * creature)) : Rand pass_state :=
  let w := st_world st in
  let can_breed :=
    can_mate c &&
    (Z.of_nat (List.length (creatures w)) + Z.of_nat (List.length (new_children st))
       - Z.of_nat (List.length (killed st)) <=? MAX_CREATURES)%Z in
  if can_breed then
    let potential_mates :=
      filter (fun x => can_mate (snd x) && Qle_bool SATISFIED_ENERGY (energy (snd x)))
             other_creatures in
    match potential_mates with
    | _ :: _ =>
        match find_nearest creature_position c potential_mates with
        | (Some (j, mate), dist) =>
            if xltb dist (Fin MATING_RANGE) then
              ' (c', mate', child) <- mate_with (counter w) c mate ;;
              let cs := list_set (list_set (creatures w) i c') j mate' in
              let record :=
                if (generation_record w <? generation child)%Z
                then generation child else generation_record w in
              ret (mk_pass (mk_world cs (plants w) record (S (counter w)))
                     (dead st) (eaten_plants st) (new_children st ++ [child])
                     (killed st))
            else
              ret (put_creature st i (move_towards fsqrt c (position mate)))
        | (None, _) => ret st
        end
    | [] =>
        c' <- move_random fsqrt c ;;
        ret (put_creature st i c')
    end
  else
    c' <- move_random fsqrt c ;;
    ret (put_creature st i c').

(** *** The hungry branch

    The chain of [if]/[elif] first, as the choice it makes; then what
    each arm does. *)

Inductive hungry_action : Type :=
| EatPlant (p : nat * Plant.plant)
| AttackCreature (o : nat * creature)
| MoveToPlant (p : nat * Plant.plant)
| MoveToCreature (o : nat * creature)
| Wander.

Definition hungry_choice
    (nearest_plant : option (nat * Plant.plant)) (plant_dist : xfloat)
    (nearest_other : option (nat * creature)) (other_dist : xfloat)
    : hungry_action :=
  let target_plant :=
    is_some nearest_plant &&
    (negb (is_some nearest_other) || xltb plant_dist other_dist) in
  let target_creature :=
    is_some nearest_other &&
    (negb (is_some nearest_plant) || xleb other_dist plant_dist) in
  (* the [None] arms are never reached: [target_plant] is false without
     a plant, [target_creature] without another creature *)
  if target_plant && xltb plant_dist (Fin EAT_RANGE) then
    match nearest_plant with Some p => EatPlant p | None => Wander end
  else if target_creature && xltb other_dist (Fin CANNIBAL_RANGE) then
    match nearest_other with Some o => AttackCreature o | None => Wander end
  else if target_plant && is_some nearest_plant then
    match nearest_plant with Some p => MoveToPlant p | None => Wander end
  else if target_creature && is_some nearest_other then
    match nearest_other with Some o => MoveToCreature o | None => Wander end
  else Wander.

Definition hungry_turn (st : pass_state) (i : nat) (c : creature)
    (act : hungry_action) : Rand pass_state :=
  match act with
  | EatPlant (k, plant) =>
      let st := put_creature st i (eat c plant) in
      ret (mk_pass (st_world st) (dead st) (eaten_plants st ++ [k])
             (new_children st) (killed st))
  | AttackCreature (j, prey) =>
      ' (c', won) <- attack c prey ;;
      if won : bool then
        let st := put_creature st i (fst (devour c' prey)) in
        ret (mk_pass (st_world st) (dead st) (eaten_plants st)
               (new_children st) (killed st ++ [j]))
      else ret (put_creature st i c')
  | MoveToPlant (_, plant) =>
      ret (put_creature st i (move_towards fsqrt c (Plant.position plant)))
  | MoveToCreature (_, other) =>
      ret (put_creature st i (move_towards fsqrt c (position other)))
  | Wander =>
      c' <- move_random fsqrt c ;;
      ret (put_creature st i c')
  end.

(** *** One iteration of [for c in creatures] *)

Definition turn (st : pass_state) (i : nat) : Rand pass_state :=
  match nth_error (creatures (st_world st)) i with
  | None => ret st
  | Some c0 =>
      if mem i (killed st) then ret st else
      let c := update c0 in
      let st := put_creature st i c in
      match find_nearest plant_position c (indexed (plants (st_world st))) with
      | (nearest_plant, plant_dist) =>
          let other_creatures := other_creatures_of st i in
          match find_nearest creature_position c other_creatures with
          | (nearest_other, other_dist) =>
              st <- (if Qle_bool SATISFIED_ENERGY (energy c)
                     then satiated_turn st i c other_creatures
                     else hungry_turn st i c
                            (hungry_choice nearest_plant plant_dist
                               nearest_other other_dist)) ;;
              match nth_error (creatures (st_world st)) i with
              | Some c =>
                  if is_dead c
                  then ret (mk_pass (st_world st) (dead st ++ [i])
                              (eaten_plants st) (new_children st) (killed st))
                  else ret st
              | None => ret st
              end
          end
      end
  end.

Fixpoint pass_loop (places : list nat) (st : pass_state) : Rand pass_state :=
  match places with
  | [] => ret st
  | i :: rest =>
      st' <- turn st i ;;
      pass_loop rest st'
  end.

(** The whole loop: the list is not resized while it runs, so it visits
    the places [0 .. len(creatures) - 1]. *)
Definition decision_pass (w : world) : Rand pass_state :=
  pass_loop (seq 0 (List.length (creatures w))) (mk_pass w [] [] [] []).

(** *** After the loop *)

(* for victim in killed: if victim not in dead: dead.append(victim) *)
Definition add_killed_to_dead (killed dead : list nat) : list nat :=
  fold_left (fun d victim => if mem victim d then d else d ++ [victim])
            killed dead.

(* for plant in eaten_plants: if plant in plants: plants.remove(plant) *)
Definition remove_eaten (eaten : list nat) (ps : list (nat * Plant.plant))
    : list (nat * Plant.plant) :=
  fold_left (fun l k => match remove_obj k l with
                        | Some l' => l'
                        | None => l
                        end)
            eaten ps.

(* for child in new_children: child.build_mesh(); creatures.append(child) *)
Fixpoint add_newborns (children : list creature) (cs : list creature)
    : Rand (list creature) :=
  match children with
  | [] => ret cs
  | child :: rest =>
      child' <- build_mesh mesh_draws child ;;
      add_newborns rest (cs ++ [child'])
  end.

(* for c in dead: ... creatures.remove(c) *)
Fixpoint remove_dead (dead : list nat) (cs : list (nat * creature))
    : result (list (nat * creature)) :=
  match dead with
  | [] => Ok cs
  | j :: rest =>
      match remove_obj j cs with
      | Some cs' => remove_dead rest cs'
      | None => Raise ValueError
      end
  end.

(* while len(plants) < MAX_PLANTS: spawn_plant(); each round adds one
   plant, so the loop runs [missing] times for the number missing *)
Fixpoint spawn_plants (missing : nat) (w : world) : Rand world :=
  match missing with
  | O => ret w
  | S n => w' <- spawn_plant w ;; spawn_plants n w'
  end.

(* while len(creatures) < MAX_CREATURES: spawn_creature() *)
Fixpoint spawn_creatures (missing : nat) (w : world) : Rand world :=
  match missing with
  | O => ret w
  | S n => w' <- spawn_creature w ;; spawn_creatures n w'
  end.

(** [tick], in two halves: up to the end of the loop over the
    creatures, and from there on.  The STL export, which reads the clock
    and writes a file, and the log lines are left out; the draw of the
    status line is not. *)
Definition tick_pass (w : world) : Rand pass_state :=
  let w := mk_world (creatures w) (map Plant.update (plants w))
             (generation_record w) (counter w) in
  w <- spawn_plants
         (Z.to_nat (MAX_PLANTS - Z.of_nat (List.length (plants w)))) w ;;
  decision_pass w.

Definition tick_settle (st : pass_state) : Rand (result world) :=
  let w := st_world st in
  let dead := add_killed_to_dead (killed st) (dead st) in
  let plants' := map snd (remove_eaten (eaten_plants st) (indexed (plants w))) in
  cs <- add_newborns (new_children st) (creatures w) ;;
  match remove_dead dead (indexed cs) with
  | Raise e => ret (Raise e)
  | Ok cs' =>
      let w := mk_world (map snd cs') plants' (generation_record w) (counter w) in
      w <- spawn_creatures
             (Z.to_nat (MAX_CREATURES - Z.of_nat (List.length (creatures w)))) w ;;
      _ <- random ;;
      ret (Ok w)
  end.

Definition tick (w : world) : Rand (result world) :=
  st <- tick_pass w ;;
  tick_settle st.

End Tick.

End World.

(** ** The two library functions, for running the model

    [sqrt_milli] is the square root cut off after three decimals.
    [joined_mesh_draws] counts the draws of [build_mesh] when every
    parent mesh offers at least [fractal_children] vertices: 9 for the
    three segments (1, 4 and 4), and 5 for each outgrowth. *)

Module Library.

Import Dna.
Local Open Scope Q_scope.

Definition sqrt_milli (q : Q) : Q :=
  inject_Z (Z.sqrt (Qfloor (q * 1000000))) / 1000.

(* children + children^2 + ... + children^levels *)
Fixpoint outgrowths (levels children : nat) : nat :=
  match levels with
  | O => 0
  | S l => children * (1 + outgrowths l children)
  end.

Definition joined_mesh_draws (d : DNA) : nat :=
  9 + 5 * outgrowths (Z.to_nat (fractal_levels d)) (Z.to_nat (fractal_children d)).

End Library.

(** * The vocabulary of the statements *)

(** ** Draws *)

Module DrawProps.

Import Random.
Local Open Scope Q_scope.

(** [holds t m P]: on tape [t], whatever the cursor, the value [m]
    returns satisfies [P]. *)
Definition holds {A : Type} (t : tape) (m : Rand A) (P : A -> Prop) : Prop :=
  forall i : nat, P (fst (m t i)).

(** Two constant tapes of unit draws, for the examples. *)
Definition half_tape : tape := fun _ => 1 # 2.
Definition high_tape : tape := fun _ => 99 # 100.

End DrawProps.

(** ** Genomes *)

Module GenomeProps.

Import Random Config Dna.
Local Open Scope Q_scope.

(** The ranges [random_gielis_gene] samples from. *)
Record gene_sampled (g : gene) : Prop := {
  gs_m1 : (3 <= m1 g <= 14)%Z;
  gs_m2 : (2 <= m2 g <= 12)%Z;
  gs_n1 : 0.08 <= n1 g /\ n1 g <= 0.9;
  gs_n2 : 0.5 <= n2 g /\ n2 g <= 3.5;
  gs_n3 : 0.5 <= n3 g /\ n3 g <= 3.5;
  gs_n1b : 0.1 <= n1b g /\ n1b g <= 0.95;
  gs_n2b : 0.4 <= n2b g /\ n2b g <= 3.2;
  gs_n3b : 0.4 <= n3b g /\ n3b g <= 3.2
}.

(** The ranges [random_dna] samples from. *)
Record dna_sampled (d : DNA) : Prop := {
  ds_genes : forall k, gene_sampled (gene_of k d);
  ds_levels : (MIN_FRACTAL_LEVELS <= fractal_levels d <= MAX_FRACTAL_LEVELS)%Z;
  ds_children : (MIN_CHILDREN <= fractal_children d <= MAX_CHILDREN)%Z;
  ds_scale : 0.45 <= scale_factor d /\ scale_factor d <= 0.70;
  ds_speed : 0.2 <= speed d /\ speed d <= 0.5
}.

(** The ranges that sampling and mutation together can reach. *)
Definition symmetry_ok (v : Z) : Prop := (2 <= v <= 14)%Z.
Definition curvature_ok (v : Q) : Prop := 0.08 <= v /\ v <= 3.5.

Definition symmetries (g : gene) : list Z := [m1 g; m2 g].
Definition curvatures (g : gene) : list Q :=
  [n1 g; n2 g; n3 g; n1b g; n2b g; n3b g].

Record gene_ok (g : gene) : Prop := {
  go_sym : Forall symmetry_ok (symmetries g);
  go_curv : Forall curvature_ok (curvatures g)
}.

Record dna_ok (d : DNA) : Prop := {
  do_genes : forall k, gene_ok (gene_of k d);
  do_levels : (MIN_FRACTAL_LEVELS <= fractal_levels d <= MAX_FRACTAL_LEVELS)%Z;
  do_children : (MIN_CHILDREN <= fractal_children d <= MAX_CHILDREN)%Z;
  do_scale : 0.1 <= scale_factor d;
  do_speed : 0.1 <= speed d
}.

(** The range each field stays in through crossover and mutation: the
    range it is sampled from, widened to the one mutation clamps the
    field to (3..12 for a symmetry, 0.1..3.0 for a curvature).  The
    blended traits have a sign only: in floating point the blend of two
    values on mutation's floor 0.1 can come out just below it. *)
Record gene_kept (g : gene) : Prop := {
  gk_m1 : (3 <= m1 g <= 14)%Z;
  gk_m2 : (2 <= m2 g <= 12)%Z;
  gk_n1 : 0.08 <= n1 g /\ n1 g <= 3.0;
  gk_n2 : 0.1 <= n2 g /\ n2 g <= 3.5;
  gk_n3 : 0.1 <= n3 g /\ n3 g <= 3.5;
  gk_n1b : 0.1 <= n1b g /\ n1b g <= 3.0;
  gk_n2b : 0.1 <= n2b g /\ n2b g <= 3.2;
  gk_n3b : 0.1 <= n3b g /\ n3b g <= 3.2
}.

Record dna_kept (d : DNA) : Prop := {
  dk_genes : forall k, gene_kept (gene_of k d);
  dk_levels : (MIN_FRACTAL_LEVELS <= fractal_levels d <= MAX_FRACTAL_LEVELS)%Z;
  dk_children : (MIN_CHILDREN <= fractal_children d <= MAX_CHILDREN)%Z;
  dk_scale : 0 < scale_factor d;
  dk_speed : 0 < speed d
}.

(** What mutation does to one field: nothing, or a value in the clamp
    range. *)
Definition symmetry_step (old new : Z) : Prop :=
  new = old \/ (3 <= new <= 12)%Z.
Definition curvature_step (old new : Q) : Prop :=
  new = old \/ (0.1 <= new /\ new <= 3.0).

Definition gene_step (old new : gene) : Prop :=
  Forall2 symmetry_step (symmetries old) (symmetries new) /\
  Forall2 curvature_step (curvatures old) (curvatures new).

(** The same for the four traits: nothing, or a value inside the
    configured bounds (depth, branching), or at least 0.1 (scale factor,
    speed). *)
Definition count_step (lo hi old new : Z) : Prop :=
  new = old \/ (lo <= new <= hi)%Z.
Definition float_step (old new : Q) : Prop := new = old \/ 0.1 <= new.

Record dna_step (old new : DNA) : Prop := {
  dst_genes : forall k, gene_step (gene_of k old) (gene_of k new);
  dst_levels :
    count_step MIN_FRACTAL_LEVELS MAX_FRACTAL_LEVELS
      (fractal_levels old) (fractal_levels new);
  dst_children :
    count_step MIN_CHILDREN MAX_CHILDREN
      (fractal_children old) (fractal_children new);
  dst_scale : float_step (scale_factor old) (scale_factor new);
  dst_speed : float_step (speed old) (speed new)
}.

(** The draw that decides the gene of key [k]: the loop of
    [combine_dna] meets the gene keys first, in the order of
    [GIELIS_GENES], one draw each. *)
Definition key_place (k : gene_key) : nat :=
  match k with
  | key_1 => 0
  | key_2 => 1
  | key_3 => 2
  end.

(** A genome for the examples: the starfish of the notes in [dna.py]. *)
Definition starfish : gene := mk_gene 5 5 0.2 1.7 1.7 0.2 1.7 1.7.
Definition starfish_dna : DNA := mk_DNA starfish starfish starfish 2 3 0.5 0.3.

(** A second one, the square star of the same notes, with other
    traits. *)
Definition square_star : gene := mk_gene 4 4 0.3 1.0 1.0 0.3 1.0 1.0.
Definition square_star_dna : DNA :=
  mk_DNA square_star square_star square_star 3 4 0.6 0.4.

End GenomeProps.

(** ** Creatures *)

Module CreatureProps.

Import Random Config Dna Creature GenomeProps.
Local Open Scope Q_scope.

Definition pos_x (p : vec) : Q := fst (fst p).
Definition pos_y (p : vec) : Q := snd (fst p).
Definition pos_z (p : vec) : Q := snd p.

(** A parent as [mate_with] leaves it. *)
Definition after_mating (c : creature) : creature :=
  let c := set_energy c (energy c - MATING_COST) in
  let c := set_mating_cooldown c 50 in
  set_children_count c (children_count c + 1).

(** The genome [mate_with] gives the child, and the cursor after it:
    crossover from cursor [i], then mutation from where crossover
    stopped. *)
Definition child_genome (a b : creature) (t : tape) (i : nat) : DNA * nat :=
  mutate_dna (fst (combine_dna (dna a) (dna b) t i)) t
             (snd (combine_dna (dna a) (dna b) t i)).

(** The two multipliers of a fight, as functions of their draws. *)
Definition attacker_multiplier (u : Q) : Q := 0.8 + (1.2 - 0.8) * u.
Definition defender_multiplier (u : Q) : Q := 0.6 + (1.4 - 0.6) * u.

Definition cooldown_ok (c : creature) : Prop := (0 <= mating_cooldown c)%Z.

(** [evolves c c']: [c'] is a later state of the object [c].  The
    methods change position, energy, age and the counters; identity,
    name, genome and generation stay, and a cooldown that is not negative
    stays so. *)
Record evolves (c c' : creature) : Prop := {
  ev_cid : cid c' = cid c;
  ev_name : name c' = name c;
  ev_dna : dna c' = dna c;
  ev_generation : generation c' = generation c;
  ev_cooldown : cooldown_ok c -> cooldown_ok c'
}.

(** Two creatures for the examples, both at height 3. *)
Definition boka : creature :=
  mk_creature 1 "BOKA" starfish_dna (0, 0, 3) 80 30 true 1 [] 0 0 0.
Definition glif : creature :=
  mk_creature 2 "GLIF" starfish_dna (0, 0, 3) 80 30 true 1 [] 0 0 0.

(** A new creature, with [START_ENERGY] and no food in sight. *)
Definition glif_starving : creature :=
  mk_creature 2 "GLIF" starfish_dna (0, 0, 1) 40 0 true 1 [] 0 0 0.

End CreatureProps.

(** ** The loop over the creatures *)

Module LoopProps.

Import Random Config Dna Creature World Library GenomeProps CreatureProps.
Local Open Scope Q_scope.

(** The test on the population in [can_breed]. *)
Definition cap_open (st : pass_state) : Prop :=
  (Z.of_nat (List.length (creatures (st_world st)))
   + Z.of_nat (List.length (new_children st))
   - Z.of_nat (List.length (killed st)) <= MAX_CREATURES)%Z.

(** A turn leaves [killed] and [new_children] alone, or appends one
    child while the cap is open, or appends one victim that is a place of
    [creatures] not killed before. *)
Definition pending_step (st st' : pass_state) : Prop :=
  (killed st' = killed st /\ new_children st' = new_children st) \/
  (killed st' = killed st /\ cap_open st /\
   exists child, new_children st' = new_children st ++ [child] /\
                 mating_cooldown child = 0%Z) \/
  (new_children st' = new_children st /\
   exists j, killed st' = killed st ++ [j] /\
             (j < List.length (creatures (st_world st)))%nat /\
             ~ In j (killed st)).

(** What one step of a turn may do, [dead] aside. *)
Record step_spec (st st' : pass_state) : Prop := {
  ss_creatures :
    Forall2 evolves (creatures (st_world st)) (creatures (st_world st'));
  ss_plants : plants (st_world st') = plants (st_world st);
  ss_eaten :
    eaten_plants st' = eaten_plants st \/
    exists k, eaten_plants st' = eaten_plants st ++ [k] /\
              (k < List.length (plants (st_world st)))%nat;
  ss_pending : pending_step st st'
}.

(** An action that names a plant to eat or a creature to attack names
    one that is there. *)
Definition action_valid (st : pass_state) (act : hungry_action) : Prop :=
  match act with
  | EatPlant (k, _) => (k < List.length (plants (st_world st)))%nat
  | AttackCreature (j, _) =>
      (j < List.length (creatures (st_world st)))%nat /\ ~ In j (killed st)
  | _ => True
  end.

(** What the turn of place [i] may do. *)
Record turn_spec (i : nat) (st st' : pass_state) : Prop := {
  ts_step : step_spec st st';
  ts_dead :
    dead st' = dead st \/
    (dead st' = dead st ++ [i] /\
     (i < List.length (creatures (st_world st)))%nat)
}.

(** The state of the loop when the creature at place [k] is about to
    take its turn: the outcome of the turns of the places before it. *)
Definition state_before_turn (fsqrt : Q -> Q) (w : world) (k : nat)
    : Rand pass_state :=
  pass_loop fsqrt (seq 0 k) (mk_pass w [] [] [] []).

(** What holds of the state before the turn of place [k]. *)
Record pass_inv (w : world) (k : nat) (st : pass_state) : Prop := {
  pi_creatures : Forall2 evolves (creatures w) (creatures (st_world st));
  pi_plants : plants (st_world st) = plants w;
  pi_dead_nodup : NoDup (dead st);
  pi_dead :
    forall j, In j (dead st) -> (j < k)%nat /\ (j < List.length (creatures w))%nat;
  pi_killed_nodup : NoDup (killed st);
  pi_killed :
    forall j, In j (killed st) -> (j < List.length (creatures w))%nat;
  pi_eaten :
    forall p, In p (eaten_plants st) -> (p < List.length (plants w))%nat;
  pi_births :
    new_children st = [] \/
    (Z.of_nat (List.length (creatures w))
     + Z.of_nat (List.length (new_children st))
     - Z.of_nat (List.length (killed st)) <= MAX_CREATURES + 1)%Z;
  pi_children : Forall (fun c => mating_cooldown c = 0%Z) (new_children st)
}.

(** The two searches at the head of a turn, for the creature at place
    [i] once [update] has left it in state [c]:
    [find_nearest(c, plants)] and [find_nearest(c, other_creatures)]. *)
Definition nearest_plant_seen (fsqrt : Q -> Q) (st : pass_state) (i : nat)
    (c : creature) : option (nat * Plant.plant) * xfloat :=
  find_nearest fsqrt plant_position c
    (indexed (plants (st_world (put_creature st i c)))).

Definition nearest_other_seen (fsqrt : Q -> Q) (st : pass_state) (i : nat)
    (c : creature) : option (nat * creature) * xfloat :=
  find_nearest fsqrt creature_position c
    (other_creatures_of (put_creature st i c) i).


(** Children born in the tick that starts in [w]. *)
Definition births (fsqrt : Q -> Q) (w : world) (t : tape) (cur : nat) : nat :=
  List.length (new_children (fst (tick_pass fsqrt w t cur))).

(** *** Worlds for the examples *)

(** A hungry creature at the origin, at height 0.5; one plant at
    (1, 0, 0.3) and one other creature at (1, 0.2, 0.5), both at squared
    distance 1.04 from it. *)
Definition hungry_one : creature :=
  mk_creature 1 "BOKA" starfish_dna (0, 0, 0.5) 40 30 true 1 [] 0 0 0.
Definition bystander : creature :=
  mk_creature 2 "GLIF" starfish_dna (1, 0.2, 0.5) 40 30 true 1 [] 0 0 0.
Definition lone_plant : Plant.plant := Plant.mk_plant (1, 0, 0.3) 25 0.

Definition tie_state : pass_state :=
  mk_pass (mk_world [hungry_one; bystander] [lone_plant] 1 2) [] [] [] [].

(** The two scenarios the simulation is usually tried on: one hungry
    creature next to a plant, and two satiated creatures side by side. *)
Definition feeding_world : world := mk_world [hungry_one] [lone_plant] 1 1.

Definition mating_world : world :=
  mk_world
    [ mk_creature 1 "BOKA" starfish_dna (0, 0, 1) 80 30 true 1 [] 0 0 0;
      mk_creature 2 "GLIF" starfish_dna (1, 0, 1) 80 30 true 1 [] 0 0 0 ]
    [] 1 2.

(** Eight plants along the western edge. *)
Definition far_plants : list Plant.plant :=
  map (fun y => Plant.mk_plant (-8, inject_Z y, 0.3) 25 0)
      [-8; -7; -6; -5; -4; -3; -2; -1]%Z.

(** Three hungry creatures in a row, one unit apart; the middle one is
    weak. *)
Definition row : world :=
  mk_world
    [ mk_creature 1 "BOKA" starfish_dna (0, 0, 1) 60 30 true 1 [] 0 0 0;
      mk_creature 2 "GLIF" starfish_dna (1, 0, 1) 10 30 true 1 [] 0 0 0;
      mk_creature 3 "ZOMPA" starfish_dna (2, 0, 1) 60 30 true 1 [] 0 0 0 ]
    far_plants 1 3.

(** Three creatures near (5, 5), old enough to mate, with energy enough
    to stay satiated after mating. *)
Definition trio : world :=
  mk_world
    [ mk_creature 1 "BOKA" starfish_dna (5, 5, 1) 120 30 true 1 [] 0 0 0;
      mk_creature 2 "GLIF" starfish_dna (6, 5, 1) 120 30 true 1 [] 0 0 0;
      mk_creature 3 "ZOMPA" starfish_dna (5, 7, 1) 120 30 true 1 [] 0 0 0 ]
    far_plants 1 3.

End LoopProps.

(** * More of the code

    The mesh of [gielis.py], the choice of outgrowth vertices in
    [build_mesh], the choice of the champion in [export_champion], and
    [main] with the ticks that follow it. *)

From Stdlib Require Import Qreals.

(** ** gielis.py: [create_gielis_mesh]

    [params] is a gene: its two symmetries are ints, its six curvatures
    floats, all read as reals here.  What the function hands to Blender
    is the pair of lists [verts] and [faces]; that pair is the result. *)

Module GielisMesh.

Import Gielis Dna.
Local Open Scope R_scope.

Definition vertex : Type := (R * R * R)%type.
Definition face : Type := (Z * Z * Z * Z)%type.

(** [range(n)] *)
Definition range (n : Z) : list Z := map Z.of_nat (seq 0 (Z.to_nat n)).

(** [a / b] on two ints. *)
Definition int_div (a b : Z) : result R :=
  if (b =? 0)%Z then Raise ZeroDivisionError else Ok (IZR a / IZR b).

(** A loop that appends one value per round and stops at the first
    exception. *)
Fixpoint collect {A B : Type} (f : A -> result B) (l : list A)
    : result (list B) :=
  match l with
  | [] => Ok []
  | a :: rest =>
      rbind (f a) (fun b =>
      rbind (collect f rest) (fun bs => Ok (b :: bs)))
  end.

(* the body of the inner loop over [i] *)
Definition vertex_at (params : gene) (scale : R) (location : vertex)
    (theta_steps : Z) (phi : R) (i : Z) : result vertex :=
  rbind (int_div i theta_steps) (fun q =>
  let theta := q * 2 * PI in
  rbind (gielis_r theta (IZR (m1 params)) (Q2R (n1 params)) (Q2R (n2 params))
           (Q2R (n3 params))) (fun r1 =>
  rbind (gielis_r phi (IZR (m2 params)) (Q2R (n1b params)) (Q2R (n2b params))
           (Q2R (n3b params))) (fun r2 =>
  let r := r1 * r2 * scale in
  match location with
  | (lx, ly, lz) =>
      Ok (r * sin phi * cos theta + lx,
          r * sin phi * sin theta + ly,
          r * cos phi + lz)
  end))).

(* the body of the outer loop over [j] *)
Definition vertex_row (params : gene) (scale : R) (location : vertex)
    (theta_steps phi_steps : Z) (j : Z) : result (list vertex) :=
  rbind (int_div j phi_steps) (fun q =>
  let phi := q * PI in
  collect (vertex_at params scale location theta_steps phi) (range theta_steps)).

Definition face_at (theta_steps j i : Z) : face :=
  let next_i := ((i + 1) mod theta_steps)%Z in
  let v1 := (j * theta_steps + i)%Z in
  let v2 := (j * theta_steps + next_i)%Z in
  let v3 := ((j + 1) * theta_steps + next_i)%Z in
  let v4 := ((j + 1) * theta_steps + i)%Z in
  (v1, v2, v3, v4).

Definition create_gielis_mesh (params : gene) (resolution : Z) (scale : R)
    (location : vertex) : result (list vertex * list face) :=
  let theta_steps := resolution in
  let phi_steps := (resolution / 2)%Z in
  rbind (collect (vertex_row params scale location theta_steps phi_steps)
           (range (phi_steps + 1))) (fun rows =>
  let verts := List.concat rows in
  let faces :=
    flat_map (fun j => map (face_at theta_steps j) (range theta_steps))
             (range phi_steps) in
  Ok (verts, faces)).

End GielisMesh.

(** ** creature.py: where [build_mesh] puts the outgrowths

    For each parent mesh of a level,
    [step = max(1, num_verts // fractal_children)] and
    [indices = list(range(0, num_verts, step))[:fractal_children]]. *)

Module Body.

(** [list(range(0, stop, step))] for a positive [step]. *)
Definition range_step (stop step : Z) : list Z :=
  map (fun k => (Z.of_nat k * step)%Z)
      (seq 0 (Z.to_nat ((stop + step - 1) / step))).

(** [l[:n]]; a negative [n] counts from the end. *)
Definition take {A : Type} (n : Z) (l : list A) : list A :=
  if (n <? 0)%Z then firstn (Z.to_nat (Z.of_nat (List.length l) + n)) l
  else firstn (Z.to_nat n) l.

Definition outgrowth_indices (num_verts fractal_children : Z)
    : result (list Z) :=
  if (fractal_children =? 0)%Z then Raise ZeroDivisionError else
  let step := Z.max 1 (num_verts / fractal_children) in
  Ok (take fractal_children (range_step num_verts step)).

(** [level_res = max(10, resolution // (level + 1))]; [level] runs from
    1 on, so the divisor is never zero. *)
Definition level_res (resolution level : Z) : Z :=
  Z.max 10 (resolution / (level + 1)).

End Body.

(** ** world.py: the champion of [export_champion]

    [champion = max(creatures, key=lambda c: c.generation * 10 + c.energy)],
    after the early return on an empty list.  The rest of the function
    writes the file. *)

Module ExportChampion.

Import Creature.
Local Open Scope Q_scope.

Definition score (c : creature) : Q := inject_Z (generation c * 10) + energy c.

(** [max(l, key=key)] for [l = best :: rest]: a later element replaces
    the best so far only if its key is strictly greater. *)
Fixpoint max_by {A : Type} (key : A -> Q) (best : A) (rest : list A) : A :=
  match rest with
  | [] => best
  | x :: rest' =>
      if Qlt_le_dec (key best) (key x) then max_by key x rest'
      else max_by key best rest'
  end.

Definition champion (creatures : list creature) : option creature :=
  match creatures with
  | [] => None
  | c :: rest => Some (max_by score c rest)
  end.

End ExportChampion.

(** ** main.py

    [main] fills the world; Blender's timer then calls [tick] again and
    again, for as long as it returns. *)

Module Main.

Import Random Config Dna Creature World.
Local Open Scope rand_scope.

(** The globals when the modules are loaded: [creatures = []],
    [plants = []], [generation_record = 1], [TriadCreature.counter = 0]. *)
Definition fresh_world : world := mk_world [] [] 1 0.

Section Run.

Variable fsqrt : Q -> Q.
Variable mesh_draws : DNA -> nat.

(* for _ in range(MAX_PLANTS): spawn_plant()
   for _ in range(MAX_CREATURES): spawn_creature() *)
Definition main : Rand world :=
  w <- spawn_plants (Z.to_nat MAX_PLANTS) fresh_world ;;
  spawn_creatures mesh_draws (Z.to_nat MAX_CREATURES) w.

(** [n] calls of [tick] by the timer; an exception ends the series. *)
Fixpoint ticks (n : nat) (w : world) : Rand (result world) :=
  match n with
  | O => ret (Ok w)
  | S n' =>
      r <- tick fsqrt mesh_draws w ;;
      match r with
      | Ok w' => ticks n' w'
      | Raise e => ret (Raise e)
      end
  end.

Definition run (n : nat) : Rand (result world) :=
  w <- main ;;
  ticks n w.

End Run.

End Main.

(** ** More vocabulary *)

Module MeshProps.

Import GielisMesh.
Local Open Scope R_scope.

(** [v] is a point of the spherical product of two radii, each within
    the clamp of [gielis_r], around [location]: at latitude angle [phi]
    and longitude angle [theta], [r1 * r2 * scale] away. *)
Definition spherical_product (scale : R) (location v : vertex) : Prop :=
  exists r1 r2 phi theta,
    1 / 10 <= r1 <= 5 /\ 1 / 10 <= r2 <= 5 /\
    0 <= phi <= PI /\ 0 <= theta <= 2 * PI /\
    match location with
    | (lx, ly, lz) =>
        v = (r1 * r2 * scale * sin phi * cos theta + lx,
             r1 * r2 * scale * sin phi * sin theta + ly,
             r1 * r2 * scale * cos phi + lz)
    end.

Definition face_corners (f : face) : list Z :=
  match f with (v1, v2, v3, v4) => [v1; v2; v3; v4] end.

(** A face of a mesh of [n] vertices: four different vertices that
    exist. *)
Definition proper_face (n : Z) (f : face) : Prop :=
  Forall (fun v => (0 <= v < n)%Z) (face_corners f) /\ NoDup (face_corners f).

End MeshProps.

Module MutationProps.

Import Config Dna GenomeProps.
Local Open Scope Q_scope.


(** How far one mutation can move a field. *)
Definition near_symmetry (old new : Z) : Prop := (-2 <= new - old <= 2)%Z.
Definition near_count (old new : Z) : Prop := (-1 <= new - old <= 1)%Z.
Definition near_float (old new : Q) : Prop :=
  - (old * MUTATION_STRENGTH) <= new - old /\ new - old <= old * MUTATION_STRENGTH.

Definition gene_near (old new : gene) : Prop :=
  Forall2 near_symmetry (symmetries old) (symmetries new) /\
  Forall2 near_float (curvatures old) (curvatures new).

Record dna_near (old new : DNA) : Prop := {
  dn_genes : forall k, gene_near (gene_of k old) (gene_of k new);
  dn_levels : near_count (fractal_levels old) (fractal_levels new);
  dn_children : near_count (fractal_children old) (fractal_children new);
  dn_scale : near_float (scale_factor old) (scale_factor new);
  dn_speed : near_float (speed old) (speed new)
}.

End MutationProps.

Module BodyProps.

Import Random Config Dna Creature CreatureProps.
Local Open Scope Q_scope.

(** The box [_clamp_to_world] keeps a creature in. *)
Definition in_bounds (p : vec) : Prop :=
  let boundary := WORLD_SIZE / 2 - 2 in
  (- boundary <= pos_x p /\ pos_x p <= boundary) /\
  (- boundary <= pos_y p /\ pos_y p <= boundary) /\
  (0.5 <= pos_z p /\ pos_z p <= 3).

(** The two alphabets of [_generate_name], upper-cased. *)
Definition CONSONANTS : list ascii :=
  ["B"; "D"; "F"; "G"; "K"; "L"; "M"; "N"; "P"; "R"; "S"; "T"; "V"; "Z"]%char.
Definition VOWELS : list ascii := ["A"; "E"; "I"; "O"; "U"]%char.

(** Letters number [i], [i + 1], ... of a name: consonants at the even
    places, vowels at the odd ones. *)
Fixpoint alternating (i : nat) (letters : list ascii) : Prop :=
  match letters with
  | [] => True
  | ch :: rest =>
      In ch (if Nat.even i then CONSONANTS else VOWELS) /\ alternating (S i) rest
  end.

(** [k] calls of [update] in a row. *)
Definition idle (k : nat) (c : creature) : creature := Nat.iter k update c.

(** [n] calls of [Plant.update] in a row. *)
Definition grown (n : nat) (p : Plant.plant) : Plant.plant :=
  Nat.iter n Plant.update p.

End BodyProps.

Module NearestProps.

Import Creature World.
Local Open Scope Q_scope.

(** [x] is the nearest of [targets] to the point [p], and the first of
    the nearest ones: those before it are strictly farther, those after
    it not nearer. *)
Definition first_nearest {A : Type} (position_of : A -> vec) (p : vec)
    (targets : list A) (x : A) : Prop :=
  exists before after,
    targets = before ++ x :: after /\
    (forall y, In y before ->
       distance_sq p (position_of x) < distance_sq p (position_of y)) /\
    (forall y, In y after ->
       distance_sq p (position_of x) <= distance_sq p (position_of y)).

(** [x] is the first of [l] with the greatest key. *)
Definition first_greatest {A : Type} (key : A -> Q) (l : list A) (x : A) : Prop :=
  exists before after,
    l = before ++ x :: after /\
    (forall y, In y before -> key y < key x) /\
    (forall y, In y after -> key y <= key x).

End NearestProps.

(** ** What a tick does to the creatures *)

Module TickProps.

Import Random Config Dna Creature World GenomeProps CreatureProps LoopProps.
Local Open Scope Q_scope.

(** [c'] is what a method other than [update] and [build_mesh] makes of
    [c]: the same creature, as old as before, with the same body. *)
Record same_tick (c c' : creature) : Prop := {
  sm_evolves : evolves c c';
  sm_age : age c' = age c;
  sm_obj : obj c' = obj c
}.

(** [c.energy >= SATISFIED_ENERGY] *)
Definition fed (c : creature) : Prop :=
  Qle_bool SATISFIED_ENERGY (energy c) = true.

(** [child] is as [mate_with] makes the child of [a] and [b] on the
    tape [t]. *)
Record born_of (t : tape) (a b child : creature) : Prop := {
  bo_generation :
    generation child = (Z.max (generation a) (generation b) + 1)%Z;
  bo_dna : exists i, dna child = fst (child_genome a b t i);
  bo_energy : energy child = START_ENERGY;
  bo_age : age child = 0%Z;
  bo_cooldown : mating_cooldown child = 0%Z;
  bo_obj : obj child = false;
  bo_parents : parents child = [name a; name b]
}.

(** [c] is as [spawn_creature] makes a creature on the tape [t]. *)
Record spawned (t : tape) (c : creature) : Prop := {
  sp_generation : generation c = 1%Z;
  sp_dna : exists i, dna c = fst (random_dna t i);
  sp_energy : energy c = START_ENERGY;
  sp_age : age c = 0%Z;
  sp_cooldown : mating_cooldown c = 0%Z;
  sp_obj : obj c = true;
  sp_parents : parents c = []
}.

(** [p] is as [Plant()] makes a plant on the tape [t]. *)
Definition seeded (t : tape) (p : Plant.plant) : Prop :=
  exists i, p = fst (Plant.init t i).

(** What the turn of the creature at place [i] does to the state of the
    loop, [dead], [killed] and [eaten_plants] aside, for a creature that
    [update] has left in state [c]; the last argument is the state the
    turn leaves that creature in.  Either nobody is born and only the
    creature itself changes, or it mates with the creature at another
    place [j]. *)
Inductive outcome (t : tape) (i : nat) (c : creature) (st st' : pass_state)
    : creature -> Prop :=
| went_alone (c' : creature) :
    same_tick c c' ->
    creatures (st_world st') = list_set (creatures (st_world st)) i c' ->
    counter (st_world st') = counter (st_world st) ->
    generation_record (st_world st') = generation_record (st_world st) ->
    new_children st' = new_children st ->
    outcome t i c st st' c'
| mated (j : nat) (mate child : creature) :
    j <> i ->
    nth_error (creatures (st_world st)) j = Some mate ->
    fed c -> fed mate ->
    creatures (st_world st') =
      list_set (list_set (creatures (st_world st)) i (after_mating c)) j
               (after_mating mate) ->
    born_of t c mate child ->
    cid child = S (counter (st_world st)) ->
    new_children st' = new_children st ++ [child] ->
    counter (st_world st') = S (counter (st_world st)) ->
    generation_record (st_world st') =
      Z.max (generation_record (st_world st)) (generation child) ->
    outcome t i c st st' (after_mating c).

(** A turn is skipped, for a place that holds nothing or a creature
    killed earlier in the tick, or it is [update], then one [outcome],
    then the test [is_dead]. *)
Definition turn_effect (t : tape) (i : nat) (st st' : pass_state) : Prop :=
  (st' = st /\
   (nth_error (creatures (st_world st)) i = None \/ In i (killed st))) \/
  exists c0 c',
    nth_error (creatures (st_world st)) i = Some c0 /\
    ~ In i (killed st) /\
    outcome t i (update c0) st st' c' /\
    dead st' = (if is_dead c' then dead st ++ [i] else dead st).

(** What holds of the state before the turn of place [k], on top of
    [pass_inv]. *)
Record pass_facts (t : tape) (w : world) (k : nat) (st : pass_state) : Prop := {
  pf_alive :
    forall j c, (j < k)%nat -> ~ In j (killed st) -> ~ In j (dead st) ->
      nth_error (creatures (st_world st)) j = Some c -> is_dead c = false;
  pf_aged :
    forall j c0 c,
      nth_error (creatures w) j = Some c0 ->
      nth_error (creatures (st_world st)) j = Some c ->
      obj c = obj c0 /\
      ((j < k)%nat -> ~ In j (killed st) -> age c = (age c0 + 1)%Z) /\
      ((k <= j)%nat -> age c = age c0);
  pf_counter :
    counter (st_world st) = (counter w + List.length (new_children st))%nat;
  pf_ids :
    map cid (new_children st)
    = seq (S (counter w)) (List.length (new_children st));
  pf_record :
    generation_record (st_world st)
    = fold_left Z.max (map generation (new_children st)) (generation_record w);
  pf_children :
    Forall (fun child =>
              exists a b, In a (creatures w) /\ In b (creatures w) /\
                          born_of t a b child)
           (new_children st);
  pf_eaten : (List.length (eaten_plants st) <= k)%nat
}.

(** Every place written on [dead] holds a creature that [is_dead]
    finds dead. *)
Definition starved (st : pass_state) : Prop :=
  forall j, In j (dead st) ->
    exists c, nth_error (creatures (st_world st)) j = Some c /\
              is_dead c = true.

(** The list [dead] once the loop [for victim in killed] has added the
    killed to it: the places [creatures.remove] is called on. *)
Definition gone (st : pass_state) : list nat :=
  add_killed_to_dead (killed st) (dead st).

(** The creatures of the loop that stay in the list: those at a place
    that is in neither [dead] nor [killed]. *)
Definition survivors (st : pass_state) : list creature :=
  map snd
    (filter (fun x => negb (mem (fst x)
                              (add_killed_to_dead (killed st) (dead st))))
            (indexed (creatures (st_world st)))).

(** The children of the tick, once [build_mesh] has given them a body. *)
Definition newborns (st : pass_state) : list creature :=
  map (fun child => set_obj child true) (new_children st).

(** The plants that stay: those at a place that is not in
    [eaten_plants]. *)
Definition uneaten (st : pass_state) : list Plant.plant :=
  map snd
    (filter (fun x => negb (mem (fst x) (eaten_plants st)))
            (indexed (plants (st_world st)))).

(** A tick from [w] to [w'], step by step: [w1] is the world when the
    loop over the creatures starts, [ps] the plants added before it,
    [st] the state the loop ends in, [sp] the creatures spawned after
    it. *)
Record tick_report (t : tape) (w w1 : world) (ps : list Plant.plant)
    (st : pass_state) (w' : world) (sp : list creature) : Prop := {
  tr_creatures : creatures w1 = creatures w;
  tr_counter : counter w1 = counter w;
  tr_record : generation_record w1 = generation_record w;
  tr_plants : plants w1 = map Plant.update (plants w) ++ ps;
  tr_seeds :
    List.length ps = Z.to_nat (MAX_PLANTS - Z.of_nat (List.length (plants w)));
  tr_seeded : Forall (seeded t) ps;
  tr_inv : pass_inv w1 (List.length (creatures w1)) st;
  tr_facts : pass_facts t w1 (List.length (creatures w1)) st;
  tr_after : creatures w' = survivors st ++ newborns st ++ sp;
  tr_uneaten : plants w' = uneaten st;
  tr_record_after : generation_record w' = generation_record (st_world st);
  tr_counter_after :
    counter w' = (counter (st_world st) + List.length sp)%nat;
  tr_ids : map cid sp = seq (S (counter (st_world st))) (List.length sp);
  tr_spawned : Forall (spawned t) sp;
  tr_missing :
    List.length sp
    = Z.to_nat (MAX_CREATURES
                - Z.of_nat (List.length (survivors st ++ newborns st)))
}.

(** ** Properties of a world that ticks keep *)

(** The ids in use are all different and none is above the counter. *)
Definition ids_fresh (w : world) : Prop :=
  NoDup (map cid (creatures w)) /\
  Forall (fun c => (cid c <= counter w)%nat) (creatures w).

(** Generations start at 1 and the record is above all of them. *)
Definition record_covers (w : world) : Prop :=
  (1 <= generation_record w)%Z /\
  Forall (fun c => (1 <= generation c <= generation_record w)%Z) (creatures w).

(** A plant that stands where [Plant()] can put one: inside the square
    the creatures are kept in, just above the floor. *)
Definition rooted (p : Plant.plant) : Prop :=
  let boundary := WORLD_SIZE / 2 - 2 in
  (- boundary <= pos_x (Plant.position p) /\ pos_x (Plant.position p) <= boundary) /\
  (- boundary <= pos_y (Plant.position p) /\ pos_y (Plant.position p) <= boundary) /\
  pos_z (Plant.position p) = 0.3.

(** Where a plant of the list after a tick comes from. *)
Definition plant_origin (t : tape) (w : world) (p : Plant.plant) : Prop :=
  (exists p0, In p0 (plants w) /\ p = Plant.update p0) \/ seeded t p.

(** A creature that has come through a tick. *)
Definition came_through (w : world) (c' : creature) : Prop :=
  exists c, In c (creatures w) /\ evolves c c' /\
            age c' = (age c + 1)%Z /\ obj c' = obj c.

(** A creature that the tick has added. *)
Definition newcomer (c : creature) : Prop :=
  age c = 0%Z /\ energy c = START_ENERGY /\ mating_cooldown c = 0%Z /\
  obj c = true.

(** A plant whose yield is where its age puts it:
    [25 + 3 * min(age // 30, 5)]. *)
Definition on_stair (p : Plant.plant) : Prop :=
  (0 <= Plant.age p)%Z /\
  Plant.energy p
  == PLANT_ENERGY + 3 * inject_Z (Z.min (Plant.age p / 30) 5).

Record settled (w : world) : Prop := {
  se_population :
    (MAX_CREATURES <= Z.of_nat (List.length (creatures w)) <= MAX_CREATURES + 1)%Z;
  se_plants :
    (MAX_PLANTS - (MAX_CREATURES + 1) <= Z.of_nat (List.length (plants w))
     <= MAX_PLANTS)%Z;
  se_ids : ids_fresh w;
  se_record : record_covers w;
  se_alive : Forall (fun c => is_dead c = false) (creatures w);
  se_cooldown : Forall cooldown_ok (creatures w);
  se_bodies : Forall (fun c => obj c = true) (creatures w);
  se_stair : Forall on_stair (plants w)
}.

End TickProps.

(** * The superformula radius *)

Module GielisFacts.

Import Gielis.
Local Open Scope R_scope.

(* linear arithmetic over the reals (the file-wide [lra] is the one of
   the rationals) *)
Local Ltac lra := Lra.lra.

Lemma DBL_MAX_ge_pow (z : Z) (n : nat) :
  (z ^ Z.of_nat n <= (2 ^ 53 - 1) * 2 ^ 971)%Z -> IZR z ^ n <= DBL_MAX.
Proof.
  intros H. unfold DBL_MAX. rewrite pow_IZR. now apply IZR_le.
Qed.

Lemma DBL_MAX_ge_1 : 1 <= DBL_MAX.
Proof.
  unfold DBL_MAX. apply IZR_le. vm_compute. discriminate.
Qed.

Lemma clamp_range (p : R) :
  1 / 10 <= float_max (1 / 10) (float_min 5 p) <= 5.
Proof.
  unfold float_max, float_min.
  repeat match goal with
         | |- context [Rlt_dec ?a ?b] => destruct (Rlt_dec a b)
         end; lra.
Qed.

(** A real power with base in (0, B] and exponent in [0, n] stays below
    [B ^ n]. *)
Lemma Rpower_le_pow (b B e : R) (n : nat) :
  0 < b <= B -> 1 <= B -> 0 <= e <= INR n -> Rpower b e <= B ^ n.
Proof.
  intros Hb HB He.
  apply Rle_trans with (Rpower B e).
  - apply Rle_Rpower_l; lra.
  - rewrite <- Rpower_pow by lra.
    apply Rle_Rpower; lra.
Qed.

Lemma Rpower_Rinv_base (x y : R) : 0 < x -> Rpower x (- y) = Rpower (/ x) y.
Proof.
  intros Hx. unfold Rpower. rewrite ln_Rinv by assumption.
  f_equal. ring.
Qed.

Lemma float_pow_unit (x y : R) :
  0 <= x <= 1 -> 0 <= y ->
  exists r, float_pow x y = Ok r /\ 0 <= r <= 1.
Proof.
  intros Hx Hy. unfold float_pow.
  destruct (Req_dec_T x 0) as [E | N].
  - destruct (Rlt_dec y 0); [lra |].
    destruct (Req_dec_T y 0); eexists; (split; [reflexivity | lra]).
  - assert (Hp : 0 < Rpower x y <= 1).
    { split; [apply exp_pos |].
      replace 1 with (1 ^ 0) by (simpl; lra).
      replace (1 ^ 0) with (Rpower 1 y).
      - apply Rle_Rpower_l; lra.
      - unfold Rpower. rewrite ln_1, Rmult_0_r, exp_0. simpl; lra. }
    pose proof DBL_MAX_ge_1.
    destruct (Rlt_dec DBL_MAX (Rpower x y)); [lra |].
    eexists; split; [reflexivity | lra].
Qed.

Lemma float_pow_denom (d e : R) :
  1 / 10000 <= d <= 2 -> -77 <= e <= 1000 ->
  exists p, float_pow d e = Ok p.
Proof.
  intros Hd He. unfold float_pow.
  destruct (Req_dec_T d 0); [lra |].
  assert (Hle : Rpower d e <= DBL_MAX).
  { destruct (Rle_dec 0 e) as [Hpos | Hneg].
    - apply Rle_trans with (2 ^ 1000).
      + apply Rpower_le_pow; try lra.
        rewrite INR_IZR_INZ. simpl. lra.
      + apply DBL_MAX_ge_pow. vm_compute. discriminate.
    - replace e with (- (- e)) by ring.
      rewrite Rpower_Rinv_base by lra.
      apply Rle_trans with (10000 ^ 77).
      + apply Rpower_le_pow; try lra.
        * split; [apply Rinv_0_lt_compat; lra |].
          replace 10000 with (/ (1 / 10000)) by field.
          apply Rinv_le_contravar; lra.
        * rewrite INR_IZR_INZ. simpl. lra.
      + apply DBL_MAX_ge_pow. vm_compute. discriminate. }
  destruct (Rlt_dec DBL_MAX (Rpower d e)); [lra |].
  eexists; reflexivity.
Qed.

Lemma gielis_r_range (angle m n1 n2 n3 r : R) :
  gielis_r angle m n1 n2 n3 = Ok r -> 1 / 10 <= r <= 5.
Proof.
  unfold gielis_r.
  destruct (Rlt_dec DBL_MAX _); [discriminate |].
  destruct (float_pow _ n2) as [term1 |]; [simpl | discriminate].
  destruct (float_pow _ n3) as [term2 |]; [simpl | discriminate].
  destruct (Rlt_dec (term1 + term2) _); [intros [= <-]; lra |].
  destruct (Rlt_dec DBL_MAX (term1 + term2)).
  - destruct (Rlt_dec 0 _); intros [= <-]; lra.
  - destruct (float_pow _ _) as [p |]; [simpl | discriminate].
    intros [= <-]. apply clamp_range.
Qed.

Lemma unit_abs_cos (x : R) : 0 <= Rabs (cos x) <= 1.
Proof.
  pose proof (COS_bound x). pose proof (Rabs_pos (cos x)).
  split; [lra | apply Rabs_le; lra].
Qed.

Lemma unit_abs_sin (x : R) : 0 <= Rabs (sin x) <= 1.
Proof.
  pose proof (SIN_bound x). pose proof (Rabs_pos (sin x)).
  split; [lra | apply Rabs_le; lra].
Qed.

(** The first guard: a roundness nearer to zero than 0.001 is replaced
    by 0.001 before anything is computed. *)
Lemma gielis_r_small_n1 (angle m n1 n2 n3 : R) :
  Rabs n1 < 1 / 1000 ->
  gielis_r angle m n1 n2 n3 = gielis_r angle m (1 / 1000) n2 n3.
Proof.
  intros Hs. unfold gielis_r.
  destruct (Rlt_dec (Rabs n1) (1 / 1000)) as [_ | N]; [| contradiction].
  destruct (Rlt_dec (Rabs (1 / 1000)) (1 / 1000)) as [H | _]; [| reflexivity].
  rewrite Rabs_right in H by lra. lra.
Qed.

(** The second guard: when the two terms sum to less than 0.0001 the
    radius is 1.0 and no power of the sum is taken. *)
Lemma gielis_r_small_sum (angle m n1 n2 n3 term1 term2 : R) :
  finite (m * angle) ->
  float_pow (Rabs (cos (m * angle / 4))) n2 = Ok term1 ->
  float_pow (Rabs (sin (m * angle / 4))) n3 = Ok term2 ->
  term1 + term2 < 1 / 10000 ->
  gielis_r angle m n1 n2 n3 = Ok 1.
Proof.
  intros Hfin E1 E2 Hsum. unfold gielis_r. unfold finite in Hfin.
  destruct (Rlt_dec DBL_MAX _); [lra |].
  rewrite E1. cbn [rbind]. rewrite E2. cbn [rbind].
  destruct (Rlt_dec (term1 + term2) (1 / 10000)); [reflexivity | contradiction].
Qed.

Lemma gielis_r_returns_when (angle m n1 n2 n3 : R) :
  finite (m * angle) -> 0 <= n2 -> 0 <= n3 ->
  n1 <= - 1 / 1000 \/ 1 / 77 <= n1 ->
  exists r, gielis_r angle m n1 n2 n3 = Ok r.
Proof.
  intros Hfin Hn2 Hn3 Hn1.
  unfold gielis_r. unfold finite in Hfin.
  destruct (Rlt_dec DBL_MAX _); [lra |].
  destruct (float_pow_unit (Rabs (cos (m * angle / 4))) n2)
    as (term1 & -> & Ht1); [apply unit_abs_cos | assumption |].
  destruct (float_pow_unit (Rabs (sin (m * angle / 4))) n3)
    as (term2 & -> & Ht2); [apply unit_abs_sin | assumption |].
  simpl.
  destruct (Rlt_dec (term1 + term2) _); [eexists; reflexivity |].
  destruct (Rlt_dec DBL_MAX (term1 + term2)); [eexists; reflexivity |].
  destruct (float_pow_denom (term1 + term2)
              (- 1 / (if Rlt_dec (Rabs n1) (1 / 1000) then 1 / 1000 else n1)))
    as (p & ->); [lra | | simpl; eexists; reflexivity].
  destruct (Rlt_dec (Rabs n1) (1 / 1000)) as [Hs | Hs].
  - apply Rabs_def2 in Hs. lra.
  - destruct Hn1 as [Hn | Hp].
    + assert (0 < - n1) by lra.
      assert (/ (- n1) <= / (1 / 1000)) by (apply Rinv_le_contravar; lra).
      assert (0 < / (- n1)) by (apply Rinv_0_lt_compat; lra).
      replace (- 1 / n1) with (/ (- n1)) by (field; lra).
      replace (/ (1 / 1000)) with 1000 in * by field. lra.
    + assert (/ n1 <= / (1 / 77)) by (apply Rinv_le_contravar; lra).
      assert (0 < / n1) by (apply Rinv_0_lt_compat; lra).
      replace (- 1 / n1) with (- / n1) by (field; lra).
      replace (/ (1 / 77)) with 77 in * by field. lra.
Qed.

(** C1, as amended.  Whatever [gielis_r] returns lies in [0.1, 5.0].  It
    does return when the product [m * angle] is a finite float, the two
    curvature exponents [n2], [n3] are not negative and the roundness
    [n1] is at most -0.001 or at least 1/77 (every genome has
    [n1 >= 0.08]).  The two guards: a roundness with [|n1| < 0.001] gives
    what the roundness 0.001 gives; and when the two terms exist and sum
    to less than 0.0001 the result is 1.0, whatever the roundness. *)
Theorem gielis_r_bounded_total (angle m n1 n2 n3 : R) :
  (forall r, gielis_r angle m n1 n2 n3 = Ok r -> 1 / 10 <= r <= 5) /\
  (finite (m * angle) -> 0 <= n2 -> 0 <= n3 ->
   n1 <= - 1 / 1000 \/ 1 / 77 <= n1 ->
   exists r, gielis_r angle m n1 n2 n3 = Ok r /\ 1 / 10 <= r <= 5) /\
  (Rabs n1 < 1 / 1000 ->
   gielis_r angle m n1 n2 n3 = gielis_r angle m (1 / 1000) n2 n3) /\
  (forall term1 term2,
     finite (m * angle) ->
     float_pow (Rabs (cos (m * angle / 4))) n2 = Ok term1 ->
     float_pow (Rabs (sin (m * angle / 4))) n3 = Ok term2 ->
     term1 + term2 < 1 / 10000 ->
     gielis_r angle m n1 n2 n3 = Ok 1).
Proof.
  split; [intros r; apply gielis_r_range |].
  split; [| split].
  - intros Hfin Hn2 Hn3 Hn1.
    destruct (gielis_r_returns_when angle m n1 n2 n3 Hfin Hn2 Hn3 Hn1) as (r & E).
    exists r. split; [exact E |].
    exact (gielis_r_range _ _ _ _ _ _ E).
  - apply gielis_r_small_n1.
  - intros term1 term2. apply gielis_r_small_sum.
Qed.

Lemma finite_small (x : R) : Rabs x <= 1 -> finite x.
Proof. intros H. unfold finite. pose proof DBL_MAX_ge_1. lra. Qed.

Lemma finite_PI : finite (1 * PI).
Proof.
  unfold finite. pose proof PI_RGT_0. pose proof PI_4.
  rewrite Rabs_right by lra.
  assert (4 <= DBL_MAX).
  { replace 4 with (IZR 4 ^ 1) by (simpl; lra). apply DBL_MAX_ge_pow.
    vm_compute. discriminate. }
  lra.
Qed.

Lemma inv_sqrt2_pow32 : (1 / sqrt 2) ^ 32 = 1 / 65536.
Proof.
  assert (Hs : sqrt 2 * sqrt 2 = 2) by (apply sqrt_sqrt; lra).
  assert (Hp : 0 < sqrt 2) by (apply sqrt_lt_R0; lra).
  assert (H2 : (1 / sqrt 2) ^ 2 = 1 / 2).
  { replace ((1 / sqrt 2) ^ 2) with (1 / (sqrt 2 * sqrt 2)) by (field; lra).
    rewrite Hs. reflexivity. }
  replace 32%nat with (2 * 16)%nat by reflexivity.
  rewrite pow_mult, H2. field.
Qed.

Lemma float_pow_inv_sqrt2_32 : float_pow (Rabs (1 / sqrt 2)) 32 = Ok (1 / 65536).
Proof.
  assert (Hp : 0 < sqrt 2) by (apply sqrt_lt_R0; lra).
  assert (Hq : 0 < 1 / sqrt 2) by (apply Rdiv_lt_0_compat; lra).
  rewrite Rabs_right by lra.
  unfold float_pow. destruct (Req_dec_T (1 / sqrt 2) 0); [lra |].
  replace 32 with (INR 32) by (rewrite INR_IZR_INZ; reflexivity).
  rewrite Rpower_pow by exact Hq. rewrite inv_sqrt2_pow32.
  pose proof DBL_MAX_ge_1.
  destruct (Rlt_dec DBL_MAX (1 / 65536)); [lra | reflexivity].
Qed.

(** The theorem at two calls: [gielis_r(0, 3, 1, 1, 1)] returns; and
    [gielis_r(pi, 1, 0.0005, 32, 32)], where the roundness is replaced
    and both terms are [2 ** -16], returns 1.0. *)
Lemma gielis_r_bounded_total_witness :
  (exists r, gielis_r 0 3 1 1 1 = Ok r /\ 1 / 10 <= r <= 5) /\
  gielis_r PI 1 (1 / 2000) 32 32 = gielis_r PI 1 (1 / 1000) 32 32 /\
  gielis_r PI 1 (1 / 2000) 32 32 = Ok 1.
Proof.
  split; [| split].
  - apply (proj1 (proj2 (gielis_r_bounded_total 0 3 1 1 1))).
    + apply finite_small. rewrite Rmult_0_r, Rabs_R0. lra.
    + lra.
    + lra.
    + right. lra.
  - apply (proj1 (proj2 (proj2 (gielis_r_bounded_total PI 1 (1 / 2000) 32 32)))).
    rewrite Rabs_right by lra. lra.
  - apply (proj2 (proj2 (proj2 (gielis_r_bounded_total PI 1 (1 / 2000) 32 32)))
             (1 / 65536) (1 / 65536)).
    + exact finite_PI.
    + replace (1 * PI / 4) with (PI / 4) by field.
      rewrite cos_PI4. exact float_pow_inv_sqrt2_32.
    + replace (1 * PI / 4) with (PI / 4) by field.
      rewrite sin_PI4. exact float_pow_inv_sqrt2_32.
    + lra.
Defined.

(** C1 as stated fails: all five arguments finite, and the call raises.
    [gielis_r(0, 3, 1, 1, -1)]: [t = 0], [term1 = 1.0 ** 1],
    [term2 = abs(sin(0.0)) ** -1 = 0.0 ** -1], a ZeroDivisionError. *)
Lemma gielis_r_raises_at_zero_angle :
  finite 0 /\ finite 3 /\ finite 1 /\ finite (-1) /\
  gielis_r 0 3 1 1 (-1) = Raise ZeroDivisionError /\
  ~ (exists r, gielis_r 0 3 1 1 (-1) = Ok r /\ 1 / 10 <= r <= 5).
Proof.
  assert (E : gielis_r 0 3 1 1 (-1) = Raise ZeroDivisionError).
  { unfold gielis_r.
    destruct (Rlt_dec DBL_MAX (Rabs (3 * 0))) as [H | _].
    { rewrite Rmult_0_r, Rabs_R0 in H. pose proof DBL_MAX_ge_1. lra. }
    replace (3 * 0 / 4) with 0 by field.
    rewrite cos_0, sin_0, Rabs_R1, Rabs_R0.
    unfold float_pow at 1.
    destruct (Req_dec_T 1 0); [lra |].
    rewrite Rpower_1 by lra.
    destruct (Rlt_dec DBL_MAX 1) as [H | _].
    { pose proof DBL_MAX_ge_1. lra. }
    simpl. unfold float_pow.
    destruct (Req_dec_T 0 0); [| lra].
    destruct (Rlt_dec (-1) 0); [reflexivity | lra]. }
  assert (F3 : finite 3).
  { unfold finite. rewrite Rabs_right by lra.
    replace 3 with (IZR 3 ^ 1) by (simpl; lra).
    apply DBL_MAX_ge_pow. vm_compute. discriminate. }
  repeat split.
  - apply finite_small. rewrite Rabs_R0. lra.
  - exact F3.
  - apply finite_small. rewrite Rabs_R1. lra.
  - apply finite_small. unfold Rabs. destruct (Rcase_abs (-1)); lra.
  - exact E.
  - intros (r & Hr & _). rewrite E in Hr. discriminate.
Qed.

Lemma DBL_MAX_lt_pow (z : Z) (n : nat) :
  ((2 ^ 53 - 1) * 2 ^ 971 < z ^ Z.of_nat n)%Z -> DBL_MAX < IZR z ^ n.
Proof.
  intros H. unfold DBL_MAX. rewrite pow_IZR. now apply IZR_lt.
Qed.

Lemma inv_sqrt2_pow6 : (1 / sqrt 2) ^ 6 = 1 / 8.
Proof.
  assert (Hs : sqrt 2 * sqrt 2 = 2) by (apply sqrt_sqrt; lra).
  assert (Hp : 0 < sqrt 2) by (apply sqrt_lt_R0; lra).
  assert (H2 : (1 / sqrt 2) * (1 / sqrt 2) = 1 / 2).
  { replace (1 / sqrt 2 * (1 / sqrt 2)) with (1 / (sqrt 2 * sqrt 2)) by (field; lra).
    rewrite Hs. reflexivity. }
  replace ((1 / sqrt 2) ^ 6)
    with ((1 / sqrt 2 * (1 / sqrt 2)) * (1 / sqrt 2 * (1 / sqrt 2))
          * (1 / sqrt 2 * (1 / sqrt 2))) by ring.
  rewrite H2. field.
Qed.

Lemma float_pow_inv_sqrt2 : float_pow (Rabs (1 / sqrt 2)) 6 = Ok (1 / 8).
Proof.
  assert (Hp : 0 < sqrt 2) by (apply sqrt_lt_R0; lra).
  assert (Hq : 0 < 1 / sqrt 2) by (apply Rdiv_lt_0_compat; lra).
  rewrite Rabs_right by lra.
  unfold float_pow. destruct (Req_dec_T (1 / sqrt 2) 0); [lra |].
  replace 6 with (INR 6) by (rewrite INR_IZR_INZ; reflexivity).
  rewrite Rpower_pow by exact Hq. rewrite inv_sqrt2_pow6.
  pose proof DBL_MAX_ge_1.
  destruct (Rlt_dec DBL_MAX (1 / 8)); [lra | reflexivity].
Qed.

(** Replacing a near-zero [n1] does not rule out a failure either.
    [gielis_r(pi, 1, 0, 6, 6)]: [n1] becomes 0.001, [t] is a quarter of
    pi, both terms are 1/8, and [0.25 ** -1000] is beyond the largest
    float: an OverflowError.  Hence the bound on the roundness wherever
    the function is shown to return. *)
Lemma gielis_r_overflows_at_quarter_turn :
  gielis_r PI 1 0 6 6 = Raise OverflowError.
Proof.
  unfold gielis_r.
  pose proof DBL_MAX_ge_1 as H1. pose proof PI_RGT_0 as Hpi. pose proof PI_4 as Hpi4.
  assert (H1000 : 4 ^ 1000 <= DBL_MAX -> False).
  { intros H. assert (DBL_MAX < 4 ^ 1000).
    { apply (DBL_MAX_lt_pow 4 1000). vm_compute. reflexivity. }
    lra. }
  destruct (Rlt_dec DBL_MAX (Rabs (1 * PI))) as [H | _].
  { rewrite Rabs_right in H by lra.
    assert (4 <= DBL_MAX).
    { replace 4 with (IZR 4 ^ 1) by (simpl; lra). apply DBL_MAX_ge_pow.
      vm_compute. discriminate. }
    lra. }
  replace (1 * PI / 4) with (PI / 4) by field.
  rewrite cos_PI4, sin_PI4, float_pow_inv_sqrt2. simpl.
  destruct (Rlt_dec (1 / 8 + 1 / 8) (1 / 10000)); [lra |].
  destruct (Rlt_dec DBL_MAX (1 / 8 + 1 / 8)); [lra |].
  destruct (Rlt_dec (Rabs 0) (1 / 1000)) as [_ | H]; [| rewrite Rabs_R0 in H; lra].
  replace (-1 / (1 / 1000)) with (- (1000)) by field.
  unfold float_pow. destruct (Req_dec_T (1 / 8 + 1 / 8) 0); [lra |].
  rewrite Rpower_Rinv_base by lra.
  replace (/ (1 / 8 + 1 / 8)) with 4 by field.
  replace 1000 with (INR 1000) by (rewrite INR_IZR_INZ; reflexivity).
  rewrite Rpower_pow by lra.
  destruct (Rlt_dec DBL_MAX (4 ^ 1000)) as [_ | H]; [reflexivity |].
  exfalso. apply H1000. lra.
Qed.

End GielisFacts.

(** * Facts about the draws *)

Module RandomFacts.

Import Random DrawProps.
Local Open Scope Q_scope.

Lemma holds_ret {A : Type} (t : tape) (a : A) (P : A -> Prop) :
  P a -> holds t (ret a) P.
Proof. intros H i. exact H. Qed.

Lemma holds_bind {A B : Type} (t : tape) (m : Rand A) (k : A -> Rand B)
    (P : A -> Prop) (Q : B -> Prop) :
  holds t m P ->
  (forall a, P a -> holds t (k a) Q) ->
  holds t (bind m k) Q.
Proof.
  intros Hm Hk i. unfold bind.
  specialize (Hm i). destruct (m t i) as [a j]. apply Hk. exact Hm.
Qed.

Lemma holds_weaken {A : Type} (t : tape) (m : Rand A) (P Q : A -> Prop) :
  holds t m P -> (forall a, P a -> Q a) -> holds t m Q.
Proof. intros H HPQ i. apply HPQ, H. Qed.

Lemma holds_random (t : tape) :
  unit_draws t -> holds t random (fun u => 0 <= u /\ u < 1).
Proof. intros Ht i. apply Ht. Qed.

Lemma uniform_bounds (a b u : Q) :
  a <= b -> 0 <= u -> u < 1 -> a <= a + (b - a) * u /\ a + (b - a) * u <= b.
Proof. intros Hab H0 H1. split; nra. Qed.

Lemma holds_uniform (t : tape) (a b : Q) :
  unit_draws t -> a <= b -> holds t (uniform a b) (fun x => a <= x /\ x <= b).
Proof.
  intros Ht Hab. unfold uniform.
  eapply holds_bind; [apply holds_random; exact Ht |].
  intros u [H0 H1]. apply holds_ret. now apply uniform_bounds.
Qed.

Lemma floor_scaled_range (u : Q) (n : Z) :
  (0 < n)%Z -> 0 <= u -> u < 1 ->
  (0 <= Qfloor (u * inject_Z n) < n)%Z.
Proof.
  intros Hn H0 H1.
  assert (Hq : 0 < inject_Z n).
  { change (inject_Z 0 < inject_Z n). rewrite <- Zlt_Qlt. exact Hn. }
  split.
  - change 0%Z with (Qfloor 0). apply Qfloor_resp_le.
    apply Qmult_le_0_compat; [exact H0 | apply Qlt_le_weak, Hq].
  - rewrite Zlt_Qlt.
    apply Qle_lt_trans with (u * inject_Z n); [apply Qfloor_le |].
    setoid_replace (inject_Z n) with (1 * inject_Z n) at 2 by ring.
    apply Qmult_lt_compat_r; assumption.
Qed.

Lemma holds_randint (t : tape) (a b : Z) :
  unit_draws t -> (a <= b)%Z ->
  holds t (randint a b) (fun z => (a <= z <= b)%Z).
Proof.
  intros Ht Hab. unfold randint.
  eapply holds_bind; [apply holds_random; exact Ht |].
  intros u [H0 H1]. apply holds_ret.
  pose proof (floor_scaled_range u (b - a + 1) ltac:(lia) H0 H1). lia.
Qed.

Lemma holds_choice {A : Type} (t : tape) (x : A) (xs : list A) :
  holds t (choice x xs) (fun y => In y (x :: xs)).
Proof.
  intros i. unfold choice, bind, random, ret. cbn [fst].
  set (k := Z.to_nat _).
  destruct (nth_in_or_default k (x :: xs) x) as [H | H]; [exact H |].
  rewrite H. now left.
Qed.

Lemma py_max_lower (a b : Q) : a <= py_max a b.
Proof. unfold py_max. destruct (Qlt_le_dec a b); lra. Qed.

Lemma py_clamp_range (lo hi x : Q) :
  lo <= hi -> lo <= py_max lo (py_min hi x) /\ py_max lo (py_min hi x) <= hi.
Proof.
  intros H. unfold py_max, py_min.
  destruct (Qlt_le_dec x hi); destruct (Qlt_le_dec lo _); split; lra.
Qed.

Lemma half_tape_unit : unit_draws half_tape.
Proof. intros i. unfold half_tape. split; lra. Qed.

End RandomFacts.

(** * Genomes *)

Module DnaFacts.

Import Random Config Dna DrawProps GenomeProps RandomFacts.
Local Open Scope Q_scope.

Section Draws.

Variable t : tape.
Hypothesis Ht : unit_draws t.

Lemma random_gielis_gene_sampled : holds t random_gielis_gene gene_sampled.
Proof.
  unfold random_gielis_gene.
  eapply holds_bind; [apply (holds_randint t 3 14 Ht); lia | intros a1 Ha1].
  eapply holds_bind; [apply (holds_randint t 2 12 Ht); lia | intros a2 Ha2].
  eapply holds_bind; [apply (holds_uniform t 0.08 0.9 Ht); lra | intros b1 Hb1].
  eapply holds_bind; [apply (holds_uniform t 0.5 3.5 Ht); lra | intros b2 Hb2].
  eapply holds_bind; [apply (holds_uniform t 0.5 3.5 Ht); lra | intros b3 Hb3].
  eapply holds_bind; [apply (holds_uniform t 0.1 0.95 Ht); lra | intros c1 Hc1].
  eapply holds_bind; [apply (holds_uniform t 0.4 3.2 Ht); lra | intros c2 Hc2].
  eapply holds_bind; [apply (holds_uniform t 0.4 3.2 Ht); lra | intros c3 Hc3].
  apply holds_ret. split; assumption.
Qed.

Lemma random_dna_sampled : holds t random_dna dna_sampled.
Proof.
  unfold random_dna.
  eapply holds_bind; [apply random_gielis_gene_sampled | intros g1 Hg1].
  eapply holds_bind; [apply random_gielis_gene_sampled | intros g2 Hg2].
  eapply holds_bind; [apply random_gielis_gene_sampled | intros g3 Hg3].
  eapply holds_bind;
    [apply (holds_randint t MIN_FRACTAL_LEVELS MAX_FRACTAL_LEVELS Ht);
     unfold MIN_FRACTAL_LEVELS, MAX_FRACTAL_LEVELS; lia | intros lv Hlv].
  eapply holds_bind;
    [apply (holds_randint t MIN_CHILDREN MAX_CHILDREN Ht);
     unfold MIN_CHILDREN, MAX_CHILDREN; lia | intros ch Hch].
  eapply holds_bind; [apply (holds_uniform t 0.45 0.70 Ht); lra | intros sc Hsc].
  eapply holds_bind; [apply (holds_uniform t 0.2 0.5 Ht); lra | intros sp Hsp].
  apply holds_ret. split; try assumption.
  intros [| |]; assumption.
Qed.

(** Crossover *)

Lemma combine_int_range (lo hi v1 v2 : Z) :
  (lo <= v1 <= hi)%Z -> (lo <= v2 <= hi)%Z ->
  holds t (combine_int v1 v2) (fun v => (lo <= v <= hi)%Z).
Proof.
  intros H1 H2. unfold combine_int.
  eapply holds_weaken; [apply holds_choice |].
  intros v [<- | [<- | []]]; assumption.
Qed.

(** Mutation *)

Lemma mutate_symmetry_step (v : Z) :
  holds t (mutate_symmetry v) (symmetry_step v).
Proof.
  intros i. unfold mutate_symmetry, bind, random. cbn [fst].
  destruct (Qlt_le_dec (t i) MUTATION_RATE).
  - right. unfold randint, bind, random, ret. cbn [fst]. lia.
  - left. reflexivity.
Qed.

Lemma mutate_curvature_step (v : Q) :
  holds t (mutate_curvature v) (curvature_step v).
Proof.
  intros i. unfold mutate_curvature, bind, random. cbn [fst].
  destruct (Qlt_le_dec (t i) MUTATION_RATE).
  - right. unfold uniform, bind, random, ret. cbn [fst].
    apply py_clamp_range. lra.
  - left. reflexivity.
Qed.

Lemma mutate_gene_step (g : gene) : holds t (mutate_gene g) (gene_step g).
Proof.
  unfold mutate_gene.
  eapply holds_bind; [apply mutate_symmetry_step | intros a1 Ha1].
  eapply holds_bind; [apply mutate_symmetry_step | intros a2 Ha2].
  eapply holds_bind; [apply mutate_curvature_step | intros b1 Hb1].
  eapply holds_bind; [apply mutate_curvature_step | intros b2 Hb2].
  eapply holds_bind; [apply mutate_curvature_step | intros b3 Hb3].
  eapply holds_bind; [apply mutate_curvature_step | intros c1 Hc1].
  eapply holds_bind; [apply mutate_curvature_step | intros c2 Hc2].
  eapply holds_bind; [apply mutate_curvature_step | intros c3 Hc3].
  apply holds_ret. split; unfold symmetries, curvatures; cbn;
    repeat (apply Forall2_cons; [assumption |]); apply Forall2_nil.
Qed.

End Draws.

(** ** Field by field *)

Lemma gene_sampled_kept (g : gene) : gene_sampled g -> gene_kept g.
Proof.
  intros [H1 H2 H3 H4 H5 H6 H7 H8]. split; first [lia | lra].
Qed.

Lemma dna_sampled_kept (d : DNA) : dna_sampled d -> dna_kept d.
Proof.
  intros [Hg Hl Hc Hs Hp]. split; try assumption; try lra.
  intros k. apply gene_sampled_kept, Hg.
Qed.

Lemma symmetry_step_within (lo hi old new : Z) :
  (lo <= 3)%Z -> (12 <= hi)%Z ->
  (lo <= old <= hi)%Z -> symmetry_step old new -> (lo <= new <= hi)%Z.
Proof. intros Hlo Hhi Ho [-> | H]; lia. Qed.

Lemma curvature_step_within (lo hi old new : Q) :
  lo <= 0.1 -> 3.0 <= hi ->
  lo <= old /\ old <= hi -> curvature_step old new -> lo <= new /\ new <= hi.
Proof.
  intros Hlo Hhi Ho [E | H].
  - rewrite E. exact Ho.
  - split; lra.
Qed.

Lemma gene_step_kept (old new : gene) :
  gene_kept old -> gene_step old new -> gene_kept new.
Proof.
  intros [H1 H2 H3 H4 H5 H6 H7 H8] [Ss Sc].
  unfold symmetries in Ss. unfold curvatures in Sc.
  inversion Ss as [| ? ? ? ? S1 Ss']; subst.
  inversion Ss' as [| ? ? ? ? S2 _]; subst.
  inversion Sc as [| ? ? ? ? C1 Sc1]; subst.
  inversion Sc1 as [| ? ? ? ? C2 Sc2]; subst.
  inversion Sc2 as [| ? ? ? ? C3 Sc3]; subst.
  inversion Sc3 as [| ? ? ? ? C4 Sc4]; subst.
  inversion Sc4 as [| ? ? ? ? C5 Sc5]; subst.
  inversion Sc5 as [| ? ? ? ? C6 _]; subst.
  split.
  - apply (symmetry_step_within 3 14 _ _ ltac:(lia) ltac:(lia) H1 S1).
  - apply (symmetry_step_within 2 12 _ _ ltac:(lia) ltac:(lia) H2 S2).
  - apply (curvature_step_within 0.08 3.0 _ _ ltac:(lra) ltac:(lra) H3 C1).
  - apply (curvature_step_within 0.1 3.5 _ _ ltac:(lra) ltac:(lra) H4 C2).
  - apply (curvature_step_within 0.1 3.5 _ _ ltac:(lra) ltac:(lra) H5 C3).
  - apply (curvature_step_within 0.1 3.0 _ _ ltac:(lra) ltac:(lra) H6 C4).
  - apply (curvature_step_within 0.1 3.2 _ _ ltac:(lra) ltac:(lra) H7 C5).
  - apply (curvature_step_within 0.1 3.2 _ _ ltac:(lra) ltac:(lra) H8 C6).
Qed.

Lemma count_step_within (lo hi old new : Z) :
  (lo <= old <= hi)%Z -> count_step lo hi old new -> (lo <= new <= hi)%Z.
Proof. intros Ho [-> | H]; lia. Qed.

Lemma float_step_positive (old new : Q) :
  0 < old -> float_step old new -> 0 < new.
Proof.
  intros Ho [E | H].
  - rewrite E. exact Ho.
  - lra.
Qed.

Lemma dna_step_kept (old new : DNA) :
  dna_kept old -> dna_step old new -> dna_kept new.
Proof.
  intros [Hg Hl Hc Hs Hp] [Sg Sl Sc Ss Sp]. split.
  - intros k. exact (gene_step_kept _ _ (Hg k) (Sg k)).
  - exact (count_step_within _ _ _ _ Hl Sl).
  - exact (count_step_within _ _ _ _ Hc Sc).
  - exact (float_step_positive _ _ Hs Ss).
  - exact (float_step_positive _ _ Hp Sp).
Qed.

Section Fields.

Variable t : tape.
Hypothesis Ht : unit_draws t.

Lemma combine_gene_kept (g1 g2 : gene) :
  gene_kept g1 -> gene_kept g2 -> holds t (combine_gene g1 g2) gene_kept.
Proof.
  intros H1 H2 i. unfold combine_gene, bind, random, ret. cbn [fst].
  destruct (Qlt_le_dec (t i) 0.5); assumption.
Qed.

Lemma combine_float_positive (v1 v2 : Q) :
  0 < v1 -> 0 < v2 -> holds t (combine_float v1 v2) (fun v => 0 < v).
Proof.
  intros H1 H2. unfold combine_float.
  eapply holds_bind; [apply (holds_uniform t 0.3 0.7 Ht); lra |].
  intros mix [Hlo Hhi]. apply holds_ret. nra.
Qed.

Lemma combine_dna_kept (d1 d2 : DNA) :
  dna_kept d1 -> dna_kept d2 -> holds t (combine_dna d1 d2) dna_kept.
Proof.
  intros [Hg1 Hl1 Hc1 Hs1 Hp1] [Hg2 Hl2 Hc2 Hs2 Hp2]. unfold combine_dna.
  eapply holds_bind;
    [apply combine_gene_kept; [apply (Hg1 key_1) | apply (Hg2 key_1)] | intros g1 G1].
  eapply holds_bind;
    [apply combine_gene_kept; [apply (Hg1 key_2) | apply (Hg2 key_2)] | intros g2 G2].
  eapply holds_bind;
    [apply combine_gene_kept; [apply (Hg1 key_3) | apply (Hg2 key_3)] | intros g3 G3].
  eapply holds_bind; [apply (combine_int_range t _ _ _ _ Hl1 Hl2) | intros lv Hlv].
  eapply holds_bind; [apply (combine_int_range t _ _ _ _ Hc1 Hc2) | intros ch Hch].
  eapply holds_bind; [apply (combine_float_positive _ _ Hs1 Hs2) | intros sc Hsc].
  eapply holds_bind; [apply (combine_float_positive _ _ Hp1 Hp2) | intros sp Hsp].
  apply holds_ret. split; try assumption.
  intros [| |]; assumption.
Qed.

Lemma mutate_step_step (lo hi v : Z) :
  (lo <= hi)%Z -> holds t (mutate_step lo hi v) (count_step lo hi v).
Proof.
  intros Hlh i. unfold mutate_step, bind, random. cbn [fst].
  destruct (Qlt_le_dec (t i) MUTATION_RATE).
  - right. unfold choice, bind, random, ret. cbn [fst]. lia.
  - left. reflexivity.
Qed.

Lemma mutate_float_step (v : Q) : holds t (mutate_float v) (float_step v).
Proof.
  intros i. unfold mutate_float, bind, random. cbn [fst].
  destruct (Qlt_le_dec (t i) MUTATION_RATE).
  - right. unfold uniform, bind, random, ret. cbn [fst]. apply py_max_lower.
  - left. reflexivity.
Qed.

Lemma mutate_dna_fields (d : DNA) : holds t (mutate_dna d) (dna_step d).
Proof.
  unfold mutate_dna.
  eapply holds_bind; [apply mutate_gene_step | intros g1 G1].
  eapply holds_bind; [apply mutate_gene_step | intros g2 G2].
  eapply holds_bind; [apply mutate_gene_step | intros g3 G3].
  eapply holds_bind;
    [apply (mutate_step_step MIN_FRACTAL_LEVELS MAX_FRACTAL_LEVELS);
     unfold MIN_FRACTAL_LEVELS, MAX_FRACTAL_LEVELS; lia | intros lv Hlv].
  eapply holds_bind;
    [apply (mutate_step_step MIN_CHILDREN MAX_CHILDREN);
     unfold MIN_CHILDREN, MAX_CHILDREN; lia | intros ch Hch].
  eapply holds_bind; [apply mutate_float_step | intros sc Hsc].
  eapply holds_bind; [apply mutate_float_step | intros sp Hsp].
  apply holds_ret. split; try assumption.
  intros [| |]; assumption.
Qed.

Lemma mutate_dna_kept (d : DNA) : dna_kept d -> holds t (mutate_dna d) dna_kept.
Proof.
  intros Hd i. exact (dna_step_kept _ _ Hd (mutate_dna_fields d i)).
Qed.

Lemma random_dna_kept : holds t random_dna dna_kept.
Proof.
  intros i. apply dna_sampled_kept. apply (random_dna_sampled t Ht).
Qed.

End Fields.

(** C4, as amended.  On a tape of unit draws: a random genome has every
    field in the range it is sampled from.  Crossover and mutation keep
    every field in a range of its own: [m1] in 3..14, [m2] in 2..12,
    [n1] in 0.08..3.0, [n2] and [n3] in 0.1..3.5, [n1b] in 0.1..3.0,
    [n2b] and [n3b] in 0.1..3.2, depth and branching inside their
    configured bounds, and the scale factor and the speed positive.
    Mutation leaves each field as it was or puts it inside its clamp:
    3..12 for a symmetry, 0.1..3.0 for a curvature, the configured
    bounds for depth and branching, at least 0.1 for scale factor and
    speed. *)
Theorem genome_fields_in_range (t : tape) (i : nat) (d1 d2 : DNA) :
  unit_draws t ->
  dna_sampled (fst (random_dna t i)) /\
  dna_kept (fst (random_dna t i)) /\
  (dna_kept d1 -> dna_kept d2 -> dna_kept (fst (combine_dna d1 d2 t i))) /\
  (dna_kept d1 -> dna_kept (fst (mutate_dna d1 t i))) /\
  dna_step d1 (fst (mutate_dna d1 t i)).
Proof.
  intros Ht. split; [| split; [| split; [| split]]].
  - apply (random_dna_sampled t Ht i).
  - apply (random_dna_kept t Ht i).
  - intros H1 H2. apply (combine_dna_kept t Ht d1 d2 H1 H2 i).
  - intros H1. apply (mutate_dna_kept t d1 H1 i).
  - apply (mutate_dna_fields t d1 i).
Qed.

Lemma starfish_dna_ok : dna_ok starfish_dna.
Proof.
  split.
  - intros k. destruct k; split; cbn;
      repeat (apply Forall_cons;
              [unfold symmetry_ok, curvature_ok; cbn; first [lia | lra] |]);
      apply Forall_nil.
  - unfold MIN_FRACTAL_LEVELS, MAX_FRACTAL_LEVELS. cbn. lia.
  - unfold MIN_CHILDREN, MAX_CHILDREN. cbn. lia.
  - cbn. lra.
  - cbn. lra.
Defined.

Lemma starfish_dna_kept : dna_kept starfish_dna.
Proof.
  split.
  - intros k. destruct k; split; cbn; first [lia | lra].
  - unfold MIN_FRACTAL_LEVELS, MAX_FRACTAL_LEVELS. cbn. lia.
  - unfold MIN_CHILDREN, MAX_CHILDREN. cbn. lia.
  - cbn. lra.
  - cbn. lra.
Defined.

Lemma square_star_dna_kept : dna_kept square_star_dna.
Proof.
  split.
  - intros k. destruct k; split; cbn; first [lia | lra].
  - unfold MIN_FRACTAL_LEVELS, MAX_FRACTAL_LEVELS. cbn. lia.
  - unfold MIN_CHILDREN, MAX_CHILDREN. cbn. lia.
  - cbn. lra.
  - cbn. lra.
Defined.

(** The theorem on the child of the starfish and the square star. *)
Lemma genome_fields_in_range_witness :
  dna_sampled (fst (random_dna half_tape 0%nat)) /\
  dna_kept (fst (combine_dna starfish_dna square_star_dna half_tape 0%nat)) /\
  dna_kept (fst (mutate_dna starfish_dna half_tape 0%nat)) /\
  dna_step starfish_dna (fst (mutate_dna starfish_dna half_tape 0%nat)).
Proof.
  assert (Ht : unit_draws half_tape).
  { intros i. unfold half_tape. split; [discriminate | reflexivity]. }
  destruct (genome_fields_in_range half_tape 0%nat starfish_dna square_star_dna Ht)
    as (H1 & _ & H2 & H3 & H4).
  split; [exact H1 |].
  split; [exact (H2 starfish_dna_kept square_star_dna_kept) |].
  split; [exact (H3 starfish_dna_kept) | exact H4].
Defined.

(** C4 as stated fails.  With every draw at 0.99 the first gene of a
    random genome has [m1 = 3 + floor(0.99 * 12) = 14]; in [mutate_dna]
    no draw is below [MUTATION_RATE], so every field passes through, and
    the symmetry 14 is outside 3..12 after mutation. *)
Lemma unmutated_symmetry_out_of_range :
  unit_draws high_tape /\
  m1 (lajfi_1 (fst (random_dna high_tape 0%nat))) = 14%Z /\
  m1 (lajfi_1 (fst (mutate_dna (fst (random_dna high_tape 0%nat)) high_tape 0%nat)))
    = 14%Z /\
  ~ (3 <= m1 (lajfi_1 (fst (mutate_dna (fst (random_dna high_tape 0%nat))
                              high_tape 0%nat))) <= 12)%Z.
Proof.
  assert (E : m1 (lajfi_1 (fst (mutate_dna (fst (random_dna high_tape 0%nat))
                                  high_tape 0%nat))) = 14%Z)
    by (vm_compute; reflexivity).
  split; [| split; [| split]].
  - intros i. unfold high_tape. split; [discriminate | reflexivity].
  - vm_compute. reflexivity.
  - exact E.
  - rewrite E. lia.
Qed.

(** C5.  For every gene key the child of [combine_dna] carries the whole
    gene of one parent: the first parent's when the draw for that key is
    below 0.5, which is half of the unit interval, the second parent's
    otherwise.  No field of the gene comes from the other parent. *)
Theorem combine_dna_whole_gene (t : tape) (i : nat) (dna1 dna2 : DNA)
    (k : gene_key) :
  gene_of k (fst (combine_dna dna1 dna2 t i)) =
    (if Qlt_le_dec (t (key_place k + i)%nat) 0.5
     then gene_of k dna1 else gene_of k dna2) /\
  (gene_of k (fst (combine_dna dna1 dna2 t i)) = gene_of k dna1 \/
   gene_of k (fst (combine_dna dna1 dna2 t i)) = gene_of k dna2).
Proof.
  assert (E : gene_of k (fst (combine_dna dna1 dna2 t i)) =
              (if Qlt_le_dec (t (key_place k + i)%nat) 0.5
               then gene_of k dna1 else gene_of k dna2)).
  { destruct k; reflexivity. }
  split; [exact E |].
  rewrite E. destruct (Qlt_le_dec _ _); [left | right]; reflexivity.
Qed.

End DnaFacts.

(** * Creatures *)

Module CreatureFacts.

Import Random Config Dna Creature DrawProps GenomeProps CreatureProps
  RandomFacts DnaFacts.
Local Open Scope Q_scope.

(** [mate_with], step by step. *)
Lemma mate_with_result (counter : nat) (a b : creature) (t : tape) (i : nat) :
  exists (nm : string),
    fst (mate_with counter a b t i) =
      (after_mating a, after_mating b,
       mk_creature (S counter) nm (fst (child_genome a b t i))
         ((pos_x (position a) + pos_x (position b)) / 2
            + (-1 + (1 - -1) * t (snd (child_genome a b t i))),
          (pos_y (position a) + pos_y (position b)) / 2
            + (-1 + (1 - -1) * t (S (snd (child_genome a b t i)))),
          1.0)
         START_ENERGY 0 false
         (Z.max (generation a) (generation b) + 1)
         [name a; name b] 0 0 0).
Proof.
  unfold mate_with, child_genome, bind. cbn [dna set_energy set_mating_cooldown].
  destruct (combine_dna (dna a) (dna b) t i) as [crossed j1]. cbn [fst snd].
  destruct (mutate_dna crossed t j1) as [mutated j2]. cbn [fst snd].
  unfold uniform, bind, random, ret. cbn [position set_energy set_mating_cooldown].
  destruct (position a) as [[x1 y1] z1]. destruct (position b) as [[x2 y2] z2].
  unfold init, bind, ret.
  destruct (_generate_name t (S (S j2))) as [nm j3].
  exists nm. reflexivity.
Qed.

(** C6.  [mate_with] takes exactly [MATING_COST] from each parent;
    [eat] adds exactly the energy the plant holds when it is eaten and
    counts one more meal. *)
Theorem mating_and_eating_energy (counter : nat) (a b : creature)
    (plant : Plant.plant) (t : tape) (i : nat) :
  energy (fst (fst (fst (mate_with counter a b t i)))) = energy a - MATING_COST /\
  energy (snd (fst (fst (mate_with counter a b t i)))) = energy b - MATING_COST /\
  energy (eat a plant) = energy a + Plant.energy plant /\
  meals_eaten (eat a plant) = (meals_eaten a + 1)%Z.
Proof.
  destruct (mate_with_result counter a b t i) as (nm & E). rewrite E.
  repeat split.
Qed.

Lemma get_strength_formula (c : creature) :
  get_strength c ==
    0.5 * energy c + 5 * inject_Z (fractal_levels (dna c))
      + 2 * inject_Z (fractal_children (dna c)).
Proof.
  unfold get_strength. rewrite !inject_Z_mult. ring.
Qed.

(** C7.  An attack costs the attacker [ATTACK_COST] whatever the
    outcome.  The strength of either side is
    [0.5 * energy + 5 * fractal_levels + 2 * fractal_children], the
    attacker's being read after the cost is paid.  The attacker's is
    multiplied by a draw from [0.8, 1.2], the defender's by one from
    [0.6, 1.4], and the attack succeeds exactly when the attacker's
    product is strictly the larger. *)
Theorem attack_rule (self prey : creature) (t : tape) (i : nat) :
  unit_draws t ->
  let self' := fst (fst (attack self prey t i)) in
  let won := snd (fst (attack self prey t i)) in
  let ma := attacker_multiplier (t i) in
  let md := defender_multiplier (t (S i)) in
  energy self' = energy self - ATTACK_COST /\
  get_strength self' ==
    0.5 * energy self' + 5 * inject_Z (fractal_levels (dna self'))
      + 2 * inject_Z (fractal_children (dna self')) /\
  get_strength prey ==
    0.5 * energy prey + 5 * inject_Z (fractal_levels (dna prey))
      + 2 * inject_Z (fractal_children (dna prey)) /\
  (0.8 <= ma /\ ma <= 1.2) /\
  (0.6 <= md /\ md <= 1.4) /\
  (won = true <-> get_strength prey * md < get_strength self' * ma).
Proof.
  intros Ht. cbv zeta.
  unfold attack, uniform, bind, random, ret. cbn [fst snd].
  split; [reflexivity |].
  split; [apply get_strength_formula |].
  split; [apply get_strength_formula |].
  destruct (Ht i) as [H0 H1]. destruct (Ht (S i)) as [H2 H3].
  unfold attacker_multiplier, defender_multiplier.
  split; [split; lra |]. split; [split; lra |].
  destruct (Qlt_le_dec _ _) as [Hlt | Hle].
  - split; [intros _; exact Hlt | reflexivity].
  - split; [discriminate |].
    intros Hlt. exfalso. exact (Qlt_not_le _ _ Hlt Hle).
Qed.

Lemma attack_rule_witness :
  energy (fst (fst (attack boka glif half_tape 0%nat))) = energy boka - ATTACK_COST /\
  (snd (fst (attack boka glif half_tape 0%nat)) = true <->
   get_strength glif * defender_multiplier (half_tape 1%nat)
   < get_strength (fst (fst (attack boka glif half_tape 0%nat)))
     * attacker_multiplier (half_tape 0%nat)).
Proof.
  assert (Ht : unit_draws half_tape).
  { intros i. unfold half_tape. split; [discriminate | reflexivity]. }
  destruct (attack_rule boka glif half_tape 0%nat Ht)
    as (H1 & _ & _ & _ & _ & H6).
  split; [exact H1 | exact H6].
Defined.

(** C8, as amended.  The child of [mate_with] has the genome that
    mutation makes of the crossover of the parents' genomes; its [x] and
    [y] are the midpoints of the parents' plus a jitter drawn from
    [-1, 1], and its height is 1.0; its generation is one more than the
    larger of the parents'; both parents are left with a cooldown of 50
    and one more child. *)
Theorem mate_with_child (counter : nat) (a b : creature) (t : tape) (i : nat) :
  unit_draws t ->
  let a' := fst (fst (fst (mate_with counter a b t i))) in
  let b' := snd (fst (fst (mate_with counter a b t i))) in
  let child := snd (fst (mate_with counter a b t i)) in
  dna child =
    fst (mutate_dna (fst (combine_dna (dna a) (dna b) t i)) t
           (snd (combine_dna (dna a) (dna b) t i))) /\
  (exists jx jy : Q,
     (-1 <= jx /\ jx <= 1) /\ (-1 <= jy /\ jy <= 1) /\
     position child =
       ((pos_x (position a) + pos_x (position b)) / 2 + jx,
        (pos_y (position a) + pos_y (position b)) / 2 + jy,
        1.0)) /\
  generation child = (Z.max (generation a) (generation b) + 1)%Z /\
  (mating_cooldown a' = 50%Z /\ mating_cooldown b' = 50%Z) /\
  (children_count a' = (children_count a + 1)%Z /\
   children_count b' = (children_count b + 1)%Z).
Proof.
  intros Ht. cbv zeta.
  destruct (mate_with_result counter a b t i) as (nm & E). rewrite E.
  cbn [fst snd dna position generation].
  split; [reflexivity |].
  split.
  { eexists _, _. split; [| split; [| reflexivity]].
    - destruct (Ht (snd (child_genome a b t i))). split; lra.
    - destruct (Ht (S (snd (child_genome a b t i)))). split; lra. }
  repeat split.
Qed.

Lemma mate_with_child_witness :
  generation (snd (fst (mate_with 2 boka glif half_tape 0%nat))) = 2%Z /\
  mating_cooldown (fst (fst (fst (mate_with 2 boka glif half_tape 0%nat)))) = 50%Z /\
  mating_cooldown (snd (fst (fst (mate_with 2 boka glif half_tape 0%nat)))) = 50%Z.
Proof.
  assert (Ht : unit_draws half_tape).
  { intros i. unfold half_tape. split; [discriminate | reflexivity]. }
  destruct (mate_with_child 2 boka glif half_tape 0%nat Ht)
    as (_ & _ & Hg & (Ha & Hb) & _).
  split; [exact Hg | split; [exact Ha | exact Hb]].
Defined.

(** C8 as stated fails in the third coordinate.  Both parents at height
    3: the midpoint is at height 3, the child is born at height 1.0, two
    units below, which no jitter of at most one unit accounts for. *)
Lemma child_height_is_not_the_midpoint :
  pos_z (position boka) == 3 /\ pos_z (position glif) == 3 /\
  pos_z (position (snd (fst (mate_with 2 boka glif half_tape 0%nat)))) == 1 /\
  ~ (exists jz : Q,
       (-1 <= jz /\ jz <= 1) /\
       pos_z (position (snd (fst (mate_with 2 boka glif half_tape 0%nat))))
       == (pos_z (position boka) + pos_z (position glif)) / 2 + jz).
Proof.
  destruct (mate_with_result 2 boka glif half_tape 0%nat) as (nm & E).
  rewrite E. cbn [fst snd position pos_z boka glif].
  split; [reflexivity |]. split; [reflexivity |]. split; [reflexivity |].
  intros (jz & [Hlo Hhi] & Hz).
  assert (H : jz == -2).
  { setoid_replace ((3 + 3) / 2) with 3 in Hz by reflexivity.
    setoid_replace 1.0 with 1 in Hz by reflexivity. lra. }
  lra.
Qed.

(** ** The mating cooldown, method by method *)

Lemma init_cooldown (counter : nat) (d : option DNA) (p : option vec)
    (ps : list string) (t : tape) (i : nat) :
  mating_cooldown (fst (init counter d p ps t i)) = 0%Z.
Proof.
  unfold init, bind, ret.
  destruct (_generate_name t i) as [nm j].
  destruct d as [d |]; destruct p as [p |]; cbn.
  - reflexivity.
  - reflexivity.
  - destruct (random_dna t j). reflexivity.
  - destruct (random_dna t j). reflexivity.
Qed.

Lemma update_cooldown (c : creature) :
  (0 <= mating_cooldown c)%Z -> (0 <= mating_cooldown (update c))%Z.
Proof.
  intros H. unfold update. cbn.
  destruct (0 <? mating_cooldown c)%Z eqn:E; cbn; [| exact H].
  apply Z.ltb_lt in E. lia.
Qed.

Lemma clamp_cooldown (c : creature) :
  mating_cooldown (_clamp_to_world c) = mating_cooldown c.
Proof.
  unfold _clamp_to_world. destruct (negb (obj c)); [reflexivity |].
  destruct (position c) as [[x y] z]. reflexivity.
Qed.

Lemma move_towards_cooldown (fsqrt : Q -> Q) (c : creature) (target : vec) :
  mating_cooldown (move_towards fsqrt c target) = mating_cooldown c.
Proof.
  unfold move_towards. destruct (negb (obj c)); [reflexivity |].
  destruct target as [[tx ty] tz]. destruct (position c) as [[x y] z].
  rewrite clamp_cooldown. destruct (Qlt_le_dec _ _); reflexivity.
Qed.

Lemma move_random_cooldown (fsqrt : Q -> Q) (c : creature) (t : tape) (i : nat) :
  mating_cooldown (fst (move_random fsqrt c t i)) = mating_cooldown c.
Proof.
  unfold move_random. destruct (negb (obj c)); [reflexivity |].
  unfold uniform, bind, random, ret.
  destruct (position c) as [[x y] z]. cbn [fst].
  rewrite clamp_cooldown. destruct (Qlt_le_dec _ _); reflexivity.
Qed.

Lemma eat_cooldown (c : creature) (p : Plant.plant) :
  mating_cooldown (eat c p) = mating_cooldown c.
Proof. reflexivity. Qed.

Lemma attack_cooldown (c prey : creature) (t : tape) (i : nat) :
  mating_cooldown (fst (fst (attack c prey t i))) = mating_cooldown c.
Proof. reflexivity. Qed.

Lemma devour_cooldown (c victim : creature) :
  mating_cooldown (fst (devour c victim)) = mating_cooldown c.
Proof. reflexivity. Qed.

Lemma build_mesh_cooldown (md : DNA -> nat) (c : creature) (t : tape) (i : nat) :
  mating_cooldown (fst (build_mesh md c t i)) = mating_cooldown c.
Proof. reflexivity. Qed.


End CreatureFacts.

(** * Lists of objects *)

Module ObjectLists.

Import World.

Lemma mem_In (i : nat) (l : list nat) : mem i l = true <-> In i l.
Proof.
  unfold mem. rewrite existsb_exists. split.
  - intros (x & Hx & E). apply Nat.eqb_eq in E. now subst.
  - intros H. exists i. split; [exact H | apply Nat.eqb_refl].
Qed.

Lemma mem_not_In (i : nat) (l : list nat) : mem i l = false <-> ~ In i l.
Proof.
  rewrite <- mem_In. destruct (mem i l); split; congruence.
Qed.

Lemma list_set_length {A : Type} (l : list A) (i : nat) (x : A) :
  List.length (list_set l i x) = List.length l.
Proof.
  revert i. induction l as [| y l IH]; intros [| i]; cbn; auto.
Qed.

Lemma nth_error_list_set_same {A : Type} (l : list A) (i : nat) (x y : A) :
  nth_error l i = Some y -> nth_error (list_set l i x) i = Some x.
Proof.
  revert i. induction l as [| z l IH]; intros [| i]; cbn; try discriminate; auto.
Qed.

Lemma nth_error_list_set_other {A : Type} (l : list A) (i j : nat) (x : A) :
  i <> j -> nth_error (list_set l i x) j = nth_error l j.
Proof.
  revert i j. induction l as [| z l IH]; intros [| i] [| j] H; cbn; auto.
  - congruence.
Qed.

(** Replacing the object at one place by a later state of it. *)
Lemma Forall2_list_set {A : Type} (R : A -> A -> Prop) (l l' : list A)
    (i : nat) (x x' : A) :
  Forall2 R l l' -> nth_error l' i = Some x ->
  (forall a, R a x -> R a x') ->
  Forall2 R l (list_set l' i x').
Proof.
  intros H. revert i. induction H as [| a b l l' Hab H IH]; intros [| i] E Hx;
    cbn in *; try discriminate.
  - injection E as ->. constructor; auto.
  - constructor; auto.
Qed.

Lemma Forall2_refl {A : Type} (R : A -> A -> Prop) (l : list A) :
  (forall a, R a a) -> Forall2 R l l.
Proof. intros H. induction l; constructor; auto. Qed.

Lemma Forall2_trans {A : Type} (R : A -> A -> Prop) (l1 l2 l3 : list A) :
  (forall a b c, R a b -> R b c -> R a c) ->
  Forall2 R l1 l2 -> Forall2 R l2 l3 -> Forall2 R l1 l3.
Proof.
  intros Ht H12. revert l3. induction H12; intros l3 H23; inversion H23; subst;
    constructor; eauto.
Qed.

Lemma Forall2_Forall {A : Type} (R : A -> A -> Prop) (P : A -> Prop)
    (l l' : list A) :
  (forall a b, R a b -> P a -> P b) ->
  Forall2 R l l' -> Forall P l -> Forall P l'.
Proof.
  intros HR H. induction H; intros HP; [constructor |].
  inversion HP; subst. constructor; eauto.
Qed.

(** Places *)

Lemma in_combine_seq {A : Type} (l : list A) (s j : nat) (x : A) :
  In (j, x) (combine (seq s (List.length l)) l) ->
  (s <= j)%nat /\ nth_error l (j - s) = Some x.
Proof.
  revert s. induction l as [| y l IH]; intros s H; cbn in H; [contradiction |].
  destruct H as [E | H].
  - injection E as <- <-. rewrite Nat.sub_diag. split; [lia | reflexivity].
  - apply IH in H. destruct H as [Hs Hn]. split; [lia |].
    replace (j - s)%nat with (S (j - S s)) by lia. exact Hn.
Qed.

Lemma in_indexed {A : Type} (l : list A) (j : nat) (x : A) :
  In (j, x) (indexed l) -> nth_error l j = Some x.
Proof.
  intros H. apply in_combine_seq in H. destruct H as [_ H].
  now rewrite Nat.sub_0_r in H.
Qed.

Lemma nth_error_lt {A : Type} (l : list A) (j : nat) (x : A) :
  nth_error l j = Some x -> (j < List.length l)%nat.
Proof. intros H. apply nth_error_Some. congruence. Qed.

Lemma map_fst_indexed {A : Type} (l : list A) :
  map fst (indexed l) = seq 0 (List.length l).
Proof.
  unfold indexed. generalize 0%nat.
  induction l as [| y l IH]; intros s; cbn; [reflexivity |]. now rewrite IH.
Qed.

Lemma map_snd_indexed {A : Type} (l : list A) : map snd (indexed l) = l.
Proof.
  unfold indexed. generalize 0%nat.
  induction l as [| y l IH]; intros s; cbn; [reflexivity |]. now rewrite IH.
Qed.

Lemma indexed_length {A : Type} (l : list A) :
  List.length (indexed l) = List.length l.
Proof. rewrite <- (length_map fst), map_fst_indexed. apply length_seq. Qed.

(** [list.remove] *)

Lemma remove_obj_some {A : Type} (j : nat) (l : list (nat * A)) :
  In j (map fst l) -> exists l', remove_obj j l = Some l'.
Proof.
  induction l as [| [k x] l IH]; cbn; [contradiction |].
  intros H. destruct (Nat.eqb_spec k j) as [E | N]; [eauto |].
  destruct H as [H | H]; [contradiction |].
  destruct (IH H) as (l' & ->). eauto.
Qed.

Lemma remove_obj_spec {A : Type} (j : nat) (l l' : list (nat * A)) :
  remove_obj j l = Some l' ->
  List.length l = S (List.length l') /\
  incl l' l /\
  (NoDup (map fst l) ->
   NoDup (map fst l') /\
   forall k, In k (map fst l') <-> In k (map fst l) /\ k <> j).
Proof.
  revert l'. induction l as [| [k x] l IH]; intros l' H; cbn in H; [discriminate |].
  destruct (Nat.eqb_spec k j) as [E | N].
  - injection H as <-. subst k. split; [reflexivity |].
    split; [apply incl_tl, incl_refl |].
    cbn. intros Hnd. inversion Hnd; subst. split; [assumption |].
    intros k. split.
    + intros Hk. split; [now right |]. intros ->. contradiction.
    + intros [[Hk | Hk] Hne]; [congruence | exact Hk].
  - destruct (remove_obj j l) as [r |] eqn:Er; [| discriminate].
    injection H as <-. destruct (IH r eq_refl) as (Hlen & Hincl & Hk).
    split; [cbn; lia |].
    split.
    { intros y [<- | Hy]; [now left | right; now apply Hincl]. }
    cbn. intros Hnd. inversion Hnd; subst.
    destruct (Hk ltac:(assumption)) as (Hnd' & Hin).
    split.
    + constructor; [| exact Hnd']. intros Hc. apply Hin in Hc. tauto.
    + intros m. split.
      * intros [<- | Hm]; [split; [now left | exact N] |].
        apply Hin in Hm. destruct Hm. split; [now right | assumption].
      * intros [[<- | Hm] Hne]; [now left |]. right. apply Hin. tauto.
Qed.

Lemma remove_dead_ok (dead : list nat) (cs : list (nat * Creature.creature)) :
  NoDup dead -> NoDup (map fst cs) ->
  (forall j, In j dead -> In j (map fst cs)) ->
  exists cs', remove_dead dead cs = Ok cs' /\
              (List.length cs' + List.length dead = List.length cs)%nat /\
              incl cs' cs.
Proof.
  revert cs. induction dead as [| j dead IH]; intros cs Hd Hc Hin; cbn.
  - exists cs. split; [reflexivity |]. split; [lia | apply incl_refl].
  - inversion Hd; subst.
    destruct (remove_obj_some j cs (Hin j (or_introl eq_refl))) as (r & Er).
    rewrite Er. destruct (remove_obj_spec j cs r Er) as (Hlen & Hincl & Hk).
    destruct (Hk Hc) as (Hnd & Hmem).
    destruct (IH r) as (cs' & E & Hl & Hi); try assumption.
    + intros k Hkd. apply Hmem. split; [apply Hin; now right |].
      intros ->. contradiction.
    + exists cs'. split; [exact E |]. split; [lia |].
      intros y Hy. apply Hincl, Hi, Hy.
Qed.

(** [add_killed_to_dead] *)

Lemma add_killed_to_dead_spec (killed dead : list nat) :
  NoDup dead ->
  NoDup (add_killed_to_dead killed dead) /\
  (forall j, In j (add_killed_to_dead killed dead) <-> In j dead \/ In j killed).
Proof.
  unfold add_killed_to_dead. revert dead.
  induction killed as [| v killed IH]; intros dead Hd; cbn.
  - split; [exact Hd |]. intros j. tauto.
  - destruct (mem v dead) eqn:E.
    + apply mem_In in E. destruct (IH dead Hd) as (Hnd & Hin).
      split; [exact Hnd |]. intros j. rewrite Hin.
      split; [tauto |]. intros [H | [<- | H]]; auto.
    + apply mem_not_In in E.
      assert (Hd' : NoDup (dead ++ [v])).
      { apply NoDup_app; [exact Hd | repeat constructor; intros [] |].
        intros x Hx [<- | []]. contradiction. }
      destruct (IH _ Hd') as (Hnd & Hin).
      split; [exact Hnd |]. intros j. rewrite Hin, in_app_iff. cbn. tauto.
Qed.

End ObjectLists.

(** * One turn of the loop over the creatures *)

Module TurnFacts.

Import Random Config Dna Creature World DrawProps CreatureProps LoopProps
  RandomFacts CreatureFacts ObjectLists.
Local Open Scope Q_scope.

Lemma evolves_refl (c : creature) : evolves c c.
Proof. split; auto. Qed.

Lemma evolves_trans (a b c : creature) : evolves a b -> evolves b c -> evolves a c.
Proof.
  intros [A1 A2 A3 A4 A5] [B1 B2 B3 B4 B5]. split; try congruence. auto.
Qed.

Lemma evolves_update (c : creature) : evolves c (update c).
Proof.
  split; try (unfold update; cbn; destruct (0 <? _)%Z; reflexivity).
  apply update_cooldown.
Qed.

Lemma evolves_clamp (c : creature) : evolves c (_clamp_to_world c).
Proof.
  unfold _clamp_to_world. destruct (negb (obj c)); [apply evolves_refl |].
  destruct (position c) as [[x y] z]. split; cbn; auto.
Qed.

Lemma evolves_move_towards (fsqrt : Q -> Q) (c : creature) (target : vec) :
  evolves c (move_towards fsqrt c target).
Proof.
  unfold move_towards. destruct (negb (obj c)); [apply evolves_refl |].
  destruct target as [[tx ty] tz]. destruct (position c) as [[x y] z].
  eapply evolves_trans; [| apply evolves_clamp].
  destruct (Qlt_le_dec _ _); [split; cbn; auto | apply evolves_refl].
Qed.

Lemma evolves_move_random (fsqrt : Q -> Q) (c : creature) (t : tape) (i : nat) :
  evolves c (fst (move_random fsqrt c t i)).
Proof.
  unfold move_random. destruct (negb (obj c)); [apply evolves_refl |].
  unfold uniform, bind, random, ret.
  destruct (position c) as [[x y] z]. cbn [fst].
  eapply evolves_trans; [| apply evolves_clamp].
  destruct (Qlt_le_dec _ _); [split; cbn; auto | apply evolves_refl].
Qed.

Lemma evolves_eat (c : creature) (p : Plant.plant) : evolves c (eat c p).
Proof. split; cbn; auto. Qed.

Lemma evolves_attack (c prey : creature) (t : tape) (i : nat) :
  evolves c (fst (fst (attack c prey t i))).
Proof. split; cbn; auto. Qed.

Lemma evolves_devour (c victim : creature) : evolves c (fst (devour c victim)).
Proof. split; cbn; auto. Qed.

Lemma evolves_after_mating (c : creature) : evolves c (after_mating c).
Proof. split; cbn; auto. intros _. unfold cooldown_ok. cbn. lia. Qed.

(** ** Nearest target *)

Section Nearest.

Context {A : Type}.
Variable position_of : A -> vec.

Lemma nearest_loop_in (c_pos : vec) (targets : list A) (n0 : option A)
    (m0 : xfloat) (x : A) :
  fst (nearest_loop position_of c_pos targets n0 m0) = Some x ->
  n0 = Some x \/ In x targets.
Proof.
  revert n0 m0. induction targets as [| y targets IH]; intros n0 m0 H;
    cbn [nearest_loop] in H.
  - now left.
  - destruct (xltb _ m0); apply IH in H.
    + destruct H as [E | H]; [injection E as ->; right; now left | right; now right].
    + destruct H as [E | H]; [now left | right; now right].
Qed.

Lemma find_nearest_in (fsqrt : Q -> Q) (c : creature) (targets : list A) (x : A) :
  fst (find_nearest fsqrt position_of c targets) = Some x -> In x targets.
Proof.
  unfold find_nearest. destruct targets as [| y targets]; [discriminate |].
  destruct (nearest_loop _ _ _ _ _) as [n m] eqn:E. cbn [fst]. intros ->.
  pose proof (nearest_loop_in (position c) (y :: targets) None Inf x) as H.
  rewrite E in H. destruct (H eq_refl) as [? | ?]; [discriminate | assumption].
Qed.

End Nearest.

Lemma other_creatures_in (st : pass_state) (i j : nat) (x : creature) :
  In (j, x) (other_creatures_of st i) ->
  j <> i /\ ~ In j (killed st) /\
  nth_error (creatures (st_world st)) j = Some x.
Proof.
  unfold other_creatures_of. rewrite filter_In. cbn [fst].
  intros [Hin Hb]. apply andb_prop in Hb. destruct Hb as [H1 H2].
  apply negb_true_iff in H1, H2.
  apply Nat.eqb_neq in H1. apply mem_not_In in H2.
  split; [exact H1 |]. split; [exact H2 |]. now apply in_indexed.
Qed.

(** ** What one turn may do to the state of the loop *)

Lemma put_creature_spec (st : pass_state) (i : nat) (c c' : creature) :
  nth_error (creatures (st_world st)) i = Some c -> evolves c c' ->
  step_spec st (put_creature st i c') /\
  dead (put_creature st i c') = dead st /\
  nth_error (creatures (st_world (put_creature st i c'))) i = Some c'.
Proof.
  intros Hn He. split; [split |]; cbn.
  - eapply Forall2_list_set; [apply Forall2_refl, evolves_refl | exact Hn |].
    intros a Ha. exact (evolves_trans _ _ _ Ha He).
  - reflexivity.
  - now left.
  - left. split; reflexivity.
  - split; [reflexivity |]. eapply nth_error_list_set_same, Hn.
Qed.

Section Branches.

Variable fsqrt : Q -> Q.

Lemma satiated_turn_spec (st : pass_state) (i : nat) (c : creature)
    (others : list (nat * creature)) (t : tape) (cur : nat) :
  nth_error (creatures (st_world st)) i = Some c ->
  (forall j x, In (j, x) others ->
     j <> i /\ nth_error (creatures (st_world st)) j = Some x) ->
  step_spec st (fst (satiated_turn fsqrt st i c others t cur)) /\
  dead (fst (satiated_turn fsqrt st i c others t cur)) = dead st.
Proof.
  intros Hn Ho. unfold satiated_turn.
  assert (Hwander :
    step_spec st (fst (bind (move_random fsqrt c)
                         (fun c' => ret (put_creature st i c')) t cur)) /\
    dead (fst (bind (move_random fsqrt c)
                 (fun c' => ret (put_creature st i c')) t cur)) = dead st).
  { unfold bind, ret.
    pose proof (evolves_move_random fsqrt c t cur) as He.
    destruct (move_random fsqrt c t cur) as [c' cur']. cbn [fst] in *.
    destruct (put_creature_spec st i c c' Hn He) as (H1 & H2 & _). auto. }
  destruct (can_mate c && _)%bool eqn:Ecap; [| exact Hwander].
  destruct (filter _ others) as [| m ms] eqn:Ef; [exact Hwander |].
  destruct (find_nearest fsqrt creature_position c (m :: ms))
    as [[[j mate] |] dist] eqn:En.
  2: { cbn. split; [| reflexivity]. split.
       - apply Forall2_refl, evolves_refl.
       - reflexivity.
       - now left.
       - left. split; reflexivity. }
  assert (Hin : In (j, mate) others).
  { assert (H : In (j, mate) (m :: ms)).
    { apply (find_nearest_in creature_position fsqrt c). now rewrite En. }
    rewrite <- Ef in H. apply filter_In in H. tauto. }
  destruct (Ho j mate Hin) as [Hji Hnj].
  destruct (xltb dist (Fin MATING_RANGE)).
  - unfold bind, ret.
    destruct (mate_with_result (counter (st_world st)) c mate t cur) as (nm & E).
    destruct (mate_with (counter (st_world st)) c mate t cur)
      as [[[c' mate'] child] cur'].
    cbn [fst] in E. injection E as -> -> ->. cbn [fst].
    split; [| reflexivity]. split; cbn.
    + eapply Forall2_list_set.
      * eapply Forall2_list_set;
          [apply Forall2_refl, evolves_refl | exact Hn |].
        intros a Ha. exact (evolves_trans _ _ _ Ha (evolves_after_mating c)).
      * rewrite nth_error_list_set_other by congruence. exact Hnj.
      * intros a Ha. simpl in Ha.
        exact (evolves_trans _ _ _ Ha (evolves_after_mating mate)).
    + reflexivity.
    + now left.
    + right. left. split; [reflexivity |]. split.
      * apply andb_prop in Ecap. destruct Ecap as [_ Ecap].
        apply Z.leb_le in Ecap. exact Ecap.
      * eexists. split; reflexivity.
  - cbn [ret fst].
    destruct (put_creature_spec st i c (move_towards fsqrt c (position mate)) Hn
                (evolves_move_towards fsqrt c _)) as (H1 & H2 & _).
    auto.
Qed.

Lemma hungry_turn_spec (st : pass_state) (i : nat) (c : creature)
    (act : hungry_action) (t : tape) (cur : nat) :
  nth_error (creatures (st_world st)) i = Some c ->
  action_valid st act ->
  step_spec st (fst (hungry_turn fsqrt st i c act t cur)) /\
  dead (fst (hungry_turn fsqrt st i c act t cur)) = dead st.
Proof.
  intros Hn Hv. unfold hungry_turn.
  destruct act as [[k plant] | [j prey] | [k plant] | [j other] |].
  - destruct (put_creature_spec st i c (eat c plant) Hn (evolves_eat c plant))
      as ([S1 S2 S3 S4] & H2 & _).
    cbn [ret fst]. split; [| exact H2]. split; cbn.
    + exact S1.
    + exact S2.
    + right. exists k. split; [reflexivity | exact Hv].
    + left. split; reflexivity.
  - unfold bind, ret.
    pose proof (evolves_attack c prey t cur) as Ha.
    destruct (attack c prey t cur) as [[c' won] cur']. cbn [fst] in Ha.
    destruct won.
    + assert (He : evolves c (fst (devour c' prey))).
      { eapply evolves_trans; [exact Ha | apply evolves_devour]. }
      destruct (put_creature_spec st i c _ Hn He) as ([S1 S2 S3 S4] & H2 & _).
      cbn [fst]. split; [| exact H2]. split; cbn.
      * exact S1.
      * exact S2.
      * now left.
      * right. right. split; [reflexivity |].
        exists j. split; [reflexivity | exact Hv].
    + destruct (put_creature_spec st i c c' Hn Ha) as (H1 & H2 & _).
      cbn [fst]. auto.
  - destruct (put_creature_spec st i c _ Hn
                (evolves_move_towards fsqrt c (Plant.position plant)))
      as (H1 & H2 & _).
    cbn [ret fst]. auto.
  - destruct (put_creature_spec st i c _ Hn
                (evolves_move_towards fsqrt c (position other)))
      as (H1 & H2 & _).
    cbn [ret fst]. auto.
  - unfold bind, ret.
    pose proof (evolves_move_random fsqrt c t cur) as He.
    destruct (move_random fsqrt c t cur) as [c' cur']. cbn [fst] in *.
    destruct (put_creature_spec st i c c' Hn He) as (H1 & H2 & _). auto.
Qed.

Lemma hungry_choice_valid (st : pass_state)
    (np : option (nat * Plant.plant)) (pd : xfloat)
    (no : option (nat * creature)) (od : xfloat) :
  (forall p, np = Some p -> In p (indexed (plants (st_world st)))) ->
  (forall o, no = Some o ->
     (fst o < List.length (creatures (st_world st)))%nat /\
     ~ In (fst o) (killed st)) ->
  action_valid st (hungry_choice np pd no od).
Proof.
  intros Hp Ho. unfold hungry_choice.
  destruct np as [[k p] |]; destruct no as [[j o] |]; cbn [is_some];
    repeat match goal with
           | |- context [if ?b then _ else _] => destruct b
           end; cbn; try exact I.
  all: try (specialize (Hp _ eq_refl); apply in_indexed, nth_error_lt in Hp;
            exact Hp).
  all: exact (Ho _ eq_refl).
Qed.

(** ** The turn *)

Lemma Forall2_evolves_length (l l' : list creature) :
  Forall2 evolves l l' -> List.length l' = List.length l.
Proof. intros H. symmetry. eapply Forall2_length, H. Qed.

Lemma step_spec_after_put (st st1 st2 : pass_state) :
  step_spec st st1 ->
  killed st1 = killed st -> new_children st1 = new_children st ->
  eaten_plants st1 = eaten_plants st ->
  step_spec st1 st2 -> step_spec st st2.
Proof.
  intros [A1 A2 A3 A4] Hk Hc He [B1 B2 B3 B4].
  pose proof (Forall2_evolves_length _ _ A1) as Hlen.
  split.
  - exact (Forall2_trans _ _ _ _ evolves_trans A1 B1).
  - congruence.
  - rewrite He, A2 in B3. exact B3.
  - unfold pending_step, cap_open in *. rewrite Hk, Hc, Hlen in B4. exact B4.
Qed.

Lemma turn_spec_holds (st : pass_state) (i : nat) (t : tape) (cur : nat) :
  turn_spec i st (fst (turn fsqrt st i t cur)).
Proof.
  assert (Hsame : turn_spec i st st).
  { split; [| now left]. split.
    - apply Forall2_refl, evolves_refl.
    - reflexivity.
    - now left.
    - left. split; reflexivity. }
  unfold turn.
  destruct (nth_error (creatures (st_world st)) i) as [c0 |] eqn:Hn;
    [| exact Hsame].
  destruct (mem i (killed st)); [exact Hsame |].
  destruct (put_creature_spec st i c0 (update c0) Hn (evolves_update c0))
    as (P1 & P2 & P3).
  set (st1 := put_creature st i (update c0)) in *.
  destruct (find_nearest fsqrt plant_position (update c0)
              (indexed (plants (st_world st1)))) as [np pd] eqn:Enp.
  destruct (find_nearest fsqrt creature_position (update c0)
              (other_creatures_of st1 i)) as [no od] eqn:Eno.
  assert (Hbranch :
    forall m : Rand pass_state,
      (step_spec st1 (fst (m t cur)) /\ dead (fst (m t cur)) = dead st1) ->
      turn_spec i st
        (fst (bind m (fun st2 =>
                match nth_error (creatures (st_world st2)) i with
                | Some c =>
                    if is_dead c
                    then ret (mk_pass (st_world st2) (dead st2 ++ [i])
                                (eaten_plants st2) (new_children st2)
                                (killed st2))
                    else ret st2
                | None => ret st2
                end) t cur))).
  { intros m [Hs Hd]. unfold bind.
    destruct (m t cur) as [st2 cur2]. cbn [fst] in *.
    assert (Hs' : step_spec st st2).
    { eapply step_spec_after_put; [exact P1 | reflexivity .. | exact Hs]. }
    destruct (nth_error (creatures (st_world st2)) i) as [c2 |];
      [destruct (is_dead c2) |]; cbn [ret fst].
    - split.
      + destruct Hs' as [S1 S2 S3 S4]. split; assumption.
      + right. cbn. rewrite Hd, P2. split; [reflexivity |].
        eapply nth_error_lt, Hn.
    - split; [exact Hs' |]. left. congruence.
    - split; [exact Hs' |]. left. congruence. }
  apply Hbranch.
  destruct (Qle_bool SATISFIED_ENERGY (energy (update c0))).
  - apply satiated_turn_spec; [exact P3 |].
    intros j x Hin. apply other_creatures_in in Hin. tauto.
  - apply hungry_turn_spec; [exact P3 |].
    apply hungry_choice_valid.
    + intros p ->.
      apply (find_nearest_in plant_position fsqrt (update c0)).
      now rewrite Enp.
    + intros o ->.
      assert (Hin : In o (other_creatures_of st1 i)).
      { apply (find_nearest_in creature_position fsqrt (update c0)).
        now rewrite Eno. }
      destruct o as [j x]. apply other_creatures_in in Hin.
      destruct Hin as (_ & Hk & Hj). cbn [fst].
      split; [eapply nth_error_lt, Hj | exact Hk].
Qed.

End Branches.

End TurnFacts.

(** * The loop over the creatures, and the tick *)

Module TickFacts.

Import Random Config Dna Creature World DrawProps CreatureProps LoopProps
  RandomFacts CreatureFacts ObjectLists TurnFacts.
Local Open Scope Q_scope.

Section Pass.

Variable fsqrt : Q -> Q.

Lemma pass_loop_app (l1 l2 : list nat) (st : pass_state) (t : tape) (cur : nat) :
  pass_loop fsqrt (l1 ++ l2) st t cur =
  pass_loop fsqrt l2 (fst (pass_loop fsqrt l1 st t cur)) t
    (snd (pass_loop fsqrt l1 st t cur)).
Proof.
  revert st cur. induction l1 as [| i l1 IH]; intros st cur; cbn.
  - reflexivity.
  - unfold bind. destruct (turn fsqrt st i t cur) as [st' cur']. apply IH.
Qed.

Lemma decision_pass_is_last_state (w : world) :
  decision_pass fsqrt w = state_before_turn fsqrt w (List.length (creatures w)).
Proof. reflexivity. Qed.

Lemma state_before_turn_S (w : world) (k : nat) (t : tape) (cur : nat) :
  state_before_turn fsqrt w (S k) t cur =
  turn fsqrt (fst (state_before_turn fsqrt w k t cur)) k t
    (snd (state_before_turn fsqrt w k t cur)).
Proof.
  unfold state_before_turn. rewrite seq_S, pass_loop_app. cbn.
  unfold bind, ret. destruct (turn fsqrt _ _ _ _). reflexivity.
Qed.

Lemma pass_inv_init (w : world) : pass_inv w 0 (mk_pass w [] [] [] []).
Proof.
  split; cbn; try (intros ? []); try constructor.
  - apply Forall2_refl, evolves_refl.
  - reflexivity.
Qed.

Lemma NoDup_snoc (l : list nat) (x : nat) :
  NoDup l -> ~ In x l -> NoDup (l ++ [x]).
Proof.
  intros Hl Hx. apply NoDup_app; [exact Hl | repeat constructor; intros [] |].
  intros y Hy [<- | []]. contradiction.
Qed.

Lemma pass_inv_turn (w : world) (k : nat) (st : pass_state) (t : tape)
    (cur : nat) :
  pass_inv w k st -> pass_inv w (S k) (fst (turn fsqrt st k t cur)).
Proof.
  intros [I1 I2 I3 I4 I5 I6 I7 I8 I9].
  destruct (turn_spec_holds fsqrt st k t cur) as [[S1 S2 S3 S4] S5].
  set (st' := fst (turn fsqrt st k t cur)) in *.
  pose proof (Forall2_evolves_length _ _ I1) as Hlen.
  split.
  - exact (Forall2_trans _ _ _ _ evolves_trans I1 S1).
  - congruence.
  - destruct S5 as [-> | [-> Hk]]; [exact I3 |].
    apply NoDup_snoc; [exact I3 |]. intros Hin. apply I4 in Hin. lia.
  - intros j Hj. destruct S5 as [E | [E Hk]]; rewrite E in Hj.
    + apply I4 in Hj. lia.
    + apply in_app_iff in Hj. destruct Hj as [Hj | [<- | []]].
      * apply I4 in Hj. lia.
      * lia.
  - destruct S4 as [[-> _] | [[-> _] | [_ (j & -> & Hj & Hn)]]];
      try exact I5.
    apply NoDup_snoc; assumption.
  - intros j Hj.
    destruct S4 as [[E _] | [[E _] | [_ (v & E & Hv & Hn)]]]; rewrite E in Hj;
      try (now apply I6).
    apply in_app_iff in Hj. destruct Hj as [Hj | [<- | []]]; [now apply I6 | lia].
  - intros p Hp. destruct S3 as [E | (q & E & Hq)]; rewrite E in Hp.
    + now apply I7.
    + apply in_app_iff in Hp. destruct Hp as [Hp | [<- | []]];
        [now apply I7 | congruence].
  - unfold cap_open in S4.
    destruct S4 as [[-> ->] | [[-> (Hcap & child & -> & _)] | [-> (v & -> & _)]]].
    + exact I8.
    + right. unfold cap_open in Hcap. rewrite length_app. cbn [List.length]. lia.
    + destruct I8 as [E | H]; [now left | right].
      rewrite length_app. cbn [List.length]. lia.
  - destruct S4 as [[_ ->] | [[_ (_ & child & -> & Hc)] | [-> _]]];
      try exact I9.
    apply Forall_app. split; [exact I9 | repeat constructor; exact Hc].
Qed.

Lemma pass_inv_before (w : world) (k : nat) (t : tape) (cur : nat) :
  pass_inv w k (fst (state_before_turn fsqrt w k t cur)).
Proof.
  induction k as [| k IH].
  - apply pass_inv_init.
  - rewrite state_before_turn_S. apply pass_inv_turn, IH.
Qed.

End Pass.

(** ** Before and after the loop *)


Section Settle.

Variable mesh_draws : DNA -> nat.

Lemma add_newborns_spec (children cs : list creature) (t : tape) (cur : nat) :
  exists built,
    fst (add_newborns mesh_draws children cs t cur) = cs ++ built /\
    List.length built = List.length children /\
    (Forall (fun c => mating_cooldown c = 0%Z) children ->
     Forall cooldown_ok built).
Proof.
  revert cs cur. induction children as [| child rest IH]; intros cs cur; cbn.
  - exists []. rewrite app_nil_r. repeat split. constructor.
  - unfold bind, build_mesh.
    destruct (IH (cs ++ [set_obj child true]) (cur + mesh_draws (dna child))%nat)
      as (built & E & Hl & Hc).
    exists (set_obj child true :: built). rewrite E, <- app_assoc.
    split; [reflexivity |]. split; [cbn; lia |].
    intros H. inversion H; subst. constructor; [| auto].
    unfold cooldown_ok. cbn. lia.
Qed.

Lemma spawn_creature_spec (w : world) (t : tape) (cur : nat) :
  exists c,
    creatures (fst (spawn_creature mesh_draws w t cur)) = creatures w ++ [c] /\
    mating_cooldown c = 0%Z.
Proof.
  unfold spawn_creature, bind, ret.
  destruct (random_dna t cur) as [d c1].
  pose proof (init_cooldown (counter w) (Some d) None [] t c1) as Hi.
  destruct (init (counter w) (Some d) None [] t c1) as [c c2].
  cbn [fst] in Hi. unfold build_mesh. cbn [fst creatures].
  exists (set_obj c true). split; [reflexivity | exact Hi].
Qed.

Lemma spawn_creatures_spec (n : nat) (w : world) (t : tape) (cur : nat) :
  List.length (creatures (fst (spawn_creatures mesh_draws n w t cur)))
    = (List.length (creatures w) + n)%nat /\
  (Forall cooldown_ok (creatures w) ->
   Forall cooldown_ok (creatures (fst (spawn_creatures mesh_draws n w t cur)))).
Proof.
  revert w cur. induction n as [| n IH]; intros w cur; cbn.
  - split; [lia | auto].
  - unfold bind.
    destruct (spawn_creature_spec w t cur) as (c & E & Hc).
    destruct (spawn_creature mesh_draws w t cur) as [w' cur']. cbn [fst] in E.
    destruct (IH w' cur') as [Hl Hf]. split.
    + rewrite Hl, E, length_app. cbn. lia.
    + intros H. apply Hf. rewrite E. apply Forall_app. split; [exact H |].
      repeat constructor. unfold cooldown_ok. lia.
Qed.

(** From a state the loop can end in, the rest of [tick] goes through,
    and this is what it leaves. *)
Lemma tick_settle_spec (w : world) (k : nat) (st : pass_state) (t : tape)
    (cur : nat) :
  pass_inv w k st ->
  exists w' : world,
    fst (tick_settle mesh_draws st t cur) = Ok w' /\
    (MAX_CREATURES <= Z.of_nat (List.length (creatures w')))%Z /\
    (Z.of_nat (List.length (creatures w'))
     <= Z.max (Z.of_nat (List.length (creatures w))) (MAX_CREATURES + 1))%Z /\
    (Z.of_nat (List.length (creatures w'))
     <= Z.max MAX_CREATURES
          (Z.of_nat (List.length (creatures w))
           + Z.of_nat (List.length (new_children st))))%Z /\
    (Forall cooldown_ok (creatures w) -> Forall cooldown_ok (creatures w')).
Proof.
  intros [I1 I2 I3 I4 I5 I6 I7 I8 I9].
  pose proof (Forall2_evolves_length _ _ I1) as Hlen.
  unfold tick_settle, bind.
  destruct (add_newborns_spec (new_children st) (creatures (st_world st)) t cur)
    as (built & Ecs & Hbl & Hbc).
  destruct (add_newborns mesh_draws (new_children st)
              (creatures (st_world st)) t cur) as [cs cur1].
  cbn [fst] in Ecs. subst cs.
  destruct (add_killed_to_dead_spec (killed st) (dead st) I3) as (Dnd & Din).
  set (dead' := add_killed_to_dead (killed st) (dead st)) in *.
  destruct (remove_dead_ok dead' (indexed (creatures (st_world st) ++ built)))
    as (cs' & Er & Hl & Hincl).
  { exact Dnd. }
  { rewrite map_fst_indexed. apply seq_NoDup. }
  { intros j Hj. rewrite map_fst_indexed. apply in_seq.
    rewrite length_app, Hlen. apply Din in Hj.
    destruct Hj as [Hj | Hj]; [apply I4 in Hj | apply I6 in Hj]; lia. }
  rewrite Er.
  rewrite indexed_length, length_app, Hlen, Hbl in Hl.
  assert (Hkd : (List.length (killed st) <= List.length dead')%nat).
  { apply NoDup_incl_length; [exact I5 |].
    intros j Hj. apply Din. now right. }
  set (w2 := mk_world (map snd cs') _ _ _).
  destruct (spawn_creatures_spec
              (Z.to_nat (MAX_CREATURES - Z.of_nat (List.length (creatures w2))))
              w2 t cur1) as [Sl Sf].
  destruct (spawn_creatures mesh_draws _ w2 t cur1) as [w3 cur2].
  cbn [fst] in Sl, Sf. unfold random, ret. cbn [fst].
  exists w3. split; [reflexivity |].
  assert (Hw2 : List.length (creatures w2) = List.length cs').
  { unfold w2. cbn. apply length_map. }
  rewrite Sl, Hw2.
  split; [lia |]. split; [| split].
  - destruct I8 as [E | H].
    + rewrite E in Hl. cbn in Hl. lia.
    + lia.
  - lia.
  - intros Hw. apply Sf. unfold w2. cbn [creatures].
    apply Forall_forall. intros c Hc. apply in_map_iff in Hc.
    destruct Hc as ([j x] & <- & Hx). apply Hincl in Hx.
    apply in_indexed, nth_error_In in Hx. cbn [snd].
    apply in_app_iff in Hx. destruct Hx as [Hx | Hx].
    + assert (Hall : Forall cooldown_ok (creatures (st_world st))).
      { eapply Forall2_Forall; [| exact I1 | exact Hw].
        intros a b Hab. apply Hab. }
      rewrite Forall_forall in Hall. now apply Hall.
    + specialize (Hbc I9). rewrite Forall_forall in Hbc. now apply Hbc.
Qed.

End Settle.

End TickFacts.

(** * The world, tick by tick *)

Module WorldFacts.

Import Random Config Dna Creature World Library DrawProps GenomeProps
  CreatureProps LoopProps RandomFacts DnaFacts CreatureFacts ObjectLists
  TurnFacts TickFacts.
Local Open Scope Q_scope.

(** ** Two runs *)

(** A creature with energy 40 and a plant in reach: after one tick it
    has 40 - 0.2 + 25 = 64.8 and one meal, and one of the eight plants is
    gone. *)
Example feeding_tick :
  match fst (tick sqrt_milli joined_mesh_draws feeding_world half_tape 0%nat) with
  | Ok w' =>
      map (fun c => (Qred (energy c), meals_eaten c)) (firstn 1 (creatures w'))
        = [(324 # 5, 1%Z)] /\
      List.length (plants w') = 7%nat /\
      List.length (creatures w') = 3%nat
  | Raise _ => False
  end.
Proof. vm_compute. repeat split. Qed.

(** Two satiated creatures in mating range: after one tick there is a
    third, of generation 2, and both parents are on cooldown. *)
Example mating_tick :
  match fst (tick sqrt_milli joined_mesh_draws mating_world half_tape 0%nat) with
  | Ok w' =>
      map generation (creatures w') = [1; 1; 2]%Z /\
      map mating_cooldown (creatures w') = [50; 49; 0]%Z /\
      generation_record w' = 2%Z
  | Raise _ => False
  end.
Proof. vm_compute. repeat split. Qed.

(** ** The hungry branch on a tie *)

Lemma xltb_irrefl (d : xfloat) : xltb d d = false.
Proof.
  destruct d as [q |]; [| reflexivity]. cbn. unfold Qltb.
  destruct (Qlt_le_dec q q) as [H | _]; [| reflexivity].
  exfalso. exact (Qlt_irrefl q H).
Qed.

Lemma xleb_refl (d : xfloat) : xleb d d = true.
Proof.
  destruct d as [q |]; [| reflexivity]. cbn.
  apply Qle_bool_iff, Qle_refl.
Qed.

Lemma hungry_choice_tie (p : nat * Plant.plant) (o : nat * creature)
    (d : xfloat) :
  hungry_choice (Some p) d (Some o) d =
    (if xltb d (Fin CANNIBAL_RANGE) then AttackCreature o else MoveToCreature o).
Proof.
  unfold hungry_choice. cbn [is_some negb orb andb].
  rewrite xltb_irrefl, xleb_refl. cbn [andb].
  destruct (xltb d (Fin CANNIBAL_RANGE)); reflexivity.
Qed.

(** C3 as stated fails.  A hungry creature (energy 40) at the origin,
    at height 0.5; the only plant at (1, 0, 0.3) and the only other
    creature at (1, 0.2, 0.5), both at squared distance 1.04 and inside
    [EAT_RANGE].  The creature attacks; no plant is eaten. *)
Lemma tie_is_not_for_the_plant :
  let c := update hungry_one in
  let seen_plant := nearest_plant_seen sqrt_milli tie_state 0 c in
  let seen_other := nearest_other_seen sqrt_milli tie_state 0 c in
  Qle_bool SATISFIED_ENERGY (energy c) = false /\
  fst seen_plant = Some (0%nat, lone_plant) /\
  fst seen_other = Some (1%nat, bystander) /\
  snd seen_plant = snd seen_other /\
  xltb (snd seen_plant) (Fin EAT_RANGE) = true /\
  hungry_choice (fst seen_plant) (snd seen_plant)
                (fst seen_other) (snd seen_other)
    = AttackCreature (1%nat, bystander) /\
  eaten_plants (fst (turn sqrt_milli tie_state 0 half_tape 0%nat)) = [].
Proof.
  vm_compute. repeat split.
Qed.

(** ** The loop and the lists it runs over *)


(** ** The number of creatures *)


Lemma tick_unfold (fsqrt : Q -> Q) (md : DNA -> nat) (w : world) (t : tape)
    (cur : nat) :
  fst (tick fsqrt md w t cur) =
  fst (tick_settle md (fst (tick_pass fsqrt w t cur)) t
         (snd (tick_pass fsqrt w t cur))).
Proof.
  unfold tick, bind. destruct (tick_pass fsqrt w t cur). reflexivity.
Qed.

(** C9 as stated fails.  The first tick of [trio] has one birth (the
    first creature mates with the second) and ends with four creatures.
    In the next tick the parents are on cooldown, the third creature is
    refused by the cap, and the child attacks a parent and loses: nobody
    is born, nobody dies, and the tick ends with four creatures again,
    more than the cap of three plus the births of that tick, which are
    none. *)
Lemma surplus_creature_survives_a_tick :
  match tick sqrt_milli joined_mesh_draws trio half_tape 0%nat with
  | (Ok quartet, cur) =>
      births sqrt_milli trio half_tape 0%nat = 1%nat /\
      List.length (creatures quartet) = 4%nat /\
      births sqrt_milli quartet half_tape cur = 0%nat /\
      match fst (tick sqrt_milli joined_mesh_draws quartet half_tape cur) with
      | Ok w' =>
          List.length (creatures w') = 4%nat /\
          ~ (Z.of_nat (List.length (creatures w'))
             <= MAX_CREATURES
                + Z.of_nat (births sqrt_milli quartet half_tape cur))%Z
      | Raise _ => False
      end
  | (Raise _, _) => False
  end.
Proof.
  vm_compute. repeat split. intros H. apply H. reflexivity.
Qed.

(** ** The mating cooldown *)



End WorldFacts.

(** * The mesh *)

Module MeshFacts.

Import Gielis Dna GenomeProps GielisFacts GielisMesh MeshProps.
Local Open Scope R_scope.

Local Ltac lra := Lra.lra.
Local Ltac nra := Lra.nra.

(** ** Loops *)

Lemma in_range (n i : Z) : In i (range n) <-> (0 <= i < n)%Z.
Proof.
  unfold range. rewrite in_map_iff. split.
  - intros (k & <- & Hk). apply in_seq in Hk. lia.
  - intros H. exists (Z.to_nat i). split; [lia | apply in_seq; lia].
Qed.

Lemma range_length (n : Z) : List.length (range n) = Z.to_nat n.
Proof. unfold range. now rewrite length_map, length_seq. Qed.

Lemma range_empty (n : Z) : (n <= 0)%Z -> range n = [].
Proof.
  intros H. unfold range. replace (Z.to_nat n) with 0%nat by lia. reflexivity.
Qed.

Lemma collect_ok {A B : Type} (f : A -> result B) (P : B -> Prop) (l : list A) :
  (forall a, In a l -> exists b, f a = Ok b /\ P b) ->
  exists bs, collect f l = Ok bs /\ List.length bs = List.length l /\ Forall P bs.
Proof.
  induction l as [| a l IH]; intros H; cbn.
  - exists []. repeat split. constructor.
  - destruct (H a (or_introl eq_refl)) as (b & -> & Hb).
    destruct IH as (bs & -> & Hl & Hf).
    { intros a' Ha'. apply H. now right. }
    cbn. exists (b :: bs). repeat split; [cbn; lia | now constructor].
Qed.

Lemma concat_length_const {A : Type} (n : nat) (rows : list (list A)) :
  Forall (fun row => List.length row = n) rows ->
  List.length (List.concat rows) = (List.length rows * n)%nat.
Proof.
  induction 1 as [| row rows Hrow _ IH]; cbn; [reflexivity |].
  rewrite length_app, IH, Hrow. reflexivity.
Qed.

Lemma flat_map_length_const {A B : Type} (n : nat) (f : A -> list B)
    (l : list A) :
  (forall a, List.length (f a) = n) ->
  List.length (flat_map f l) = (List.length l * n)%nat.
Proof.
  intros H. induction l as [| a l IH]; cbn; [reflexivity |].
  rewrite length_app, IH, H. reflexivity.
Qed.

(** ** The radius on the genome's ranges *)

Lemma gielis_r_returns (angle m n1 n2 n3 : R) :
  finite (m * angle) -> 0 <= n2 -> 0 <= n3 -> 1 / 77 <= n1 ->
  exists r, gielis_r angle m n1 n2 n3 = Ok r /\ 1 / 10 <= r <= 5.
Proof.
  intros Hfin Hn2 Hn3 Hn1.
  assert (E : exists r, gielis_r angle m n1 n2 n3 = Ok r).
  { unfold gielis_r. unfold finite in Hfin.
    destruct (Rlt_dec DBL_MAX _); [lra |].
    destruct (float_pow_unit (Rabs (cos (m * angle / 4))) n2)
      as (term1 & -> & Ht1); [| assumption |].
    { pose proof (COS_bound (m * angle / 4)).
      pose proof (Rabs_pos (cos (m * angle / 4))).
      split; [lra | apply Rabs_le; lra]. }
    destruct (float_pow_unit (Rabs (sin (m * angle / 4))) n3)
      as (term2 & -> & Ht2); [| assumption |].
    { pose proof (SIN_bound (m * angle / 4)).
      pose proof (Rabs_pos (sin (m * angle / 4))).
      split; [lra | apply Rabs_le; lra]. }
    simpl.
    destruct (Rlt_dec (term1 + term2) _); [eexists; reflexivity |].
    destruct (Rlt_dec DBL_MAX (term1 + term2)); [eexists; reflexivity |].
    destruct (float_pow_denom (term1 + term2)
                (- 1 / (if Rlt_dec (Rabs n1) (1 / 1000) then 1 / 1000 else n1)))
      as (p & ->); [lra | | simpl; eexists; reflexivity].
    destruct (Rlt_dec (Rabs n1) (1 / 1000)) as [Hs | Hs].
    - apply Rabs_def2 in Hs. lra.
    - assert (/ n1 <= / (1 / 77)) by (apply Rinv_le_contravar; lra).
      assert (0 < / n1) by (apply Rinv_0_lt_compat; lra).
      replace (- 1 / n1) with (- / n1) by (field; lra).
      replace (/ (1 / 77)) with 77 in * by field. lra. }
  destruct E as (r & E). exists r. split; [exact E |].
  exact (gielis_r_range _ _ _ _ _ _ E).
Qed.

Lemma finite_angle (m : Z) (a : R) :
  (2 <= m <= 14)%Z -> 0 <= a <= 8 -> finite (IZR m * a).
Proof.
  intros [Hlo Hhi] Ha. unfold finite.
  apply IZR_le in Hlo, Hhi.
  assert (H0 : 0 <= IZR m * a) by (apply Rmult_le_pos; lra).
  rewrite Rabs_right by lra.
  apply Rle_trans with (14 * 8).
  - apply Rmult_le_compat; lra.
  - replace (14 * 8) with (IZR 112 ^ 1) by (simpl; lra).
    apply DBL_MAX_ge_pow. vm_compute. discriminate.
Qed.

Lemma curvature_real (q : Q) :
  curvature_ok q -> 1 / 77 <= Q2R q /\ 0 <= Q2R q.
Proof.
  intros [Hlo _]. apply Qle_Rle in Hlo.
  replace (Q2R 0.08) with (8 / 100) in Hlo by (unfold Q2R; simpl; field).
  lra.
Qed.

Lemma unit_fraction (i n : Z) :
  (0 <= i < n)%Z -> 0 <= IZR i / IZR n <= 1.
Proof.
  intros [H0 Hn].
  assert (Hp : 0 < IZR n) by (apply IZR_lt; lia).
  apply IZR_le in H0. assert (Hi : IZR i <= IZR n) by (apply IZR_le; lia).
  split.
  - apply Rmult_le_pos; [lra | left; now apply Rinv_0_lt_compat].
  - apply Rmult_le_reg_r with (IZR n); [exact Hp |].
    unfold Rdiv. rewrite Rmult_assoc, Rinv_l by lra. lra.
Qed.

(** ** One vertex, one row *)

Lemma vertex_at_ok (params : gene) (scale : R) (location : vertex)
    (theta_steps : Z) (phi : R) (i : Z) :
  gene_ok params -> 0 <= phi <= PI -> (0 <= i < theta_steps)%Z ->
  exists v, vertex_at params scale location theta_steps phi i = Ok v /\
            spherical_product scale location v.
Proof.
  intros [Hs Hc] Hphi Hi. unfold symmetries, curvatures in Hs, Hc.
  repeat match goal with
         | H : Forall _ (_ :: _) |- _ => inversion H; subst; clear H
         end.
  repeat match goal with
         | H : curvature_ok _ |- _ => apply curvature_real in H
         end.
  unfold symmetry_ok in *.
  unfold vertex_at, int_div.
  destruct (Z.eqb_spec theta_steps 0) as [E | _]; [lia |]. cbn [rbind].
  pose proof (unit_fraction i theta_steps Hi) as Hq.
  pose proof PI_RGT_0 as Hpi. pose proof PI_4 as Hpi4.
  destruct (gielis_r_returns (IZR i / IZR theta_steps * 2 * PI) (IZR (m1 params))
              (Q2R (n1 params)) (Q2R (n2 params)) (Q2R (n3 params)))
    as (r1 & -> & Hr1); try tauto.
  { apply finite_angle; [assumption |]. split.
    - apply Rmult_le_pos; lra.
    - apply Rle_trans with (1 * 2 * 4); [| lra].
      apply Rmult_le_compat; try lra. }
  destruct (gielis_r_returns phi (IZR (m2 params))
              (Q2R (n1b params)) (Q2R (n2b params)) (Q2R (n3b params)))
    as (r2 & -> & Hr2); try tauto.
  { apply finite_angle; [assumption | lra]. }
  cbn [rbind]. destruct location as [[lx ly] lz].
  eexists. split; [reflexivity |].
  exists r1, r2, phi, (IZR i / IZR theta_steps * 2 * PI).
  split; [exact Hr1 |]. split; [exact Hr2 |]. split; [exact Hphi |].
  split; [| reflexivity].
  split; [apply Rmult_le_pos; lra |].
  replace (2 * PI) with (1 * 2 * PI) by ring.
  apply Rmult_le_compat_r; [lra |]. apply Rmult_le_compat_r; lra.
Qed.

Lemma vertex_row_ok (params : gene) (scale : R) (location : vertex)
    (theta_steps phi_steps j : Z) :
  gene_ok params -> (0 <= theta_steps)%Z -> (0 <= j <= phi_steps)%Z ->
  (0 < phi_steps)%Z ->
  exists row, vertex_row params scale location theta_steps phi_steps j = Ok row /\
              List.length row = Z.to_nat theta_steps /\
              Forall (spherical_product scale location) row.
Proof.
  intros Hg Hts Hj Hps. unfold vertex_row, int_div.
  destruct (Z.eqb_spec phi_steps 0) as [E | _]; [lia |]. cbn [rbind].
  assert (Hq : 0 <= IZR j / IZR phi_steps <= 1).
  { destruct (Z.eq_dec j phi_steps) as [-> | Hne].
    - unfold Rdiv. rewrite Rinv_r; [lra |]. apply not_0_IZR. lia.
    - apply unit_fraction. lia. }
  pose proof PI_RGT_0 as Hpi. pose proof PI_4 as Hpi4.
  destruct (collect_ok
              (vertex_at params scale location theta_steps
                 (IZR j / IZR phi_steps * PI))
              (spherical_product scale location) (range theta_steps))
    as (row & E & Hl & Hf).
  { intros i Hi. apply in_range in Hi. apply vertex_at_ok; try assumption.
    split; [apply Rmult_le_pos; lra |].
    replace PI with (1 * PI) at 2 by ring.
    apply Rmult_le_compat_r; lra. }
  exists row. rewrite range_length in Hl. auto.
Qed.

Lemma create_gielis_mesh_ok (params : gene) (resolution : Z) (scale : R)
    (location : vertex) :
  (2 <= resolution)%Z -> gene_ok params ->
  exists rows,
    create_gielis_mesh params resolution scale location =
      Ok (List.concat rows,
          flat_map (fun j => map (face_at resolution j) (range resolution))
                   (range (resolution / 2))) /\
    List.length rows = Z.to_nat (resolution / 2 + 1) /\
    Forall (fun row => List.length row = Z.to_nat resolution /\
                       Forall (spherical_product scale location) row) rows.
Proof.
  intros Hres Hg. unfold create_gielis_mesh.
  assert (Hps : (0 < resolution / 2)%Z).
  { apply Z.div_str_pos. lia. }
  destruct (collect_ok
              (vertex_row params scale location resolution (resolution / 2))
              (fun row => List.length row = Z.to_nat resolution /\
                          Forall (spherical_product scale location) row)
              (range (resolution / 2 + 1)))
    as (rows & -> & Hl & Hf).
  { intros j Hj. apply in_range in Hj.
    destruct (vertex_row_ok params scale location resolution (resolution / 2) j)
      as (row & E & H1 & H2); try assumption; try lia.
    exists row. auto. }
  cbn [rbind]. exists rows. rewrite range_length in Hl. auto.
Qed.

Lemma face_at_proper (theta_steps phi_steps j i : Z) :
  (2 <= theta_steps)%Z -> (0 <= j < phi_steps)%Z -> (0 <= i < theta_steps)%Z ->
  proper_face ((phi_steps + 1) * theta_steps) (face_at theta_steps j i).
Proof.
  intros Hts Hj Hi. unfold proper_face, face_at, face_corners.
  pose proof (Z.mod_pos_bound (i + 1) theta_steps ltac:(lia)) as Hm.
  assert (Hne : ((i + 1) mod theta_steps <> i)%Z).
  { destruct (Z.eq_dec (i + 1) theta_steps) as [E | N].
    - rewrite E, Z.mod_same by lia. lia.
    - rewrite Z.mod_small by lia. lia. }
  set (ni := ((i + 1) mod theta_steps)%Z) in *.
  split.
  - repeat (apply Forall_cons; [nia |]). apply Forall_nil.
  - repeat (apply NoDup_cons; [cbn; nia |]). apply NoDup_nil.
Qed.

Lemma rows_length (resolution : Z) (rows : list (list vertex)) (P : vertex -> Prop) :
  (2 <= resolution)%Z ->
  List.length rows = Z.to_nat (resolution / 2 + 1) ->
  Forall (fun row => List.length row = Z.to_nat resolution /\ Forall P row) rows ->
  Z.of_nat (List.length (List.concat rows)) = ((resolution / 2 + 1) * resolution)%Z.
Proof.
  intros Hres Hl Hf.
  assert (Hps : (0 < resolution / 2)%Z) by (apply Z.div_str_pos; lia).
  rewrite (concat_length_const (Z.to_nat resolution)).
  - rewrite Hl. nia.
  - eapply Forall_impl; [| exact Hf]. intros row [H _]. exact H.
Qed.

Lemma mesh_has_vertices (params : gene) (resolution : Z) (scale : R)
    (location : vertex) :
  (2 <= resolution)%Z -> gene_ok params ->
  exists verts faces,
    create_gielis_mesh params resolution scale location = Ok (verts, faces) /\
    Z.of_nat (List.length verts) = ((resolution / 2 + 1) * resolution)%Z.
Proof.
  intros Hres Hg.
  destruct (create_gielis_mesh_ok params resolution scale location Hres Hg)
    as (rows & E & Hl & Hf).
  eexists. eexists. split; [exact E |].
  exact (rows_length resolution rows _ Hres Hl Hf).
Qed.

(** X1.  For a resolution of at least 2 and a gene inside the ranges
    genomes stay in, [create_gielis_mesh] returns
    [(resolution // 2 + 1) * resolution] vertices and
    [(resolution // 2) * resolution] faces, and every face names four
    different vertices that exist. *)
Theorem mesh_has_proper_faces (params : gene) (resolution : Z) (scale : R)
    (location : vertex) :
  (2 <= resolution)%Z -> gene_ok params ->
  exists verts faces,
    create_gielis_mesh params resolution scale location = Ok (verts, faces) /\
    Z.of_nat (List.length verts) = ((resolution / 2 + 1) * resolution)%Z /\
    Z.of_nat (List.length faces) = (resolution / 2 * resolution)%Z /\
    Forall (proper_face (Z.of_nat (List.length verts))) faces.
Proof.
  intros Hres Hg.
  destruct (create_gielis_mesh_ok params resolution scale location Hres Hg)
    as (rows & E & Hl & Hf).
  assert (Hps : (0 < resolution / 2)%Z) by (apply Z.div_str_pos; lia).
  pose proof (rows_length resolution rows _ Hres Hl Hf) as Hv.
  eexists. eexists. split; [exact E |]. split; [exact Hv |]. split.
  - rewrite (flat_map_length_const (Z.to_nat resolution)).
    + rewrite range_length. nia.
    + intros j. now rewrite length_map, range_length.
  - rewrite Hv. apply Forall_forall. intros f Hin.
    apply in_flat_map in Hin. destruct Hin as (j & Hj & Hin).
    apply in_map_iff in Hin. destruct Hin as (i & <- & Hi).
    apply in_range in Hj, Hi. apply face_at_proper; lia.
Qed.

Lemma starfish_ok : gene_ok starfish.
Proof.
  split; cbn;
    repeat (apply Forall_cons;
            [unfold symmetry_ok, curvature_ok; cbn; first [lia | Lqa.lra] |]);
    apply Forall_nil.
Qed.

Lemma mesh_has_proper_faces_witness :
  exists verts faces,
    create_gielis_mesh starfish 20 1 (0, 0, 0) = Ok (verts, faces) /\
    Z.of_nat (List.length verts) = 220%Z /\
    Z.of_nat (List.length faces) = 200%Z /\
    Forall (proper_face (Z.of_nat (List.length verts))) faces.
Proof.
  apply (mesh_has_proper_faces starfish 20 1 (0, 0, 0)).
  - lia.
  - exact starfish_ok.
Defined.



(** X3.  With a resolution of 0 or 1 there are no latitude steps and the
    first [j / phi_steps] divides by zero, whatever the gene; a negative
    resolution runs no loop at all and gives the empty mesh. *)
Theorem mesh_needs_two_steps (params : gene) (scale : R) (location : vertex) :
  create_gielis_mesh params 0 scale location = Raise ZeroDivisionError /\
  create_gielis_mesh params 1 scale location = Raise ZeroDivisionError /\
  forall resolution : Z,
    (resolution < 0)%Z ->
    create_gielis_mesh params resolution scale location = Ok ([], []).
Proof.
  split; [reflexivity |]. split; [reflexivity |].
  intros resolution H. unfold create_gielis_mesh.
  assert (Hd : (resolution / 2 < 0)%Z) by (apply Z.div_lt_upper_bound; lia).
  rewrite (range_empty (resolution / 2 + 1)) by lia.
  rewrite (range_empty (resolution / 2)) by lia.
  reflexivity.
Qed.

End MeshFacts.

(** * Outgrowths *)

Module BodyFacts.

Import Dna GenomeProps GielisMesh Body MeshFacts.

Lemma firstn_seq (n s len : nat) :
  firstn n (seq s len) = seq s (Nat.min n len).
Proof.
  revert s len. induction n as [| n IH]; intros s [| len]; cbn; try reflexivity.
  now rewrite IH.
Qed.

Lemma NoDup_map_injective {A B : Type} (f : A -> B) (l : list A) :
  (forall a b, In a l -> In b l -> f a = f b -> a = b) ->
  NoDup l -> NoDup (map f l).
Proof.
  intros Hinj Hl. induction Hl as [| x l Hx Hl IH]; cbn; constructor.
  - intros Hin. apply in_map_iff in Hin. destruct Hin as (y & E & Hy).
    assert (y = x) by (apply Hinj; [now right | now left | exact E]).
    subst. contradiction.
  - apply IH. intros a b Ha Hb. apply Hinj; now right.
Qed.

Lemma range_step_take (stop step n : Z) :
  (0 <= n)%Z ->
  take n (range_step stop step) =
  map (fun k => (Z.of_nat k * step)%Z)
      (seq 0 (Nat.min (Z.to_nat n) (Z.to_nat ((stop + step - 1) / step)))).
Proof.
  intros Hn. unfold take, range_step.
  destruct (Z.ltb_spec n 0) as [H | _]; [lia |].
  now rewrite firstn_map, firstn_seq.
Qed.

Lemma outgrowth_indices_spec (num_verts fractal_children : Z) :
  (0 <= num_verts)%Z -> (1 <= fractal_children)%Z ->
  exists indices,
    outgrowth_indices num_verts fractal_children = Ok indices /\
    Z.of_nat (List.length indices) = Z.min num_verts fractal_children /\
    Forall (fun idx => (0 <= idx < num_verts)%Z) indices /\
    NoDup indices.
Proof.
  intros Hnv Hch. unfold outgrowth_indices.
  destruct (Z.eqb_spec fractal_children 0) as [E | _]; [lia |].
  set (step := Z.max 1 (num_verts / fractal_children)).
  assert (Hstep : (1 <= step)%Z) by (unfold step; lia).
  rewrite range_step_take by lia.
  set (count := ((num_verts + step - 1) / step)%Z).
  assert (Hc1 : (count * step <= num_verts + step - 1)%Z).
  { unfold count. rewrite Z.mul_comm. apply Z.mul_div_le. lia. }
  assert (Hc2 : (num_verts + step - 1 < (count + 1) * step)%Z).
  { unfold count.
    pose proof (Z.mul_succ_div_gt (num_verts + step - 1) step ltac:(lia)). lia. }
  assert (Hc0 : (0 <= count)%Z) by (apply Z.div_pos; lia).
  assert (Hmin : Z.min (Z.of_nat (Z.to_nat fractal_children)) (Z.of_nat (Z.to_nat count))
                 = Z.min num_verts fractal_children).
  { rewrite !Z2Nat.id by lia.
    destruct (Z.le_gt_cases fractal_children num_verts) as [Hle | Hgt].
    - assert (Hs : step = (num_verts / fractal_children)%Z).
      { unfold step. apply Z.max_r.
        apply Z.div_le_lower_bound; lia. }
      pose proof (Z.mul_div_le num_verts fractal_children ltac:(lia)) as Hm.
      rewrite <- Hs in Hm. nia.
    - assert (Hs : step = 1%Z).
      { unfold step. rewrite Z.div_small by lia. reflexivity. }
      rewrite Hs in *. lia. }
  eexists. split; [reflexivity |]. split; [| split].
  - rewrite length_map, length_seq, Nat2Z.inj_min. exact Hmin.
  - apply Forall_forall. intros idx Hin. apply in_map_iff in Hin.
    destruct Hin as (k & <- & Hk). apply in_seq in Hk. nia.
  - apply NoDup_map_injective; [| apply seq_NoDup].
    intros a b _ _ Hab. nia.
Qed.

(** X4.  On a parent mesh of [num_verts] vertices a creature with
    [fractal_children >= 1] grows [min(num_verts, fractal_children)]
    outgrowths, each at a different vertex of the mesh. *)
Theorem outgrowths_sit_on_vertices (num_verts fractal_children : Z) :
  (0 <= num_verts)%Z -> (1 <= fractal_children)%Z ->
  exists indices,
    outgrowth_indices num_verts fractal_children = Ok indices /\
    Z.of_nat (List.length indices) = Z.min num_verts fractal_children /\
    Forall (fun idx => (0 <= idx < num_verts)%Z) indices /\
    NoDup indices.
Proof. apply outgrowth_indices_spec. Qed.

Lemma outgrowths_sit_on_vertices_witness :
  exists indices,
    outgrowth_indices 660 3 = Ok indices /\
    Z.of_nat (List.length indices) = Z.min 660 3 /\
    Forall (fun idx => (0 <= idx < 660)%Z) indices /\
    NoDup indices.
Proof. apply (outgrowths_sit_on_vertices 660 3); lia. Defined.

(** X5.  An outgrowth is itself a mesh of resolution
    [max(10, resolution // (level + 1))], hence of at least 60 vertices:
    when it becomes a parent at the next level it carries exactly
    [fractal_children] outgrowths, for any branching a genome can have. *)
Theorem outgrowth_carries_all_children (params : gene) (resolution level : Z)
    (scale : R) (location : vertex) (fractal_children : Z) :
  gene_ok params -> (1 <= level)%Z -> (1 <= fractal_children <= 60)%Z ->
  exists verts faces indices,
    create_gielis_mesh params (level_res resolution level) scale location
      = Ok (verts, faces) /\
    outgrowth_indices (Z.of_nat (List.length verts)) fractal_children
      = Ok indices /\
    Z.of_nat (List.length indices) = fractal_children.
Proof.
  intros Hg Hlevel Hch.
  assert (Hres : (10 <= level_res resolution level)%Z) by (unfold level_res; lia).
  destruct (mesh_has_vertices params (level_res resolution level) scale location)
    as (verts & faces & E & Hv); [lia | exact Hg |].
  assert (H60 : (60 <= Z.of_nat (List.length verts))%Z).
  { rewrite Hv.
    assert (5 <= level_res resolution level / 2)%Z
      by (apply Z.div_le_lower_bound; lia).
    nia. }
  destruct (outgrowth_indices_spec (Z.of_nat (List.length verts)) fractal_children)
    as (indices & Ei & Hl & _); [lia | lia |].
  exists verts, faces, indices. split; [exact E |]. split; [exact Ei |]. lia.
Qed.

Lemma outgrowth_carries_all_children_witness :
  exists verts faces indices,
    create_gielis_mesh starfish (level_res 20 1) 1 (0, 0, 0)%R = Ok (verts, faces) /\
    outgrowth_indices (Z.of_nat (List.length verts)) 5 = Ok indices /\
    Z.of_nat (List.length indices) = 5%Z.
Proof.
  apply (outgrowth_carries_all_children starfish 20 1 1 (0, 0, 0)%R 5).
  - exact starfish_ok.
  - lia.
  - lia.
Defined.

End BodyFacts.

(** * Crossover and mutation, field by field *)

Module MutationFacts.

Import Random Config Dna DrawProps GenomeProps MutationProps RandomFacts DnaFacts.
Local Open Scope Q_scope.

(** ** Crossover of the four traits *)

Section Traits.

Variable t : tape.
Hypothesis Ht : unit_draws t.




(** ** One mutation moves a field only so far *)

Lemma mutate_symmetry_near (v : Z) :
  symmetry_ok v -> holds t (mutate_symmetry v) (near_symmetry v).
Proof.
  intros Hv. unfold mutate_symmetry, symmetry_ok, near_symmetry in *.
  eapply holds_bind; [apply holds_random; exact Ht | intros r _].
  destruct (Qlt_le_dec r MUTATION_RATE).
  - eapply holds_bind; [apply (holds_randint t (-2) 2 Ht); lia | intros d Hd].
    apply holds_ret. cbv beta in Hd. lia.
  - apply holds_ret. lia.
Qed.

Lemma mutate_curvature_near (v : Q) :
  curvature_ok v -> holds t (mutate_curvature v) (near_float v).
Proof.
  intros [Hlo Hhi]. unfold mutate_curvature, near_float, MUTATION_STRENGTH.
  eapply holds_bind; [apply holds_random; exact Ht | intros r _].
  destruct (Qlt_le_dec r MUTATION_RATE).
  - eapply holds_bind; [apply (holds_uniform t (-1) 1 Ht); lra | intros u [Hu1 Hu2]].
    apply holds_ret. unfold py_max, py_min.
    destruct (Qlt_le_dec (v + v * 0.25 * u) 3.0);
      destruct (Qlt_le_dec 0.1 _); split; nra.
  - apply holds_ret. split; lra.
Qed.

Lemma mutate_step_near (lo hi v : Z) :
  (lo <= v <= hi)%Z -> holds t (mutate_step lo hi v) (near_count v).
Proof.
  intros Hv. unfold mutate_step, near_count.
  eapply holds_bind; [apply holds_random; exact Ht | intros r _].
  destruct (Qlt_le_dec r MUTATION_RATE).
  - eapply holds_bind; [apply holds_choice | intros d Hd].
    apply holds_ret. destruct Hd as [<- | [<- | [<- | []]]]; lia.
  - apply holds_ret. lia.
Qed.

Lemma mutate_float_near (v : Q) :
  0.1 <= v -> holds t (mutate_float v) (near_float v).
Proof.
  intros Hv. unfold mutate_float, near_float, MUTATION_STRENGTH.
  eapply holds_bind; [apply holds_random; exact Ht | intros r _].
  destruct (Qlt_le_dec r MUTATION_RATE).
  - eapply holds_bind; [apply (holds_uniform t (-1) 1 Ht); lra | intros u [Hu1 Hu2]].
    apply holds_ret. unfold py_max.
    destruct (Qlt_le_dec 0.1 _); split; nra.
  - apply holds_ret. split; lra.
Qed.

Lemma mutate_gene_near (g : gene) :
  gene_ok g -> holds t (mutate_gene g) (gene_near g).
Proof.
  intros [Hs Hc]. unfold symmetries, curvatures in Hs, Hc.
  repeat match goal with
         | H : Forall _ (_ :: _) |- _ => inversion H; subst; clear H
         end.
  unfold mutate_gene.
  eapply holds_bind; [apply mutate_symmetry_near; assumption | intros a1 Ha1].
  eapply holds_bind; [apply mutate_symmetry_near; assumption | intros a2 Ha2].
  eapply holds_bind; [apply mutate_curvature_near; assumption | intros b1 Hb1].
  eapply holds_bind; [apply mutate_curvature_near; assumption | intros b2 Hb2].
  eapply holds_bind; [apply mutate_curvature_near; assumption | intros b3 Hb3].
  eapply holds_bind; [apply mutate_curvature_near; assumption | intros c1 Hc1].
  eapply holds_bind; [apply mutate_curvature_near; assumption | intros c2 Hc2].
  eapply holds_bind; [apply mutate_curvature_near; assumption | intros c3 Hc3].
  apply holds_ret. split; cbn.
  - repeat (apply Forall2_cons; [assumption |]). apply Forall2_nil.
  - repeat (apply Forall2_cons; [assumption |]). apply Forall2_nil.
Qed.

Lemma mutate_dna_near (d : DNA) :
  dna_ok d -> holds t (mutate_dna d) (dna_near d).
Proof.
  intros [Hg Hl Hc Hs Hp]. unfold mutate_dna.
  eapply holds_bind; [apply mutate_gene_near, (Hg key_1) | intros g1 G1].
  eapply holds_bind; [apply mutate_gene_near, (Hg key_2) | intros g2 G2].
  eapply holds_bind; [apply mutate_gene_near, (Hg key_3) | intros g3 G3].
  eapply holds_bind; [apply mutate_step_near; exact Hl | intros lv Hlv].
  eapply holds_bind; [apply mutate_step_near; exact Hc | intros ch Hch].
  eapply holds_bind; [apply mutate_float_near; exact Hs | intros sc Hsc].
  eapply holds_bind; [apply mutate_float_near; exact Hp | intros sp Hsp].
  apply holds_ret. split; cbn; try assumption.
  intros [| |]; assumption.
Qed.

End Traits.



(** X7.  One pass of [mutate_dna] over a genome inside its ranges moves
    a symmetry by at most 2, the depth and the branching by at most 1,
    and a curvature, the scale factor and the speed by at most a quarter
    ([MUTATION_STRENGTH]) of their value, clamping included. *)
Theorem mutation_is_local (t : tape) (i : nat) (d : DNA) :
  unit_draws t -> dna_ok d -> dna_near d (fst (mutate_dna d t i)).
Proof.
  intros Ht Hd. exact (mutate_dna_near t Ht d Hd i).
Qed.

Lemma mutation_is_local_witness :
  dna_near starfish_dna (fst (mutate_dna starfish_dna half_tape 0%nat)).
Proof.
  exact (mutation_is_local half_tape 0%nat starfish_dna half_tape_unit
           starfish_dna_ok).
Defined.

(** ** A pass in which no draw selects a field *)

Section Quiet.

Variable t : tape.

Lemma mutate_symmetry_quiet (v : Z) (i : nat) :
  MUTATION_RATE <= t i -> mutate_symmetry v t i = (v, S i).
Proof.
  intros H. unfold mutate_symmetry, bind, random.
  destruct (Qlt_le_dec (t i) MUTATION_RATE) as [Hlt | _]; [lra | reflexivity].
Qed.

Lemma mutate_curvature_quiet (v : Q) (i : nat) :
  MUTATION_RATE <= t i -> mutate_curvature v t i = (v, S i).
Proof.
  intros H. unfold mutate_curvature, bind, random.
  destruct (Qlt_le_dec (t i) MUTATION_RATE) as [Hlt | _]; [lra | reflexivity].
Qed.

Lemma mutate_step_quiet (lo hi v : Z) (i : nat) :
  MUTATION_RATE <= t i -> mutate_step lo hi v t i = (v, S i).
Proof.
  intros H. unfold mutate_step, bind, random.
  destruct (Qlt_le_dec (t i) MUTATION_RATE) as [Hlt | _]; [lra | reflexivity].
Qed.

Lemma mutate_float_quiet (v : Q) (i : nat) :
  MUTATION_RATE <= t i -> mutate_float v t i = (v, S i).
Proof.
  intros H. unfold mutate_float, bind, random.
  destruct (Qlt_le_dec (t i) MUTATION_RATE) as [Hlt | _]; [lra | reflexivity].
Qed.

Lemma mutate_gene_quiet (g : gene) (i : nat) :
  (forall k, (k < 8)%nat -> MUTATION_RATE <= t (k + i)%nat) ->
  mutate_gene g t i = (g, (8 + i)%nat).
Proof.
  intros H. destruct g as [a1 a2 b1 b2 b3 c1 c2 c3].
  unfold mutate_gene, bind. cbn [m1 m2 n1 n2 n3 n1b n2b n3b].
  rewrite (mutate_symmetry_quiet a1 i) by (apply (H 0%nat); lia).
  rewrite (mutate_symmetry_quiet a2 (S i)) by (apply (H 1%nat); lia).
  rewrite (mutate_curvature_quiet b1 (S (S i))) by (apply (H 2%nat); lia).
  rewrite (mutate_curvature_quiet b2 (S (S (S i)))) by (apply (H 3%nat); lia).
  rewrite (mutate_curvature_quiet b3 (S (S (S (S i))))) by (apply (H 4%nat); lia).
  rewrite (mutate_curvature_quiet c1 (S (S (S (S (S i))))))
    by (apply (H 5%nat); lia).
  rewrite (mutate_curvature_quiet c2 (S (S (S (S (S (S i)))))))
    by (apply (H 6%nat); lia).
  rewrite (mutate_curvature_quiet c3 (S (S (S (S (S (S (S i))))))))
    by (apply (H 7%nat); lia).
  reflexivity.
Qed.

Lemma mutate_dna_unchanged (d : DNA) (i : nat) :
  (forall k, (k < 28)%nat -> MUTATION_RATE <= t (k + i)%nat) ->
  mutate_dna d t i = (d, (28 + i)%nat).
Proof.
  intros H. destruct d as [g1 g2 g3 lv ch sc sp].
  unfold mutate_dna, bind.
  cbn [lajfi_1 lajfi_2 lajfi_3 fractal_levels fractal_children scale_factor speed].
  rewrite (mutate_gene_quiet g1 i) by (intros k Hk; apply H; lia).
  rewrite (mutate_gene_quiet g2 (8 + i)).
  2: { intros k Hk. replace (k + (8 + i))%nat with (k + 8 + i)%nat by lia.
       apply H. lia. }
  rewrite (mutate_gene_quiet g3 (8 + (8 + i))).
  2: { intros k Hk. replace (k + (8 + (8 + i)))%nat with (k + 16 + i)%nat by lia.
       apply H. lia. }
  rewrite (mutate_step_quiet _ _ lv (8 + (8 + (8 + i)))) by (apply (H 24%nat); lia).
  rewrite (mutate_step_quiet _ _ ch (S (8 + (8 + (8 + i)))))
    by (apply (H 25%nat); lia).
  rewrite (mutate_float_quiet sc (S (S (8 + (8 + (8 + i))))))
    by (apply (H 26%nat); lia).
  rewrite (mutate_float_quiet sp (S (S (S (8 + (8 + (8 + i)))))))
    by (apply (H 27%nat); lia).
  reflexivity.
Qed.

End Quiet.

(** X8.  [mutate_dna] asks one draw per field, 28 in all, when none of
    them is below [MUTATION_RATE]; it then returns the genome it was
    given, field for field. *)
Theorem mutation_can_pass (t : tape) (i : nat) (d : DNA) :
  (forall k, (k < 28)%nat -> MUTATION_RATE <= t (k + i)%nat) ->
  mutate_dna d t i = (d, (28 + i)%nat).
Proof. apply mutate_dna_unchanged. Qed.

Lemma mutation_can_pass_witness :
  mutate_dna starfish_dna half_tape 0%nat = (starfish_dna, 28%nat).
Proof.
  apply (mutation_can_pass half_tape 0%nat starfish_dna).
  intros k _. unfold half_tape, MUTATION_RATE. discriminate.
Defined.

End MutationFacts.

(** * Plants and creatures over time *)

Module LifeFacts.

Import Random Config Dna Creature DrawProps GenomeProps CreatureProps BodyProps
  RandomFacts DnaFacts CreatureFacts.
Local Open Scope Q_scope.

(** ** Plants *)

Lemma grown_S (n : nat) (p : Plant.plant) :
  grown (S n) p = Plant.update (grown n p).
Proof. reflexivity. Qed.

Lemma plant_update_fields (p : Plant.plant) :
  Plant.age (Plant.update p) = (Plant.age p + 1)%Z /\
  Plant.position (Plant.update p) = Plant.position p.
Proof. unfold Plant.update. destruct (_ && _)%bool; split; reflexivity. Qed.

Lemma inject_Z_le_const (m k : Z) : (m <= k)%Z -> inject_Z m <= inject_Z k.
Proof. intros H. now rewrite <- Zle_Qle. Qed.

(** One more call of [Plant.update] on a plant whose yield follows the
    stair. *)
Lemma plant_stair_step (p : Plant.plant) (a : Z) :
  (0 <= a)%Z -> Plant.age p = a ->
  Plant.energy p == PLANT_ENERGY + 3 * inject_Z (Z.min (a / 30) 5) ->
  Plant.energy (Plant.update p)
    == PLANT_ENERGY + 3 * inject_Z (Z.min ((a + 1) / 30) 5).
Proof.
  intros Ha Hage He. unfold Plant.update. rewrite Hage.
  unfold PLANT_ENERGY in *.
  assert (Hq : (a / 30 <= (a + 1) / 30 <= a / 30 + 1)%Z).
  { split; [apply Z.div_le_mono; lia |].
    pose proof (Z.div_mod a 30 ltac:(lia)).
    pose proof (Z.mod_pos_bound a 30 ltac:(lia)).
    apply Z.div_le_upper_bound; [lia |]. lia. }
  destruct (Z.eqb_spec ((a + 1) mod 30) 0) as [Hm | Hm].
  - assert (Hd : ((a + 1) / 30 = a / 30 + 1)%Z).
    { pose proof (Z.div_mod (a + 1) 30 ltac:(lia)) as H1.
      pose proof (Z.div_mod a 30 ltac:(lia)) as H2.
      pose proof (Z.mod_pos_bound a 30 ltac:(lia)) as H3.
      rewrite Hm in H1. lia. }
    rewrite Hd.
    destruct (Qlt_le_dec (Plant.energy p) (25 * 1.5)) as [Hlt | Hge];
      cbn [andb Plant.energy].
    + assert (Hk : (a / 30 <= 4)%Z).
      { destruct (Z_le_gt_dec (a / 30) 4) as [H | H]; [exact H | exfalso].
        rewrite Z.min_r in He by lia. rewrite He in Hlt.
        assert (inject_Z 5 == 5) by reflexivity. lra. }
      rewrite Z.min_l in He by lia. rewrite Z.min_l by lia.
      rewrite He, inject_Z_plus. ring.
    + assert (Hk : (5 <= a / 30)%Z).
      { destruct (Z_le_gt_dec 5 (a / 30)) as [H | H]; [exact H | exfalso].
        rewrite Z.min_l in He by lia.
        pose proof (inject_Z_le_const (a / 30) 4 ltac:(lia)) as H4.
        rewrite He in Hge.
        assert (inject_Z 4 == 4) by reflexivity. lra. }
      rewrite Z.min_r in He by lia. rewrite Z.min_r by lia. exact He.
  - assert (Hd : ((a + 1) / 30 = a / 30)%Z).
    { pose proof (Z.div_mod (a + 1) 30 ltac:(lia)) as H1.
      pose proof (Z.div_mod a 30 ltac:(lia)) as H2.
      pose proof (Z.mod_pos_bound a 30 ltac:(lia)) as H3.
      pose proof (Z.mod_pos_bound (a + 1) 30 ltac:(lia)) as H4.
      lia. }
    rewrite Hd. cbn [andb]. exact He.
Qed.

Lemma grown_from_seed (p : Plant.plant) (n : nat) :
  Plant.age p = 0%Z -> Plant.energy p == PLANT_ENERGY ->
  Plant.age (grown n p) = Z.of_nat n /\
  Plant.position (grown n p) = Plant.position p /\
  Plant.energy (grown n p)
    == PLANT_ENERGY + 3 * inject_Z (Z.min (Z.of_nat n / 30) 5).
Proof.
  intros Hage He. induction n as [| n (IH1 & IH2 & IH3)].
  - cbn. repeat split; [exact Hage |]. rewrite He. ring.
  - rewrite grown_S.
    destruct (plant_update_fields (grown n p)) as [Ha Hp].
    split; [rewrite Ha, IH1; lia |]. split; [congruence |].
    replace (Z.of_nat (S n)) with (Z.of_nat n + 1)%Z by lia.
    apply plant_stair_step; [lia | exact IH1 | exact IH3].
Qed.

Lemma plant_init_fields (t : tape) (i : nat) :
  Plant.age (fst (Plant.init t i)) = 0%Z /\
  Plant.energy (fst (Plant.init t i)) = PLANT_ENERGY /\
  Plant.position (fst (Plant.init t i)) =
    (- WORLD_SIZE / 2 + 2 + (WORLD_SIZE / 2 - 2 - (- WORLD_SIZE / 2 + 2)) * t i,
     - WORLD_SIZE / 2 + 2 + (WORLD_SIZE / 2 - 2 - (- WORLD_SIZE / 2 + 2)) * t (S i),
     0.3).
Proof. repeat split. Qed.

(** X9.  A plant starts with [PLANT_ENERGY] and gains 3 at every
    thirtieth update while it holds less than one and a half times that:
    after [n] updates its yield is [25 + 3 * min(n // 30, 5)], which is
    40 from the 150th update on, and it has not moved. *)
Theorem plant_yield_after (t : tape) (i n : nat) :
  let seed := fst (Plant.init t i) in
  Plant.age (grown n seed) = Z.of_nat n /\
  Plant.position (grown n seed) = Plant.position seed /\
  Plant.energy (grown n seed)
    == PLANT_ENERGY + 3 * inject_Z (Z.min (Z.of_nat n / 30) 5) /\
  PLANT_ENERGY <= Plant.energy (grown n seed) /\
  Plant.energy (grown n seed) <= 40.
Proof.
  cbv zeta.
  destruct (plant_init_fields t i) as (Ha & He & _).
  destruct (grown_from_seed (fst (Plant.init t i)) n Ha) as (H1 & H2 & H3).
  { rewrite He. reflexivity. }
  split; [exact H1 |]. split; [exact H2 |]. split; [exact H3 |].
  rewrite H3. unfold PLANT_ENERGY.
  pose proof (inject_Z_le_const 0 (Z.min (Z.of_nat n / 30) 5)) as Hlo.
  pose proof (inject_Z_le_const (Z.min (Z.of_nat n / 30) 5) 5 ltac:(lia)) as Hhi.
  assert (H0 : (0 <= Z.min (Z.of_nat n / 30) 5)%Z).
  { apply Z.min_glb; [apply Z.div_pos; lia | lia]. }
  specialize (Hlo H0).
  assert (inject_Z 0 == 0) by reflexivity.
  assert (inject_Z 5 == 5) by reflexivity.
  split; lra.
Qed.

(** ** The box *)

Lemma clamp_xy_range (b v : Q) :
  0 <= b -> - b <= clamp_xy b v /\ clamp_xy b v <= b.
Proof.
  intros Hb. unfold clamp_xy.
  destruct (Qlt_le_dec b v); [split; lra |].
  destruct (Qlt_le_dec v (- b)); split; lra.
Qed.

Lemma clamp_z_range (v : Q) : 0.5 <= clamp_z v /\ clamp_z v <= 3.
Proof.
  unfold clamp_z.
  destruct (Qlt_le_dec v 0.5); [split; lra |].
  destruct (Qlt_le_dec 3 v); split; lra.
Qed.

Lemma clamp_in_bounds (c : creature) :
  obj c = true -> in_bounds (position (_clamp_to_world c)).
Proof.
  intros Ho. unfold _clamp_to_world. rewrite Ho. cbn [negb].
  destruct (position c) as [[x y] z]. cbn [position set_position].
  unfold in_bounds, pos_x, pos_y, pos_z. cbn [fst snd].
  assert (Hb : 0 <= WORLD_SIZE / 2 - 2) by (vm_compute; discriminate).
  split; [apply clamp_xy_range; exact Hb |].
  split; [apply clamp_xy_range; exact Hb | apply clamp_z_range].
Qed.

Lemma clamp_xy_inside (b v : Q) : - b <= v -> v <= b -> clamp_xy b v = v.
Proof.
  intros Hlo Hhi. unfold clamp_xy.
  destruct (Qlt_le_dec b v) as [H | _]; [lra |].
  destruct (Qlt_le_dec v (- b)) as [H | _]; [lra | reflexivity].
Qed.

Lemma clamp_z_inside (v : Q) : 0.5 <= v -> v <= 3 -> clamp_z v = v.
Proof.
  intros Hlo Hhi. unfold clamp_z.
  destruct (Qlt_le_dec v 0.5) as [H | _]; [lra |].
  destruct (Qlt_le_dec 3 v) as [H | _]; [lra | reflexivity].
Qed.

Lemma clamp_inside (c : creature) :
  in_bounds (position c) -> _clamp_to_world c = c.
Proof.
  unfold in_bounds, _clamp_to_world, pos_x, pos_y, pos_z.
  destruct (negb (obj c)); [reflexivity |].
  destruct c as [id nm d [[x y] z] e a o g ps cc me cd]. cbn.
  intros ([Hx1 Hx2] & [Hy1 Hy2] & [Hz1 Hz2]).
  unfold set_position. cbn.
  rewrite (clamp_xy_inside _ x Hx1 Hx2), (clamp_xy_inside _ y Hy1 Hy2),
    (clamp_z_inside z Hz1 Hz2).
  reflexivity.
Qed.

Lemma clamp_obj (c : creature) : obj (_clamp_to_world c) = obj c.
Proof.
  unfold _clamp_to_world. destruct (negb (obj c)); [reflexivity |].
  destruct (position c) as [[x y] z]. reflexivity.
Qed.

Lemma move_towards_in_bounds (fsqrt : Q -> Q) (c : creature) (target : vec) :
  obj c = true -> in_bounds (position (move_towards fsqrt c target)).
Proof.
  intros Ho. unfold move_towards. rewrite Ho. cbn [negb].
  destruct target as [[tx ty] tz]. destruct (position c) as [[x y] z].
  apply clamp_in_bounds. destruct (Qlt_le_dec _ _); exact Ho.
Qed.

Lemma move_random_in_bounds (fsqrt : Q -> Q) (c : creature) (t : tape) (i : nat) :
  obj c = true -> in_bounds (position (fst (move_random fsqrt c t i))).
Proof.
  intros Ho. unfold move_random. rewrite Ho. cbn [negb].
  unfold uniform, bind, random, ret.
  destruct (position c) as [[x y] z]. cbn [fst].
  apply clamp_in_bounds. destruct (Qlt_le_dec _ _); exact Ho.
Qed.

(** X10.  A creature that has a body ends every move, towards a target
    or at random, inside the box [-8, 8] x [-8, 8] x [0.5, 3]; and
    [_clamp_to_world] leaves a creature that is inside the box exactly
    as it is. *)
Theorem moves_end_in_bounds (fsqrt : Q -> Q) (c : creature) (target : vec)
    (t : tape) (i : nat) :
  obj c = true ->
  in_bounds (position (move_towards fsqrt c target)) /\
  in_bounds (position (fst (move_random fsqrt c t i))) /\
  in_bounds (position (_clamp_to_world c)) /\
  _clamp_to_world (_clamp_to_world c) = _clamp_to_world c.
Proof.
  intros Ho.
  split; [now apply move_towards_in_bounds |].
  split; [now apply move_random_in_bounds |].
  split; [now apply clamp_in_bounds |].
  apply clamp_inside, clamp_in_bounds, Ho.
Qed.

Lemma moves_end_in_bounds_witness :
  in_bounds (position (move_towards Library.sqrt_milli boka (20, 20, 20))) /\
  in_bounds (position (fst (move_random Library.sqrt_milli boka half_tape 0%nat))).
Proof.
  destruct (moves_end_in_bounds Library.sqrt_milli boka (20, 20, 20) half_tape 0%nat)
    as (H1 & H2 & _); [reflexivity |].
  split; [exact H1 | exact H2].
Defined.

(** ** Ticks without a meal *)

Lemma idle_S (k : nat) (c : creature) : idle (S k) c = update (idle k c).
Proof. reflexivity. Qed.

Lemma update_fields (c : creature) :
  age (update c) = (age c + 1)%Z /\
  energy (update c) = energy c - IDLE_COST /\
  mating_cooldown (update c) = Z.max 0 (mating_cooldown c - 1) \/
  age (update c) = (age c + 1)%Z /\
  energy (update c) = energy c - IDLE_COST /\
  (mating_cooldown c <= 0)%Z /\ mating_cooldown (update c) = mating_cooldown c.
Proof.
  unfold update. cbn.
  destruct (Z.ltb_spec 0 (mating_cooldown c)); cbn.
  - left. repeat split. lia.
  - right. repeat split. exact H.
Qed.

Lemma idle_fields (c : creature) (k : nat) :
  age (idle k c) = (age c + Z.of_nat k)%Z /\
  energy (idle k c) == energy c - IDLE_COST * inject_Z (Z.of_nat k) /\
  (cooldown_ok c ->
   mating_cooldown (idle k c) = Z.max 0 (mating_cooldown c - Z.of_nat k)).
Proof.
  induction k as [| k (IH1 & IH2 & IH3)].
  - cbn. split; [lia |]. split; [ring |].
    unfold cooldown_ok. intros H. lia.
  - rewrite idle_S.
    replace (Z.of_nat (S k)) with (Z.of_nat k + 1)%Z by lia.
    destruct (update_fields (idle k c)) as [(H1 & H2 & H3) | (H1 & H2 & H3 & H4)].
    + split; [lia |]. split.
      * rewrite H2, IH2, inject_Z_plus. ring.
      * intros Hc. rewrite H3, (IH3 Hc). unfold cooldown_ok in Hc. lia.
    + split; [lia |]. split.
      * rewrite H2, IH2, inject_Z_plus. ring.
      * intros Hc. rewrite H4, (IH3 Hc). rewrite (IH3 Hc) in H3.
        unfold cooldown_ok in Hc. lia.
Qed.

Lemma idle_add (j k : nat) (c : creature) : idle (j + k) c = idle j (idle k c).
Proof. unfold idle. apply Nat.iter_add. Qed.

Lemma idle_energy_falls (c : creature) (k : nat) :
  energy (idle (S k) c) < energy (idle k c).
Proof.
  rewrite idle_S.
  destruct (update_fields (idle k c)) as [(_ & H & _) | (_ & H & _)];
    rewrite H; unfold IDLE_COST; lra.
Qed.

Lemma idle_stays_dead (c : creature) (j : nat) :
  is_dead c = true -> is_dead (idle j c) = true.
Proof.
  unfold is_dead, STARVATION_THRESHOLD. rewrite !Qle_bool_iff. intros H.
  destruct (idle_fields c j) as (_ & E & _). rewrite E.
  assert (0 <= inject_Z (Z.of_nat j)).
  { change 0 with (inject_Z 0). rewrite <- Zle_Qle. lia. }
  unfold IDLE_COST. nra.
Qed.

Lemma idle_dies (c : creature) :
  exists n, forall j, (n <= j)%nat -> is_dead (idle j c) = true.
Proof.
  exists (Z.to_nat (Qfloor (energy c / IDLE_COST) + 1)).
  intros j Hj. unfold is_dead, STARVATION_THRESHOLD. rewrite Qle_bool_iff.
  destruct (idle_fields c j) as (_ & E & _). rewrite E.
  pose proof (Qlt_floor (energy c / IDLE_COST)) as Hfl.
  assert (Hz : (Qfloor (energy c / IDLE_COST) + 1 <= Z.of_nat j)%Z) by lia.
  rewrite Zle_Qle in Hz.
  assert (Hdiv : energy c / IDLE_COST < inject_Z (Z.of_nat j)) by lra.
  assert (Hmul : energy c == energy c / IDLE_COST * IDLE_COST)
    by (unfold IDLE_COST; field).
  unfold IDLE_COST in *. nra.
Qed.

(** X11.  [k] updates in a row make a creature [k] ticks older, and a
    cooldown that is not negative counts down to 0 and stays there.
    Every update lowers the energy: a creature that [is_dead] finds dead
    is still dead after any number of further updates, and every
    creature is dead after enough of them. *)
Theorem idle_creature_starves (c : creature) (k : nat) :
  age (idle k c) = (age c + Z.of_nat k)%Z /\
  energy (idle (S k) c) < energy (idle k c) /\
  (forall j, is_dead (idle k c) = true -> is_dead (idle (j + k) c) = true) /\
  (exists n, forall j, (n <= j)%nat -> is_dead (idle j c) = true) /\
  (cooldown_ok c ->
   mating_cooldown (idle k c) = Z.max 0 (mating_cooldown c - Z.of_nat k)).
Proof.
  destruct (idle_fields c k) as (H1 & _ & H3).
  split; [exact H1 |]. split; [apply idle_energy_falls |].
  split; [| split; [apply idle_dies | exact H3]].
  intros j Hd. rewrite idle_add. now apply idle_stays_dead.
Qed.

(** The theorem on two creatures: a cooldown of 0 stays 0, and a
    creature of energy 40, dead after 201 updates, is dead after 210. *)
Lemma idle_creature_starves_witness :
  mating_cooldown (idle 7 boka) = Z.max 0 (mating_cooldown boka - 7) /\
  is_dead (idle (9 + 201) glif_starving) = true.
Proof.
  split.
  - apply (idle_creature_starves boka 7). unfold cooldown_ok. cbn. lia.
  - exact (proj1 (proj2 (proj2 (idle_creature_starves glif_starving 201)))
             9%nat eq_refl).
Defined.

(** ** Mating *)

Lemma after_mating_fields (c : creature) :
  energy (after_mating c) = energy c - MATING_COST /\
  mating_cooldown (after_mating c) = 50%Z /\
  age (after_mating c) = age c.
Proof. repeat split. Qed.

Lemma can_mate_energy (c : creature) :
  can_mate c = true -> MATING_ENERGY <= energy c.
Proof.
  unfold can_mate. intros H.
  apply andb_prop in H. destruct H as [H _].
  apply andb_prop in H. destruct H as [H _].
  now apply Qle_bool_iff.
Qed.

Lemma rested_after (c : creature) (k : nat) :
  mating_cooldown c = 50%Z -> (k < 50)%nat -> can_mate (idle k c) = false.
Proof.
  intros Hc Hk. destruct (idle_fields c k) as (_ & _ & H).
  unfold can_mate. rewrite H by (unfold cooldown_ok; lia). rewrite Hc.
  replace (Z.max 0 (50 - Z.of_nat k) =? 0)%Z with false
    by (symmetry; apply Z.eqb_neq; lia).
  now rewrite andb_false_r.
Qed.

Lemma too_young (c : creature) (k : nat) :
  age c = 0%Z -> (k <= 20)%nat -> can_mate (idle k c) = false.
Proof.
  intros Ha Hk. destruct (idle_fields c k) as (H & _ & _).
  unfold can_mate. rewrite H, Ha.
  replace (20 <? 0 + Z.of_nat k)%Z with false
    by (symmetry; apply Z.ltb_ge; lia).
  now rewrite andb_false_r.
Qed.

(** X12.  Whatever the parents, neither can mate again before its 50th
    update after [mate_with], and the child cannot mate during its first
    20 updates.  When both parents could mate, both are alive after it:
    each keeps at least 30 of the 60 it needed. *)
Theorem mating_takes_time (counter : nat) (a b : creature) (t : tape)
    (i k : nat) :
  let a' := fst (fst (fst (mate_with counter a b t i))) in
  let b' := snd (fst (fst (mate_with counter a b t i))) in
  let child := snd (fst (mate_with counter a b t i)) in
  ((k < 50)%nat -> can_mate (idle k a') = false /\ can_mate (idle k b') = false) /\
  ((k <= 20)%nat -> can_mate (idle k child) = false) /\
  (can_mate a = true -> can_mate b = true ->
   is_dead a' = false /\ is_dead b' = false).
Proof.
  cbv zeta.
  destruct (mate_with_result counter a b t i) as (nm & E). rewrite E.
  cbn [fst snd].
  split; [| split].
  - intros Hk. split; apply rested_after; auto.
  - intros Hk. apply too_young; auto.
  - intros Ha Hb.
    apply can_mate_energy in Ha, Hb. unfold MATING_ENERGY in *.
    unfold is_dead, STARVATION_THRESHOLD.
    split; apply not_true_is_false; rewrite Qle_bool_iff;
      cbn [energy after_mating set_energy set_mating_cooldown set_children_count];
      unfold MATING_COST; lra.
Qed.

Lemma mating_takes_time_witness :
  is_dead (fst (fst (fst (mate_with 2 boka glif half_tape 0%nat)))) = false /\
  can_mate (idle 49 (fst (fst (fst (mate_with 2 boka glif half_tape 0%nat)))))
    = false /\
  can_mate (idle 20 (snd (fst (mate_with 2 boka glif half_tape 0%nat)))) = false.
Proof.
  destruct (mating_takes_time 2 boka glif half_tape 0%nat 49)
    as (H2 & _ & H1).
  destruct (mating_takes_time 2 boka glif half_tape 0%nat 20)
    as (_ & H3 & _).
  assert (L49 : (49 < 50)%nat) by lia.
  assert (L20 : (20 <= 20)%nat) by lia.
  split; [exact (proj1 (H1 eq_refl eq_refl)) |].
  split; [exact (proj1 (H2 L49)) | exact (H3 L20)].
Defined.

(** ** Fights *)

(** X13.  The two multipliers leave the outcome of an attack open only
    between certain odds: while both strengths are not negative, an
    attacker whose strength (after the cost) is more than 1.75 times the
    defender's always wins, and one whose strength is at most half the
    defender's never does. *)
Theorem fight_outcome_is_bounded (self prey : creature) (t : tape) (i : nat) :
  unit_draws t ->
  let self' := fst (fst (attack self prey t i)) in
  let won := snd (fst (attack self prey t i)) in
  0 <= get_strength self' -> 0 <= get_strength prey ->
  (get_strength prey * 1.4 < get_strength self' * 0.8 -> won = true) /\
  (get_strength self' * 1.2 <= get_strength prey * 0.6 -> won = false).
Proof.
  intros Ht. cbv zeta.
  unfold attack, uniform, bind, random, ret. cbn [fst snd].
  destruct (Ht i) as [H0 H1]. destruct (Ht (S i)) as [H2 H3].
  set (sa := get_strength (set_energy self (energy self - ATTACK_COST))).
  set (sd := get_strength prey).
  intros Hsa Hsd. split; intros H; destruct (Qlt_le_dec _ _) as [Hlt | Hle];
    try reflexivity; exfalso; nra.
Qed.

Lemma fight_outcome_is_bounded_witness :
  snd (fst (attack boka
              (mk_creature 2 "GLIF" starfish_dna (0, 0, 3) 10 30 true 1 [] 0 0 0)
              half_tape 0%nat)) = true.
Proof.
  refine (proj1 (fight_outcome_is_bounded boka
                   (mk_creature 2 "GLIF" starfish_dna (0, 0, 3) 10 30 true 1 [] 0 0 0)
                   half_tape 0%nat half_tape_unit _ _) _);
    vm_compute; congruence.
Defined.

(** ** Names *)

Lemma string_of_list_length (l : list ascii) :
  String.length (string_of_list_ascii l) = List.length l.
Proof. induction l as [| ch l IH]; cbn; congruence. Qed.

Lemma upper_consonant (ch : ascii) :
  In ch ("b" :: ["d"; "f"; "g"; "k"; "l"; "m"; "n"; "p"; "r"; "s"; "t"; "v"; "z"])%char ->
  In (upper ch) CONSONANTS.
Proof.
  intros H. cbn in H.
  repeat (destruct H as [<- | H]; [vm_compute; tauto |]). contradiction.
Qed.

Lemma upper_vowel (ch : ascii) :
  In ch ("a" :: ["e"; "i"; "o"; "u"])%char -> In (upper ch) VOWELS.
Proof.
  intros H. cbn in H.
  repeat (destruct H as [<- | H]; [vm_compute; tauto |]). contradiction.
Qed.

Lemma name_letters_shape (t : tape) (count i cur : nat) :
  List.length (fst (name_letters i count t cur)) = count /\
  alternating i (map upper (fst (name_letters i count t cur))).
Proof.
  revert i cur. induction count as [| count IH]; intros i cur; cbn.
  - split; [reflexivity | exact I].
  - unfold bind.
    assert (Hch : In (upper (fst ((if Nat.even i then choice_consonant
                                   else choice_vowel) t cur)))
                     (if Nat.even i then CONSONANTS else VOWELS)).
    { destruct (Nat.even i).
      - apply upper_consonant. apply (holds_choice t).
      - apply upper_vowel. apply (holds_choice t). }
    destruct ((if Nat.even i then choice_consonant else choice_vowel) t cur)
      as [ch cur1].
    cbn [fst] in Hch.
    destruct (IH (S i) cur1) as [Hl Ha].
    destruct (name_letters (S i) count t cur1) as [rest cur2].
    cbn [fst ret] in *. split; [cbn; lia |]. cbn. split; assumption.
Qed.

(** X14.  A name has three to five letters, all upper-case, consonants
    at the odd places and vowels at the even ones (counting from one). *)
Theorem name_alternates (t : tape) (i : nat) :
  unit_draws t ->
  let nm := fst (_generate_name t i) in
  (3 <= String.length nm <= 5)%nat /\
  alternating 0 (list_ascii_of_string nm).
Proof.
  intros Ht. cbv zeta. unfold _generate_name, bind.
  pose proof (holds_randint t 3 5 Ht ltac:(lia) i) as Hn.
  destruct (randint 3 5 t i) as [n cur1]. cbn [fst] in Hn.
  destruct (name_letters_shape t (Z.to_nat n) 0 cur1) as [Hl Ha].
  destruct (name_letters 0 (Z.to_nat n) t cur1) as [letters cur2].
  cbn [fst ret] in *.
  rewrite string_of_list_length, length_map, Hl.
  rewrite list_ascii_of_string_of_list_ascii.
  split; [lia | exact Ha].
Qed.

Lemma name_alternates_witness :
  (3 <= String.length (fst (_generate_name half_tape 0%nat)) <= 5)%nat /\
  alternating 0 (list_ascii_of_string (fst (_generate_name half_tape 0%nat))).
Proof. exact (name_alternates half_tape 0%nat half_tape_unit). Defined.

End LifeFacts.

(** * Nearest target, best creature *)

Module NearestFacts.

Import Creature World CreatureProps ExportChampion NearestProps.
Local Open Scope Q_scope.

(** ** [distance_sq] *)

Lemma distance_sq_sum (p q : vec) :
  distance_sq p q ==
    (pos_x p - pos_x q) * (pos_x p - pos_x q)
    + (pos_y p - pos_y q) * (pos_y p - pos_y q)
    + (pos_z p - pos_z q) * (pos_z p - pos_z q).
Proof.
  destruct p as [[x1 y1] z1]. destruct q as [[x2 y2] z2].
  unfold distance_sq, pos_x, pos_y, pos_z. cbn [fst snd].
  unfold Qpower, Qpower_positive, pow_pos. cbn [Pos.iter_op]. ring.
Qed.

(** X15.  [distance_sq] is symmetric and never negative, and it is zero
    exactly between two points with the same three coordinates. *)
Theorem distance_sq_is_a_distance (p q : vec) :
  distance_sq p q == distance_sq q p /\
  0 <= distance_sq p q /\
  (distance_sq p q == 0 <->
   pos_x p == pos_x q /\ pos_y p == pos_y q /\ pos_z p == pos_z q).
Proof.
  rewrite (distance_sq_sum p q), (distance_sq_sum q p).
  set (dx := pos_x p - pos_x q). set (dy := pos_y p - pos_y q).
  set (dz := pos_z p - pos_z q).
  assert (Ex : pos_x q - pos_x p == - dx) by (unfold dx; ring).
  assert (Ey : pos_y q - pos_y p == - dy) by (unfold dy; ring).
  assert (Ez : pos_z q - pos_z p == - dz) by (unfold dz; ring).
  assert (Hx : 0 <= dx * dx) by nra.
  assert (Hy : 0 <= dy * dy) by nra.
  assert (Hz : 0 <= dz * dz) by nra.
  split; [rewrite Ex, Ey, Ez; ring |]. split; [lra |].
  split.
  - intros H.
    assert (Hx0 : dx * dx == 0) by lra.
    assert (Hy0 : dy * dy == 0) by lra.
    assert (Hz0 : dz * dz == 0) by lra.
    assert (Hsq : forall d : Q, d * d == 0 -> d == 0).
    { intros d Hd. destruct (Qmult_integral _ _ Hd); assumption. }
    apply Hsq in Hx0, Hy0, Hz0. unfold dx, dy, dz in *.
    repeat split; lra.
  - intros (Hx0 & Hy0 & Hz0).
    assert (dx == 0) by (unfold dx; lra).
    assert (dy == 0) by (unfold dy; lra).
    assert (dz == 0) by (unfold dz; lra).
    nra.
Qed.

(** ** [find_nearest] *)

Section Nearest.

Context {A : Type}.
Variable position_of : A -> vec.

Lemma first_nearest_single (p : vec) (x : A) :
  first_nearest position_of p [x] x.
Proof.
  exists [], []. split; [reflexivity |]. split; intros y [].
Qed.

Lemma first_nearest_least (p : vec) (seen : list A) (x y : A) :
  first_nearest position_of p seen x -> In y seen ->
  distance_sq p (position_of x) <= distance_sq p (position_of y).
Proof.
  intros (before & after & -> & Hb & Ha) Hin.
  apply in_app_iff in Hin. destruct Hin as [Hin | [<- | Hin]].
  - apply Qlt_le_weak, Hb, Hin.
  - apply Qle_refl.
  - apply Ha, Hin.
Qed.

Lemma first_nearest_keep (p : vec) (seen : list A) (x y : A) :
  first_nearest position_of p seen x ->
  distance_sq p (position_of x) <= distance_sq p (position_of y) ->
  first_nearest position_of p (seen ++ [y]) x.
Proof.
  intros (before & after & -> & Hb & Ha) Hle.
  exists before, (after ++ [y]). split; [now rewrite <- app_assoc |].
  split; [exact Hb |].
  intros z Hz. apply in_app_iff in Hz. destruct Hz as [Hz | [<- | []]].
  - apply Ha, Hz.
  - exact Hle.
Qed.

Lemma first_nearest_replace (p : vec) (seen : list A) (x y : A) :
  first_nearest position_of p seen x ->
  distance_sq p (position_of y) < distance_sq p (position_of x) ->
  first_nearest position_of p (seen ++ [y]) y.
Proof.
  intros Hx Hlt. exists seen, []. split; [reflexivity |].
  split; [| intros z []].
  intros z Hz. eapply Qlt_le_trans; [exact Hlt |].
  exact (first_nearest_least p seen x z Hx Hz).
Qed.

Lemma nearest_loop_first (p : vec) (rest seen : list A) (x : A) :
  first_nearest position_of p seen x ->
  exists x',
    nearest_loop position_of p rest (Some x)
      (Fin (distance_sq p (position_of x)))
    = (Some x', Fin (distance_sq p (position_of x'))) /\
    first_nearest position_of p (seen ++ rest) x'.
Proof.
  revert seen x. induction rest as [| y rest IH]; intros seen x Hx.
  - exists x. rewrite app_nil_r. split; [reflexivity | exact Hx].
  - cbn [nearest_loop xltb]. unfold Qltb.
    replace (seen ++ y :: rest) with ((seen ++ [y]) ++ rest)
      by (rewrite <- app_assoc; reflexivity).
    destruct (Qlt_le_dec (distance_sq p (position_of y))
                (distance_sq p (position_of x))) as [Hlt | Hle].
    + apply IH. eapply first_nearest_replace; eassumption.
    + apply IH. apply first_nearest_keep; assumption.
Qed.

Lemma find_nearest_first (fsqrt : Q -> Q) (c : creature) (y : A)
    (rest : list A) :
  exists x,
    find_nearest fsqrt position_of c (y :: rest)
    = (Some x, Fin (fsqrt (distance_sq (position c) (position_of x)))) /\
    first_nearest position_of (position c) (y :: rest) x.
Proof.
  unfold find_nearest. cbn [nearest_loop xltb].
  destruct (nearest_loop_first (position c) rest [y] y
              (first_nearest_single (position c) y)) as (x & E & Hx).
  rewrite E. exists x. split; [reflexivity | exact Hx].
Qed.

End Nearest.

(** X16.  [find_nearest] answers [(None, inf)] on an empty list of
    targets and on no other.  Otherwise it returns the target at the
    least squared distance from the creature, the first such target of
    the list when several are equally near, together with the square
    root of that squared distance. *)
Theorem find_nearest_is_first_nearest {A : Type} (position_of : A -> vec)
    (fsqrt : Q -> Q) (c : creature) (targets : list A) :
  match targets with
  | [] => find_nearest fsqrt position_of c targets = (None, Inf)
  | _ :: _ =>
      exists x,
        find_nearest fsqrt position_of c targets
        = (Some x, Fin (fsqrt (distance_sq (position c) (position_of x)))) /\
        first_nearest position_of (position c) targets x
  end.
Proof.
  destruct targets as [| y rest]; [reflexivity |].
  apply find_nearest_first.
Qed.

(** ** The champion *)

Section Greatest.

Context {A : Type}.
Variable key : A -> Q.

Lemma first_greatest_most (seen : list A) (x y : A) :
  first_greatest key seen x -> In y seen -> key y <= key x.
Proof.
  intros (before & after & -> & Hb & Ha) Hin.
  apply in_app_iff in Hin. destruct Hin as [Hin | [<- | Hin]].
  - apply Qlt_le_weak, Hb, Hin.
  - apply Qle_refl.
  - apply Ha, Hin.
Qed.

Lemma max_by_first (rest seen : list A) (x : A) :
  first_greatest key seen x ->
  first_greatest key (seen ++ rest) (max_by key x rest).
Proof.
  revert seen x. induction rest as [| y rest IH]; intros seen x Hx.
  - rewrite app_nil_r. exact Hx.
  - cbn [max_by].
    replace (seen ++ y :: rest) with ((seen ++ [y]) ++ rest)
      by (rewrite <- app_assoc; reflexivity).
    destruct (Qlt_le_dec (key x) (key y)) as [Hlt | Hle]; apply IH.
    + exists seen, []. split; [reflexivity |]. split; [| intros z []].
      intros z Hz. eapply Qle_lt_trans; [| exact Hlt].
      exact (first_greatest_most seen x z Hx Hz).
    + destruct Hx as (before & after & -> & Hb & Ha).
      exists before, (after ++ [y]). split; [now rewrite <- app_assoc |].
      split; [exact Hb |].
      intros z Hz. apply in_app_iff in Hz. destruct Hz as [Hz | [<- | []]].
      * apply Ha, Hz.
      * exact Hle.
Qed.

End Greatest.

(** X17.  [export_champion] has no champion when there is no creature;
    otherwise the champion is a creature of the list whose score
    [generation * 10 + energy] no other exceeds, the first of the list
    among those with that score. *)
Theorem champion_is_first_greatest (creatures : list creature) :
  match creatures with
  | [] => champion creatures = None
  | _ :: _ =>
      exists c, champion creatures = Some c /\
                first_greatest score creatures c
  end.
Proof.
  destruct creatures as [| c rest]; [reflexivity |].
  exists (max_by score c rest). split; [reflexivity |].
  apply (max_by_first score rest [c] c).
  exists [], []. split; [reflexivity |]. split; intros y [].
Qed.

End NearestFacts.

(** * What a turn does to the creatures *)

Module TurnEffects.

Import Random Config Dna Creature World DrawProps GenomeProps CreatureProps
  LoopProps TickProps RandomFacts CreatureFacts ObjectLists TurnFacts.
Local Open Scope Q_scope.

Lemma list_set_same {A : Type} (l : list A) (i : nat) (x : A) :
  nth_error l i = Some x -> list_set l i x = l.
Proof.
  revert i. induction l as [| y l IH]; intros [| i] H; cbn in *;
    try discriminate; try reflexivity.
  - now injection H as ->.
  - now rewrite IH.
Qed.

Lemma list_set_twice {A : Type} (l : list A) (i : nat) (x y : A) :
  list_set (list_set l i x) i y = list_set l i y.
Proof.
  revert i. induction l as [| z l IH]; intros [| i]; cbn; try reflexivity.
  now rewrite IH.
Qed.

(** ** The methods of a turn leave age and body alone *)

Lemma same_tick_refl (c : creature) : same_tick c c.
Proof. split; [apply evolves_refl | reflexivity | reflexivity]. Qed.

Lemma same_tick_trans (a b c : creature) :
  same_tick a b -> same_tick b c -> same_tick a c.
Proof.
  intros [A1 A2 A3] [B1 B2 B3]. split; [| congruence | congruence].
  exact (evolves_trans _ _ _ A1 B1).
Qed.

Lemma same_tick_clamp (c : creature) : same_tick c (_clamp_to_world c).
Proof.
  split; [apply evolves_clamp | |];
    unfold _clamp_to_world; destruct (negb (obj c)); try reflexivity;
    destruct (position c) as [[x y] z]; reflexivity.
Qed.

Lemma same_tick_move_towards (fsqrt : Q -> Q) (c : creature) (target : vec) :
  same_tick c (move_towards fsqrt c target).
Proof.
  unfold move_towards. destruct (negb (obj c)); [apply same_tick_refl |].
  destruct target as [[tx ty] tz]. destruct (position c) as [[x y] z].
  eapply same_tick_trans; [| apply same_tick_clamp].
  destruct (Qlt_le_dec _ _); [| apply same_tick_refl].
  split; [split; cbn; auto | reflexivity | reflexivity].
Qed.

Lemma same_tick_move_random (fsqrt : Q -> Q) (c : creature) (t : tape) (i : nat) :
  same_tick c (fst (move_random fsqrt c t i)).
Proof.
  unfold move_random. destruct (negb (obj c)); [apply same_tick_refl |].
  unfold uniform, bind, random, ret.
  destruct (position c) as [[x y] z]. cbn [fst].
  eapply same_tick_trans; [| apply same_tick_clamp].
  destruct (Qlt_le_dec _ _); [| apply same_tick_refl].
  split; [split; cbn; auto | reflexivity | reflexivity].
Qed.

Lemma same_tick_eat (c : creature) (p : Plant.plant) : same_tick c (eat c p).
Proof. split; [apply evolves_eat | reflexivity | reflexivity]. Qed.

Lemma same_tick_attack (c prey : creature) (t : tape) (i : nat) :
  same_tick c (fst (fst (attack c prey t i))).
Proof. split; [apply evolves_attack | reflexivity | reflexivity]. Qed.

Lemma same_tick_devour (c victim : creature) :
  same_tick c (fst (devour c victim)).
Proof. split; [apply evolves_devour | reflexivity | reflexivity]. Qed.

Lemma same_tick_after_mating (c : creature) : same_tick c (after_mating c).
Proof. split; [apply evolves_after_mating | reflexivity | reflexivity]. Qed.

(** ** Outcomes *)

Lemma outcome_put (t : tape) (st : pass_state) (i : nat) (c c' : creature) :
  same_tick c c' -> outcome t i c st (put_creature st i c') c'.
Proof. intros H. apply went_alone; [exact H | reflexivity ..]. Qed.

Lemma outcome_moved (t : tape) (i : nat) (c : creature) (st st2 st' : pass_state)
    (c' : creature) :
  outcome t i c st st2 c' ->
  st_world st' = st_world st2 -> new_children st' = new_children st2 ->
  outcome t i c st st' c'.
Proof.
  intros H Hw Hc. destruct H.
  - apply went_alone; try rewrite Hw; try rewrite Hc; assumption.
  - eapply mated; try rewrite Hw; try rewrite Hc; eassumption.
Qed.

Lemma outcome_rebase (t : tape) (i : nat) (c : creature) (st st2 : pass_state)
    (c0 c' : creature) :
  nth_error (creatures (st_world st)) i = Some c0 ->
  outcome t i c (put_creature st i c) st2 c' ->
  outcome t i c st st2 c'.
Proof.
  intros Hn H. destruct H as [c' Hs Hcs Hcn Hr Hch | j mate child Hj Hm Hf Hfm Hcs Hb Hid Hch Hcn Hr].
  - apply went_alone; try assumption.
    rewrite Hcs. cbn. apply list_set_twice.
  - cbn in Hm. rewrite nth_error_list_set_other in Hm by congruence.
    eapply mated; try eassumption.
    rewrite Hcs. cbn. now rewrite list_set_twice.
Qed.

Lemma outcome_place (t : tape) (i : nat) (c : creature) (st st2 : pass_state)
    (c0 c' : creature) :
  nth_error (creatures (st_world st)) i = Some c0 ->
  outcome t i c st st2 c' ->
  nth_error (creatures (st_world st2)) i = Some c'.
Proof.
  intros Hn H. destruct H as [c' Hs Hcs Hcn Hr Hch | j mate child Hj Hm Hf Hfm Hcs Hb Hid Hch Hcn Hr];
    rewrite Hcs.
  - eapply nth_error_list_set_same, Hn.
  - rewrite nth_error_list_set_other by exact Hj.
    eapply nth_error_list_set_same, Hn.
Qed.

Section Branches.

Variable fsqrt : Q -> Q.

Lemma satiated_outcome (st : pass_state) (i : nat) (c : creature)
    (others : list (nat * creature)) (t : tape) (cur : nat) :
  nth_error (creatures (st_world st)) i = Some c -> fed c ->
  (forall j x, In (j, x) others ->
     j <> i /\ nth_error (creatures (st_world st)) j = Some x) ->
  exists c',
    outcome t i c st (fst (satiated_turn fsqrt st i c others t cur)) c' /\
    dead (fst (satiated_turn fsqrt st i c others t cur)) = dead st.
Proof.
  intros Hn Hfed Ho. unfold satiated_turn.
  assert (Hwander :
    exists c',
      outcome t i c st
        (fst (bind (move_random fsqrt c)
                (fun c' => ret (put_creature st i c')) t cur)) c' /\
      dead (fst (bind (move_random fsqrt c)
                   (fun c' => ret (put_creature st i c')) t cur)) = dead st).
  { unfold bind, ret.
    pose proof (same_tick_move_random fsqrt c t cur) as He.
    destruct (move_random fsqrt c t cur) as [c' cur']. cbn [fst] in *.
    exists c'. split; [now apply outcome_put | reflexivity]. }
  destruct (can_mate c && _)%bool eqn:Ecap; [| exact Hwander].
  destruct (filter _ others) as [| m ms] eqn:Ef; [exact Hwander |].
  destruct (find_nearest fsqrt creature_position c (m :: ms))
    as [[[j mate] |] dist] eqn:En.
  2: { cbn [ret fst]. exists c. split; [| reflexivity].
       apply went_alone; try reflexivity; [apply same_tick_refl |].
       symmetry. now apply list_set_same. }
  assert (Hin : In (j, mate) (filter
                   (fun x => can_mate (snd x)
                             && Qle_bool SATISFIED_ENERGY (energy (snd x)))
                   others)).
  { rewrite Ef. apply (find_nearest_in creature_position fsqrt c).
    now rewrite En. }
  apply filter_In in Hin. destruct Hin as [Hin Hmate]. cbn [snd] in Hmate.
  apply andb_prop in Hmate. destruct Hmate as [_ Hmfed].
  destruct (Ho j mate Hin) as [Hji Hnj].
  destruct (xltb dist (Fin MATING_RANGE)).
  - unfold bind, ret.
    destruct (mate_with_result (counter (st_world st)) c mate t cur) as (nm & E).
    destruct (mate_with (counter (st_world st)) c mate t cur)
      as [[[c' mate'] child] cur'].
    cbn [fst] in E. injection E as -> -> ->. cbn [fst].
    exists (after_mating c). split; [| reflexivity].
    match goal with
    | |- context [new_children st ++ [?ch]] =>
        apply mated with (j := j) (mate := mate) (child := ch)
    end; cbn; try reflexivity; try assumption.
    + split; cbn; try reflexivity. exists cur. reflexivity.
    + destruct (Z.ltb_spec (generation_record (st_world st))
                  (Z.max (generation c) (generation mate) + 1)); lia.
  - cbn [ret fst]. eexists. split; [| reflexivity].
    apply outcome_put, same_tick_move_towards.
Qed.

Lemma hungry_outcome (st : pass_state) (i : nat) (c : creature)
    (act : hungry_action) (t : tape) (cur : nat) :
  exists c',
    outcome t i c st (fst (hungry_turn fsqrt st i c act t cur)) c' /\
    dead (fst (hungry_turn fsqrt st i c act t cur)) = dead st.
Proof.
  unfold hungry_turn.
  destruct act as [[k plant] | [j prey] | [k plant] | [j other] |].
  - cbn [ret fst]. exists (eat c plant). split; [| reflexivity].
    eapply outcome_moved; [apply (outcome_put t st i c), same_tick_eat | |];
      reflexivity.
  - unfold bind, ret.
    pose proof (same_tick_attack c prey t cur) as Ha.
    destruct (attack c prey t cur) as [[c' won] cur']. cbn [fst] in Ha.
    destruct won; cbn [fst].
    + exists (fst (devour c' prey)). split; [| reflexivity].
      eapply outcome_moved;
        [apply (outcome_put t st i c);
         eapply same_tick_trans; [exact Ha | apply same_tick_devour] | |];
        reflexivity.
    + exists c'. split; [now apply outcome_put | reflexivity].
  - cbn [ret fst]. eexists. split; [| reflexivity].
    apply outcome_put, same_tick_move_towards.
  - cbn [ret fst]. eexists. split; [| reflexivity].
    apply outcome_put, same_tick_move_towards.
  - unfold bind, ret.
    pose proof (same_tick_move_random fsqrt c t cur) as He.
    destruct (move_random fsqrt c t cur) as [c' cur']. cbn [fst] in *.
    exists c'. split; [now apply outcome_put | reflexivity].
Qed.

Lemma turn_effect_holds (st : pass_state) (i : nat) (t : tape) (cur : nat) :
  turn_effect t i st (fst (turn fsqrt st i t cur)).
Proof.
  unfold turn.
  destruct (nth_error (creatures (st_world st)) i) as [c0 |] eqn:Hn.
  2: { left. split; [reflexivity | now left]. }
  destruct (mem i (killed st)) eqn:Hk.
  { left. split; [reflexivity |]. right. now apply mem_In. }
  apply mem_not_In in Hk.
  right. exists c0.
  set (st1 := put_creature st i (update c0)).
  assert (Hn1 : nth_error (creatures (st_world st1)) i = Some (update c0)).
  { cbn. eapply nth_error_list_set_same, Hn. }
  destruct (find_nearest fsqrt plant_position (update c0)
              (indexed (plants (st_world st1)))) as [np pd].
  destruct (find_nearest fsqrt creature_position (update c0)
              (other_creatures_of st1 i)) as [no od].
  assert (Hbranch :
    exists c',
      outcome t i (update c0) st1
        (fst ((if Qle_bool SATISFIED_ENERGY (energy (update c0))
               then satiated_turn fsqrt st1 i (update c0) (other_creatures_of st1 i)
               else hungry_turn fsqrt st1 i (update c0)
                      (hungry_choice np pd no od)) t cur)) c' /\
      dead (fst ((if Qle_bool SATISFIED_ENERGY (energy (update c0))
                  then satiated_turn fsqrt st1 i (update c0)
                         (other_creatures_of st1 i)
                  else hungry_turn fsqrt st1 i (update c0)
                         (hungry_choice np pd no od)) t cur)) = dead st1).
  { destruct (Qle_bool SATISFIED_ENERGY (energy (update c0))) eqn:Ef.
    - apply satiated_outcome; [exact Hn1 | exact Ef |].
      intros j x Hin. apply other_creatures_in in Hin. tauto.
    - apply hungry_outcome. }
  unfold bind.
  destruct ((if Qle_bool SATISFIED_ENERGY (energy (update c0))
             then satiated_turn fsqrt st1 i (update c0) (other_creatures_of st1 i)
             else hungry_turn fsqrt st1 i (update c0)
                    (hungry_choice np pd no od)) t cur) as [st2 cur2].
  cbn [fst] in Hbranch. destruct Hbranch as (c' & Hout & Hdead).
  apply (outcome_rebase t i (update c0) st st2 c0 c' Hn) in Hout.
  pose proof (outcome_place t i (update c0) st st2 c0 c' Hn Hout) as Hplace.
  exists c'. split; [exact Hn |]. split; [exact Hk |].
  rewrite Hplace.
  destruct (is_dead c'); cbn [ret fst].
  - split; [| cbn; now rewrite Hdead].
    eapply outcome_moved; [exact Hout | reflexivity | reflexivity].
  - split; [exact Hout | exact Hdead].
Qed.

End Branches.

End TurnEffects.

(** * What the loop over the creatures does to them *)

Module PassEffects.

Import Random Config Dna Creature World DrawProps GenomeProps CreatureProps
  LoopProps TickProps RandomFacts CreatureFacts ObjectLists TurnFacts TickFacts
  TurnEffects.
Local Open Scope Q_scope.

Lemma Forall2_nth_error {A B : Type} (R : A -> B -> Prop) (l : list A)
    (l' : list B) (j : nat) (y : B) :
  Forall2 R l l' -> nth_error l' j = Some y ->
  exists x, nth_error l j = Some x /\ R x y.
Proof.
  intros H. revert j. induction H as [| a b l l' Hab H IH]; intros [| j] E;
    cbn in *; try discriminate.
  - injection E as <-. eauto.
  - now apply IH.
Qed.

Lemma born_of_evolves (t : tape) (a0 b0 a b child : creature) :
  evolves a0 a -> evolves b0 b -> born_of t a b child -> born_of t a0 b0 child.
Proof.
  intros [_ An Ad Ag _] [_ Bn Bd Bg _] [H1 (i & H2) H3 H4 H5 H6 H7].
  split; try assumption.
  - congruence.
  - exists i. unfold child_genome in *. congruence.
  - congruence.
Qed.

Lemma update_same (c : creature) :
  age (update c) = (age c + 1)%Z /\ obj (update c) = obj c.
Proof. unfold update. cbn. destruct (0 <? _)%Z; split; reflexivity. Qed.

Lemma fed_survives_mating (c : creature) :
  fed c -> is_dead (after_mating c) = false.
Proof.
  unfold fed, is_dead. rewrite Qle_bool_iff. intros H.
  apply not_true_is_false. rewrite Qle_bool_iff. cbn.
  unfold SATISFIED_ENERGY, MATING_COST, STARVATION_THRESHOLD in *. lra.
Qed.

Lemma pending_killed (st st' : pass_state) (j : nat) :
  pending_step st st' -> In j (killed st) -> In j (killed st').
Proof.
  intros [[-> _] | [[-> _] | [_ (v & -> & _)]]] H; try exact H.
  apply in_app_iff. now left.
Qed.

Lemma fold_max_snoc (l : list Z) (r x : Z) :
  fold_left Z.max (l ++ [x]) r = Z.max (fold_left Z.max l r) x.
Proof. now rewrite fold_left_app. Qed.

Section Pass.

Variable fsqrt : Q -> Q.

Lemma pass_facts_init (t : tape) (w : world) :
  pass_facts t w 0 (mk_pass w [] [] [] []).
Proof.
  split; cbn.
  - intros j c Hj. lia.
  - intros j c0 c H0 H. rewrite H0 in H. injection H as <-.
    split; [reflexivity |]. split; [lia | reflexivity].
  - lia.
  - reflexivity.
  - reflexivity.
  - constructor.
  - lia.
Qed.

Lemma pass_facts_turn (t : tape) (w : world) (k : nat) (st : pass_state)
    (cur : nat) :
  pass_inv w k st -> pass_facts t w k st ->
  pass_facts t w (S k) (fst (turn fsqrt st k t cur)).
Proof.
  intros Hinv [F1 F2 F3 F4 F5 F6 F7].
  destruct (turn_spec_holds fsqrt st k t cur) as [[S1 S2 S3 S4] S5].
  pose proof (turn_effect_holds fsqrt st k t cur) as Heff.
  set (st' := fst (turn fsqrt st k t cur)) in *.
  assert (Hkilled : forall j, ~ In j (killed st') -> ~ In j (killed st)).
  { intros j Hn Hin. apply Hn. eapply pending_killed; eassumption. }
  assert (Heaten : (List.length (eaten_plants st') <= S k)%nat).
  { destruct S3 as [-> | (p & -> & _)]; [lia |].
    rewrite length_app. cbn. lia. }
  destruct Heff as [[E Hwhy] | (c0 & c' & Hn & Hk & Hout & Hdead)].
  - rewrite E. split; try assumption.
    + intros j c Hj Hnk Hnd Hc.
      destruct (Nat.eq_dec j k) as [-> | Hne].
      * destruct Hwhy as [Hnone | Hin]; [congruence | contradiction].
      * apply (F1 j c); [lia | assumption ..].
    + intros j a c Ha Hc. destruct (F2 j a c Ha Hc) as (Ho & Hlt & Hge).
      split; [exact Ho |]. split.
      * intros Hj Hnk. destruct (Nat.eq_dec j k) as [-> | Hne].
        -- destruct Hwhy as [Hnone | Hin]; [congruence | contradiction].
        -- apply Hlt; [lia | exact Hnk].
      * intros Hj. apply Hge. lia.
    + rewrite <- E. exact Heaten.
  - assert (Hdead_keeps : forall j, ~ In j (dead st') -> ~ In j (dead st)).
    { intros j Hnd Hin. apply Hnd. rewrite Hdead.
      destruct (is_dead c'); [apply in_app_iff; now left | exact Hin]. }
    assert (Hown : ~ In k (dead st') -> is_dead c' = false).
    { intros Hnd. destruct (is_dead c') eqn:E; [| reflexivity].
      exfalso. apply Hnd. rewrite Hdead. apply in_app_iff. right. now left. }
    destruct (update_same c0) as [Uage Uobj].
    clear Hdead.
    destruct Hout as [c' Hs Hcs Hcn Hr Hch
                     | j0 mate child Hj Hm Hf Hfm Hcs Hb Hid Hch Hcn Hr].
    + (* nobody is born *)
      destruct Hs as [Hev Hage Hobj].
      split.
      * intros j c Hj Hnk Hnd Hc. rewrite Hcs in Hc.
        destruct (Nat.eq_dec j k) as [-> | Hne].
        -- rewrite (nth_error_list_set_same _ _ _ _ Hn) in Hc.
           injection Hc as <-. now apply Hown.
        -- rewrite nth_error_list_set_other in Hc by congruence.
           apply (F1 j c); [lia | now apply Hkilled | now apply Hdead_keeps
                           | exact Hc].
      * intros j a c Ha Hc. rewrite Hcs in Hc.
        destruct (Nat.eq_dec j k) as [-> | Hne].
        -- rewrite (nth_error_list_set_same _ _ _ _ Hn) in Hc.
           injection Hc as <-.
           destruct (F2 k a c0 Ha Hn) as (Ho & _ & Hge).
           specialize (Hge (Nat.le_refl k)).
           split; [congruence |]. split; [intros _ _; lia | lia].
        -- rewrite nth_error_list_set_other in Hc by congruence.
           destruct (F2 j a c Ha Hc) as (Ho & Hlt & Hge).
           split; [exact Ho |]. split.
           ++ intros Hj Hnk. apply Hlt; [lia | now apply Hkilled].
           ++ intros Hj. apply Hge. lia.
      * rewrite Hcn, Hch. exact F3.
      * rewrite Hch. exact F4.
      * rewrite Hr, Hch. exact F5.
      * rewrite Hch. exact F6.
      * exact Heaten.
    + (* a child is born *)
      assert (Hm1 : nth_error
                      (list_set (creatures (st_world st)) k
                         (after_mating (update c0))) j0 = Some mate).
      { rewrite nth_error_list_set_other by congruence. exact Hm. }
      split.
      * intros j c Hjk Hnk Hnd Hc. rewrite Hcs in Hc.
        destruct (Nat.eq_dec j j0) as [-> | Hne0].
        -- rewrite (nth_error_list_set_same _ _ _ _ Hm1) in Hc.
           injection Hc as <-. now apply fed_survives_mating.
        -- rewrite nth_error_list_set_other in Hc by congruence.
           destruct (Nat.eq_dec j k) as [-> | Hne].
           ++ rewrite (nth_error_list_set_same _ _ _ _ Hn) in Hc.
              injection Hc as <-. now apply Hown.
           ++ rewrite nth_error_list_set_other in Hc by congruence.
              apply (F1 j c); [lia | now apply Hkilled | now apply Hdead_keeps
                              | exact Hc].
      * intros j a c Ha Hc. rewrite Hcs in Hc.
        destruct (Nat.eq_dec j j0) as [-> | Hne0].
        -- rewrite (nth_error_list_set_same _ _ _ _ Hm1) in Hc.
           injection Hc as <-.
           destruct (F2 j0 a mate Ha Hm) as (Ho & Hlt & Hge).
           split; [exact Ho |]. split.
           ++ intros Hjk Hnk. cbn. apply Hlt; [lia | now apply Hkilled].
           ++ intros Hjk. cbn. apply Hge. lia.
        -- rewrite nth_error_list_set_other in Hc by congruence.
           destruct (Nat.eq_dec j k) as [-> | Hne].
           ++ rewrite (nth_error_list_set_same _ _ _ _ Hn) in Hc.
              injection Hc as <-.
              destruct (F2 k a c0 Ha Hn) as (Ho & _ & Hge).
              specialize (Hge (Nat.le_refl k)).
              split; [cbn [obj after_mating set_children_count
                             set_mating_cooldown set_energy]; congruence |].
              split; [intros _ _ | lia].
              cbn [age after_mating set_children_count set_mating_cooldown
                     set_energy]. lia.
           ++ rewrite nth_error_list_set_other in Hc by congruence.
              destruct (F2 j a c Ha Hc) as (Ho & Hlt & Hge).
              split; [exact Ho |]. split.
              ** intros Hjk Hnk. apply Hlt; [lia | now apply Hkilled].
              ** intros Hjk. apply Hge. lia.
      * rewrite Hcn, Hch, length_app, F3. cbn. lia.
      * rewrite Hch, map_app, length_app, seq_app, F4. cbn [map List.length seq].
        rewrite Hid, F3. repeat f_equal; lia.
      * rewrite Hr, Hch, map_app. cbn [map].
        rewrite fold_max_snoc, F5. reflexivity.
      * rewrite Hch. apply Forall_app. split; [exact F6 |].
        repeat constructor.
        destruct Hinv as [I1 _ _ _ _ _ _ _ _].
        destruct (Forall2_nth_error _ _ _ _ _ I1 Hn) as (a0 & Ha0 & Ea).
        destruct (Forall2_nth_error _ _ _ _ _ I1 Hm) as (b0 & Hb0 & Eb).
        exists a0, b0.
        split; [eapply nth_error_In, Ha0 |].
        split; [eapply nth_error_In, Hb0 |].
        eapply born_of_evolves; [| exact Eb | exact Hb].
        exact (evolves_trans _ _ _ Ea (evolves_update c0)).
      * exact Heaten.
Qed.

Lemma pass_facts_before (t : tape) (w : world) (k : nat) (cur : nat) :
  pass_facts t w k (fst (state_before_turn fsqrt w k t cur)).
Proof.
  induction k as [| k IH].
  - apply pass_facts_init.
  - rewrite state_before_turn_S.
    apply pass_facts_turn; [apply pass_inv_before | exact IH].
Qed.

End Pass.

End PassEffects.

(** * What the end of a tick does to the lists *)

Module SettleFacts.

Import Random Config Dna Creature World DrawProps GenomeProps CreatureProps
  LoopProps TickProps RandomFacts CreatureFacts ObjectLists TurnFacts TickFacts
  TurnEffects PassEffects.
Local Open Scope Q_scope.

(** ** Filters *)

Lemma filter_all {A : Type} (f : A -> bool) (l : list A) :
  (forall x, In x l -> f x = true) -> filter f l = l.
Proof.
  induction l as [| x l IH]; intros H; cbn; [reflexivity |].
  rewrite (H x (or_introl eq_refl)), IH; [reflexivity |].
  intros y Hy. apply H. now right.
Qed.

Lemma filter_twice {A : Type} (f g : A -> bool) (l : list A) :
  filter f (filter g l) = filter (fun x => g x && f x) l.
Proof.
  induction l as [| x l IH]; cbn; [reflexivity |].
  destruct (g x); cbn; [destruct (f x) |]; now rewrite IH.
Qed.

Lemma NoDup_map_filter {A K : Type} (key : A -> K) (keep : A -> bool) :
  forall l : list A, NoDup (map key l) -> NoDup (map key (filter keep l)).
Proof.
  intros l. induction l as [| x l IH]; cbn; intros H; [constructor |].
  inversion H; subst. destruct (keep x); cbn; [constructor |]; auto.
  intros Hin. apply in_map_iff in Hin. destruct Hin as (y & E & Hy).
  apply filter_In in Hy. destruct Hy as [Hy _].
  apply H2. rewrite <- E. now apply in_map.
Qed.

(** ** [list.remove] as a filter *)

Lemma filter_absent {A : Type} (j : nat) (l : list (nat * A)) :
  ~ In j (map fst l) -> filter (fun x => negb (fst x =? j)%nat) l = l.
Proof.
  intros H. apply filter_all. intros [k x] Hx. cbn.
  apply negb_true_iff, Nat.eqb_neq. intros ->.
  apply H. apply in_map_iff. exists (j, x). auto.
Qed.

Lemma remove_obj_absent {A : Type} (j : nat) (l : list (nat * A)) :
  ~ In j (map fst l) -> remove_obj j l = None.
Proof.
  induction l as [| [k x] l IH]; cbn; intros H; [reflexivity |].
  destruct (Nat.eqb_spec k j) as [E | N]; [tauto |].
  rewrite IH; [reflexivity | tauto].
Qed.

Lemma remove_obj_present {A : Type} (j : nat) (l : list (nat * A)) :
  NoDup (map fst l) -> In j (map fst l) ->
  remove_obj j l = Some (filter (fun x => negb (fst x =? j)%nat) l).
Proof.
  induction l as [| [k x] l IH]; cbn; intros Hnd Hin; [contradiction |].
  inversion Hnd; subst.
  destruct (Nat.eqb_spec k j) as [E | N]; cbn.
  - subst. now rewrite filter_absent.
  - destruct Hin as [E | Hin]; [contradiction |].
    now rewrite IH.
Qed.

Lemma remove_obj_either {A : Type} (j : nat) (l : list (nat * A)) :
  NoDup (map fst l) ->
  match remove_obj j l with
  | Some l' => l'
  | None => l
  end = filter (fun x => negb (fst x =? j)%nat) l.
Proof.
  intros Hnd. destruct (in_dec Nat.eq_dec j (map fst l)) as [Hin | Hout].
  - now rewrite remove_obj_present.
  - now rewrite remove_obj_absent, filter_absent.
Qed.

Lemma mem_cons (i j : nat) (l : list nat) :
  mem i (j :: l) = ((i =? j)%nat || mem i l)%bool.
Proof. reflexivity. Qed.

Lemma filter_step {A : Type} (j : nat) (rest : list nat) (l : list (nat * A)) :
  filter (fun x => negb (mem (fst x) rest))
         (filter (fun x => negb (fst x =? j)%nat) l)
  = filter (fun x => negb (mem (fst x) (j :: rest))) l.
Proof.
  rewrite filter_twice. apply filter_ext. intros x.
  rewrite mem_cons. now rewrite negb_orb.
Qed.

Lemma remove_dead_filter (dead : list nat) (cs : list (nat * creature)) :
  NoDup dead -> NoDup (map fst cs) ->
  (forall j, In j dead -> In j (map fst cs)) ->
  remove_dead dead cs = Ok (filter (fun x => negb (mem (fst x) dead)) cs).
Proof.
  revert cs. induction dead as [| j dead IH]; intros cs Hd Hc Hin; cbn [remove_dead].
  - now rewrite filter_all.
  - inversion Hd; subst.
    rewrite remove_obj_present by (auto; apply Hin; now left).
    rewrite IH.
    + now rewrite filter_step.
    + assumption.
    + now apply NoDup_map_filter.
    + intros k Hk. apply in_map_iff.
      destruct (proj1 (in_map_iff _ _ _) (Hin k (or_intror Hk))) as ([k' x] & E & Hx).
      cbn in E. subst k'. exists (k, x). split; [reflexivity |].
      apply filter_In. split; [exact Hx |]. cbn.
      apply negb_true_iff, Nat.eqb_neq. intros ->. contradiction.
Qed.

Lemma remove_eaten_filter (eaten : list nat) (ps : list (nat * Plant.plant)) :
  NoDup (map fst ps) ->
  remove_eaten eaten ps = filter (fun x => negb (mem (fst x) eaten)) ps.
Proof.
  unfold remove_eaten. revert ps.
  induction eaten as [| k eaten IH]; intros ps Hnd; cbn [fold_left].
  - now rewrite filter_all.
  - rewrite remove_obj_either by exact Hnd.
    rewrite IH by (now apply NoDup_map_filter).
    apply filter_step.
Qed.

(** ** Places of an extended list *)

Lemma combine_seq_app {A : Type} (s : nat) (l1 l2 : list A) :
  combine (seq s (List.length (l1 ++ l2))) (l1 ++ l2)
  = combine (seq s (List.length l1)) l1
    ++ combine (seq (s + List.length l1) (List.length l2)) l2.
Proof.
  revert s. induction l1 as [| x l1 IH]; intros s; cbn.
  - now rewrite Nat.add_0_r.
  - replace (s + S (List.length l1))%nat with (S s + List.length l1)%nat by lia.
    now rewrite IH.
Qed.

Lemma map_snd_combine_seq {A : Type} (s : nat) (l : list A) :
  map snd (combine (seq s (List.length l)) l) = l.
Proof.
  revert s. induction l as [| x l IH]; intros s; cbn; [reflexivity |].
  now rewrite IH.
Qed.

Lemma keep_split {A : Type} (gone : list nat) (l1 l2 : list A) :
  (forall j, In j gone -> (j < List.length l1)%nat) ->
  map snd (filter (fun x => negb (mem (fst x) gone)) (indexed (l1 ++ l2)))
  = map snd (filter (fun x => negb (mem (fst x) gone)) (indexed l1)) ++ l2.
Proof.
  intros H. unfold indexed. rewrite combine_seq_app, filter_app, map_app.
  f_equal. rewrite filter_all; [apply map_snd_combine_seq |].
  intros [j x] Hx. cbn. apply negb_true_iff, mem_not_In. intros Hj.
  apply in_combine_seq in Hx. specialize (H j Hj). cbn in Hx. lia.
Qed.

(** ** The four loops after the loop over the creatures *)

Section Settle.

Variable mesh_draws : DNA -> nat.

Lemma add_newborns_exact (children cs : list creature) (t : tape) (cur : nat) :
  fst (add_newborns mesh_draws children cs t cur)
  = cs ++ map (fun child => set_obj child true) children.
Proof.
  revert cs cur. induction children as [| child rest IH]; intros cs cur; cbn.
  - now rewrite app_nil_r.
  - unfold bind, build_mesh. rewrite IH, <- app_assoc. reflexivity.
Qed.

Lemma spawn_creature_exact (w : world) (t : tape) (cur : nat) :
  exists c,
    spawned t c /\ cid c = S (counter w) /\
    fst (spawn_creature mesh_draws w t cur)
    = mk_world (creatures w ++ [c]) (plants w) (generation_record w)
        (S (counter w)).
Proof.
  unfold spawn_creature, bind, ret.
  destruct (random_dna t cur) as [d c1] eqn:Ed.
  unfold init, bind, ret.
  destruct (_generate_name t c1) as [nm c2].
  unfold uniform, bind, random, ret, build_mesh. cbn [fst].
  eexists. split; [| split; [| reflexivity]].
  - split; try reflexivity.
    exists cur. rewrite Ed. reflexivity.
  - reflexivity.
Qed.

Lemma spawn_creatures_exact (n : nat) (w : world) (t : tape) (cur : nat) :
  exists sp,
    creatures (fst (spawn_creatures mesh_draws n w t cur)) = creatures w ++ sp /\
    List.length sp = n /\
    Forall (spawned t) sp /\
    map cid sp = seq (S (counter w)) n /\
    counter (fst (spawn_creatures mesh_draws n w t cur)) = (counter w + n)%nat /\
    generation_record (fst (spawn_creatures mesh_draws n w t cur))
    = generation_record w /\
    plants (fst (spawn_creatures mesh_draws n w t cur)) = plants w.
Proof.
  revert w cur. induction n as [| n IH]; intros w cur; cbn.
  - exists []. rewrite app_nil_r. repeat split; [constructor | lia].
  - unfold bind.
    destruct (spawn_creature_exact w t cur) as (c & Hc & Hid & E).
    destruct (spawn_creature mesh_draws w t cur) as [w1 cur1].
    cbn [fst] in E. subst w1.
    destruct (IH (mk_world (creatures w ++ [c]) (plants w) (generation_record w)
                    (S (counter w))) cur1)
      as (sp & E1 & E2 & E3 & E4 & E5 & E6 & E7).
    cbn [creatures counter generation_record plants] in *.
    exists (c :: sp). rewrite E1, <- app_assoc.
    split; [reflexivity |]. split; [cbn; lia |].
    split; [now constructor |]. split; [cbn; now rewrite Hid, E4 |].
    split; [lia |]. split; assumption.
Qed.

Lemma tick_settle_report (w : world) (k : nat) (st : pass_state) (t : tape)
    (cur : nat) :
  pass_inv w k st ->
  exists w' sp,
    fst (tick_settle mesh_draws st t cur) = Ok w' /\
    creatures w' = survivors st ++ newborns st ++ sp /\
    plants w' = uneaten st /\
    generation_record w' = generation_record (st_world st) /\
    counter w' = (counter (st_world st) + List.length sp)%nat /\
    map cid sp = seq (S (counter (st_world st))) (List.length sp) /\
    Forall (spawned t) sp /\
    List.length sp
    = Z.to_nat (MAX_CREATURES
                - Z.of_nat (List.length (survivors st ++ newborns st))).
Proof.
  intros [I1 I2 I3 I4 I5 I6 I7 I8 I9].
  pose proof (Forall2_evolves_length _ _ I1) as Hlen.
  unfold tick_settle, bind.
  pose proof (add_newborns_exact (new_children st) (creatures (st_world st)) t cur)
    as Ecs.
  destruct (add_newborns mesh_draws (new_children st)
              (creatures (st_world st)) t cur) as [cs cur1].
  cbn [fst] in Ecs. subst cs.
  destruct (add_killed_to_dead_spec (killed st) (dead st) I3) as (Dnd & Din).
  set (gone := add_killed_to_dead (killed st) (dead st)) in *.
  assert (Hgone : forall j, In j gone ->
                    (j < List.length (creatures (st_world st)))%nat).
  { intros j Hj. rewrite Hlen. apply Din in Hj.
    destruct Hj as [Hj | Hj]; [apply I4 in Hj | apply I6 in Hj]; lia. }
  rewrite remove_dead_filter.
  2: exact Dnd.
  2: { rewrite map_fst_indexed. apply seq_NoDup. }
  2: { intros j Hj. rewrite map_fst_indexed. apply in_seq.
       rewrite length_app. apply Hgone in Hj. lia. }
  rewrite keep_split by exact Hgone.
  fold gone. change (map snd (filter (fun x => negb (mem (fst x) gone))
                                (indexed (creatures (st_world st)))))
    with (survivors st).
  change (map (fun child => set_obj child true) (new_children st))
    with (newborns st).
  rewrite remove_eaten_filter by (rewrite map_fst_indexed; apply seq_NoDup).
  change (map snd (filter (fun x => negb (mem (fst x) (eaten_plants st)))
                     (indexed (plants (st_world st)))))
    with (uneaten st).
  set (w2 := mk_world _ _ _ _).
  destruct (spawn_creatures_exact
              (Z.to_nat (MAX_CREATURES - Z.of_nat (List.length (creatures w2))))
              w2 t cur1) as (sp & E1 & E2 & E3 & E4 & E5 & E6 & E7).
  destruct (spawn_creatures mesh_draws _ w2 t cur1) as [w3 cur2].
  cbn [fst] in *. unfold random, ret. cbn [fst].
  exists w3, sp. unfold w2 in *. cbn [creatures counter generation_record plants] in *.
  split; [reflexivity |]. split; [now rewrite E1, <- app_assoc |].
  split; [exact E7 |]. split; [exact E6 |].
  split; [rewrite E5, E2; reflexivity |].
  split; [rewrite E2; exact E4 |]. split; [exact E3 | exact E2].
Qed.

End Settle.

(** ** Before the loop *)

Lemma spawn_plants_exact (n : nat) (w : world) (t : tape) (cur : nat) :
  exists ps,
    plants (fst (spawn_plants n w t cur)) = plants w ++ ps /\
    List.length ps = n /\
    Forall (seeded t) ps /\
    creatures (fst (spawn_plants n w t cur)) = creatures w /\
    counter (fst (spawn_plants n w t cur)) = counter w /\
    generation_record (fst (spawn_plants n w t cur)) = generation_record w.
Proof.
  revert w cur. induction n as [| n IH]; intros w cur; cbn [spawn_plants].
  - exists []. rewrite app_nil_r. repeat split. constructor.
  - unfold bind, spawn_plant. unfold bind, ret.
    destruct (Plant.init t cur) as [p cur1] eqn:Ep. cbv beta iota.
    destruct (IH (mk_world (creatures w) (plants w ++ [p]) (generation_record w)
                    (counter w)) cur1)
      as (ps & E1 & E2 & E3 & E4 & E5 & E6).
    cbn [creatures counter generation_record plants] in *.
    exists (p :: ps). rewrite E1, <- app_assoc.
    split; [reflexivity |]. split; [cbn; lia |].
    split; [| auto].
    constructor; [| exact E3]. exists cur. now rewrite Ep.
Qed.

Lemma tick_pass_report (fsqrt : Q -> Q) (w : world) (t : tape) (cur : nat) :
  exists w1 ps,
    creatures w1 = creatures w /\
    counter w1 = counter w /\
    generation_record w1 = generation_record w /\
    plants w1 = map Plant.update (plants w) ++ ps /\
    List.length ps
    = Z.to_nat (MAX_PLANTS - Z.of_nat (List.length (plants w))) /\
    Forall (seeded t) ps /\
    pass_inv w1 (List.length (creatures w1)) (fst (tick_pass fsqrt w t cur)) /\
    pass_facts t w1 (List.length (creatures w1)) (fst (tick_pass fsqrt w t cur)).
Proof.
  unfold tick_pass, bind.
  set (w0 := mk_world _ _ _ _).
  destruct (spawn_plants_exact
              (Z.to_nat (MAX_PLANTS - Z.of_nat (List.length (plants w0))))
              w0 t cur) as (ps & E1 & E2 & E3 & E4 & E5 & E6).
  destruct (spawn_plants _ w0 t cur) as [w1 cur1]. cbn [fst] in *.
  exists w1, ps. unfold w0 in *.
  cbn [creatures counter generation_record plants] in *.
  rewrite length_map in E2.
  repeat (split; [assumption |]).
  rewrite decision_pass_is_last_state.
  split; [apply pass_inv_before | apply pass_facts_before].
Qed.

End SettleFacts.

(** * What a tick does to the world *)

Module TickEffects.

Import Random Config Dna Creature World DrawProps GenomeProps CreatureProps
  BodyProps LoopProps TickProps RandomFacts DnaFacts CreatureFacts LifeFacts
  ObjectLists TurnFacts TickFacts TurnEffects PassEffects SettleFacts.
Local Open Scope Q_scope.

Lemma tick_has_report (fsqrt : Q -> Q) (md : DNA -> nat) (w : world) (t : tape)
    (cur : nat) :
  exists w1 ps w' sp,
    fst (tick fsqrt md w t cur) = Ok w' /\
    tick_report t w w1 ps (fst (tick_pass fsqrt w t cur)) w' sp.
Proof.
  destruct (tick_pass_report fsqrt w t cur)
    as (w1 & ps & P1 & P2 & P3 & P4 & P5 & P6 & P7 & P8).
  unfold tick, bind.
  destruct (tick_pass fsqrt w t cur) as [st cur1]. cbn [fst] in *.
  destruct (tick_settle_report md w1 _ st t cur1 P7)
    as (w' & sp & S1 & S2 & S3 & S4 & S5 & S6 & S7 & S8).
  exists w1, ps, w', sp. split; [exact S1 |]. split; assumption.
Qed.

(** A tick that returns, and its report. *)
Lemma tick_report_of (fsqrt : Q -> Q) (md : DNA -> nat) (w w' : world)
    (t : tape) (cur : nat) :
  fst (tick fsqrt md w t cur) = Ok w' ->
  exists w1 ps sp,
    tick_report t w w1 ps (fst (tick_pass fsqrt w t cur)) w' sp.
Proof.
  intros E.
  destruct (tick_has_report fsqrt md w t cur) as (w1 & ps & w2 & sp & E2 & R).
  rewrite E in E2. injection E2 as <-. now exists w1, ps, sp.
Qed.

(** ** Where the creatures of the new list come from *)

Section Report.

Variables (t : tape) (w w1 : world) (ps : list Plant.plant) (st : pass_state)
  (w' : world) (sp : list creature).
Hypothesis R : tick_report t w w1 ps st w' sp.

Lemma survivor_place (c : creature) :
  In c (survivors st) ->
  exists j c0,
    nth_error (creatures (st_world st)) j = Some c /\
    nth_error (creatures w) j = Some c0 /\ evolves c0 c /\
    ~ In j (dead st) /\ ~ In j (killed st).
Proof.
  destruct R as [R1 _ _ _ _ _ Rinv _ _ _ _ _ _ _ _].
  destruct Rinv as [I1 _ I3 _ _ _ _ _ _].
  unfold survivors. intros Hin. apply in_map_iff in Hin.
  destruct Hin as ([j x] & E & Hx). cbn in E. subst x.
  apply filter_In in Hx. destruct Hx as [Hx Hgone]. cbn [fst] in Hgone.
  apply negb_true_iff, mem_not_In in Hgone.
  apply in_indexed in Hx.
  destruct (add_killed_to_dead_spec (killed st) (dead st) I3) as (_ & Din).
  destruct (Forall2_nth_error _ _ _ _ _ I1 Hx) as (c0 & Hc0 & Ev).
  exists j, c0. rewrite <- R1.
  split; [exact Hx |]. split; [exact Hc0 |]. split; [exact Ev |].
  split; intros H; apply Hgone, Din; tauto.
Qed.

Lemma survivor_came_through (c : creature) :
  In c (survivors st) -> came_through w c /\ is_dead c = false.
Proof.
  intros Hin. destruct (survivor_place c Hin) as (j & c0 & Hc & Hc0 & Ev & Hd & Hk).
  destruct R as [R1 _ _ _ _ _ Rinv Rfacts _ _ _ _ _ _ _].
  destruct Rfacts as [F1 F2 _ _ _ _ _].
  assert (Hj : (j < List.length (creatures w1))%nat).
  { rewrite R1. eapply nth_error_lt, Hc0. }
  rewrite <- R1 in Hc0.
  destruct (F2 j c0 c Hc0 Hc) as (Ho & Hage & _).
  split.
  - exists c0. rewrite <- R1.
    split; [eapply nth_error_In, Hc0 |]. split; [exact Ev |].
    split; [now apply Hage | exact Ho].
  - now apply (F1 j c).
Qed.

Lemma newborn_origin (c : creature) :
  In c (newborns st) ->
  exists child a b,
    c = set_obj child true /\ In child (new_children st) /\
    In a (creatures w) /\ In b (creatures w) /\ born_of t a b child.
Proof.
  destruct R as [R1 _ _ _ _ _ _ Rfacts _ _ _ _ _ _ _].
  destruct Rfacts as [_ _ _ _ _ F6 _].
  unfold newborns. intros Hin. apply in_map_iff in Hin.
  destruct Hin as (child & <- & Hch).
  rewrite Forall_forall in F6. destruct (F6 child Hch) as (a & b & Ha & Hb & Hborn).
  rewrite R1 in Ha, Hb. exists child, a, b. auto.
Qed.

Lemma newborn_newcomer (c : creature) : In c (newborns st) -> newcomer c.
Proof.
  intros Hin.
  destruct (newborn_origin c Hin) as (child & a & b & -> & _ & _ & _ & Hb).
  destruct Hb as [_ _ He Ha Hc _ _]. repeat split; assumption.
Qed.

Lemma spawned_newcomer (c : creature) : In c sp -> newcomer c.
Proof.
  destruct R as [_ _ _ _ _ _ _ _ _ _ _ _ _ Rsp _].
  rewrite Forall_forall in Rsp. intros Hin.
  destruct (Rsp c Hin) as [_ _ He Ha Hc Ho _]. repeat split; assumption.
Qed.

Lemma newcomer_alive (c : creature) : newcomer c -> is_dead c = false.
Proof.
  intros (_ & He & _). unfold is_dead. now rewrite He.
Qed.

Lemma creatures_after (c : creature) :
  In c (creatures w') <->
  In c (survivors st) \/ In c (newborns st) \/ In c sp.
Proof.
  destruct R as [_ _ _ _ _ _ _ _ Rafter _ _ _ _ _ _].
  rewrite Rafter, !in_app_iff. tauto.
Qed.

(** ** Ids *)

Lemma survivors_cids :
  NoDup (map cid (creatures w)) -> NoDup (map cid (survivors st)).
Proof.
  destruct R as [R1 _ _ _ _ _ Rinv _ _ _ _ _ _ _ _].
  destruct Rinv as [I1 _ _ _ _ _ _ _ _].
  intros Hnd. unfold survivors. rewrite map_map.
  apply NoDup_map_filter.
  rewrite <- (map_map snd cid), map_snd_indexed.
  replace (map cid (creatures (st_world st))) with (map cid (creatures w));
    [exact Hnd |].
  rewrite <- R1. clear - I1.
  induction I1 as [| a b l l' Hab _ IH]; cbn; [reflexivity |].
  destruct Hab as [Hc _ _ _ _]. now rewrite IH, Hc.
Qed.

Lemma newcomers_cids :
  map cid (newborns st ++ sp)
  = seq (S (counter w)) (List.length (newborns st ++ sp)) /\
  counter w' = (counter w + List.length (newborns st ++ sp))%nat.
Proof.
  destruct R as [_ R2 _ _ _ _ _ Rfacts _ _ _ Rc Rids _ _].
  destruct Rfacts as [_ _ F3 F4 _ _ _].
  unfold newborns. rewrite map_app, length_app, seq_app, map_map, length_map.
  cbn [cid set_obj]. rewrite Rids, Rc, F3, R2.
  change (map (fun x => cid x) (new_children st)) with (map cid (new_children st)).
  rewrite F4, R2. split; [reflexivity | lia].
Qed.

Lemma ids_after :
  ids_fresh w -> ids_fresh w' /\ (counter w <= counter w')%nat.
Proof.
  intros [Hnd Hle].
  destruct newcomers_cids as [Hids Hc].
  assert (Hold : forall c, In c (survivors st) -> (cid c <= counter w)%nat).
  { intros c Hin. destruct (survivor_place c Hin) as (j & c0 & _ & Hc0 & Ev & _).
    rewrite Forall_forall in Hle. apply nth_error_In in Hc0.
    destruct Ev as [E _ _ _ _]. rewrite E. now apply Hle. }
  assert (Hafter : creatures w' = survivors st ++ (newborns st ++ sp)).
  { destruct R. assumption. }
  split; [| lia]. unfold ids_fresh. rewrite Hafter, map_app.
  split.
  - apply NoDup_app.
    + now apply survivors_cids.
    + rewrite Hids. apply seq_NoDup.
    + intros n Hn Hn'. apply in_map_iff in Hn. destruct Hn as (c & <- & Hin).
      rewrite Hids in Hn'. apply in_seq in Hn'. specialize (Hold c Hin). lia.
  - apply Forall_app. split.
    + apply Forall_forall. intros c Hin. specialize (Hold c Hin). lia.
    + apply Forall_forall. intros c Hin.
      assert (Hn : In (cid c) (map cid (newborns st ++ sp))) by now apply in_map.
      rewrite Hids in Hn. apply in_seq in Hn. lia.
Qed.

(** ** Generations *)

Lemma fold_max_ge (l : list Z) (r : Z) :
  (r <= fold_left Z.max l r)%Z /\
  forall x, In x l -> (x <= fold_left Z.max l r)%Z.
Proof.
  revert r. induction l as [| y l IH]; intros r; cbn.
  - split; [lia | intros x []].
  - destruct (IH (Z.max r y)) as [H1 H2]. split; [lia |].
    intros x [<- | Hx]; [lia | now apply H2].
Qed.

Lemma record_after :
  record_covers w ->
  record_covers w' /\ (generation_record w <= generation_record w')%Z.
Proof.
  intros [H1 Hall]. rewrite Forall_forall in Hall.
  assert (Hrec : generation_record w'
                 = fold_left Z.max (map generation (new_children st))
                     (generation_record w)).
  { destruct R as [_ _ R3 _ _ _ _ Rfacts _ _ Rr _ _ _ _].
    destruct Rfacts as [_ _ _ _ F5 _ _]. now rewrite Rr, F5, R3. }
  destruct (fold_max_ge (map generation (new_children st)) (generation_record w))
    as [Hge Hin].
  rewrite <- Hrec in Hge, Hin.
  split; [| exact Hge]. split; [lia |].
  apply Forall_forall. intros c Hc. apply creatures_after in Hc.
  destruct Hc as [Hc | [Hc | Hc]].
  - destruct (survivor_place c Hc) as (j & c0 & _ & Hc0 & Ev & _).
    apply nth_error_In in Hc0. destruct Ev as [_ _ _ Eg _]. rewrite Eg.
    specialize (Hall c0 Hc0). lia.
  - destruct (newborn_origin c Hc) as (child & a & b & -> & Hch & Ha & Hb & Hborn).
    cbn [generation set_obj]. destruct Hborn as [Hg _ _ _ _ _ _].
    specialize (Hin (generation child) (in_map generation _ _ Hch)).
    specialize (Hall a Ha). lia.
  - destruct R as [_ _ _ _ _ _ _ _ _ _ _ _ _ Rsp _].
    rewrite Forall_forall in Rsp. destruct (Rsp c Hc) as [Hg _ _ _ _ _ _].
    rewrite Hg. lia.
Qed.

(** ** Genomes *)

Lemma genomes_after :
  unit_draws t ->
  Forall (fun c => dna_kept (dna c)) (creatures w) ->
  Forall (fun c => dna_kept (dna c)) (creatures w').
Proof.
  intros Ht Hall. rewrite Forall_forall in Hall.
  apply Forall_forall. intros c Hc. apply creatures_after in Hc.
  destruct Hc as [Hc | [Hc | Hc]].
  - destruct (survivor_place c Hc) as (j & c0 & _ & Hc0 & Ev & _).
    apply nth_error_In in Hc0. destruct Ev as [_ _ Ed _ _]. rewrite Ed.
    now apply Hall.
  - destruct (newborn_origin c Hc) as (child & a & b & -> & _ & Ha & Hb & Hborn).
    cbn [dna set_obj]. destruct Hborn as [_ (i & Hd) _ _ _ _ _].
    rewrite Hd. unfold child_genome.
    apply (mutate_dna_kept t).
    apply (combine_dna_kept t Ht); now apply Hall.
  - destruct R as [_ _ _ _ _ _ _ _ _ _ _ _ _ Rsp _].
    rewrite Forall_forall in Rsp. destruct (Rsp c Hc) as [_ (i & Hd) _ _ _ _ _].
    rewrite Hd. apply (random_dna_kept t Ht).
Qed.

(** ** Bodies and cooldowns *)

Lemma bodies_after :
  Forall (fun c => obj c = true) (creatures w) ->
  Forall (fun c => obj c = true) (creatures w').
Proof.
  intros Hall. rewrite Forall_forall in Hall.
  apply Forall_forall. intros c Hc. apply creatures_after in Hc.
  destruct Hc as [Hc | [Hc | Hc]].
  - destruct (survivor_came_through c Hc) as [(c0 & Hc0 & _ & _ & Ho) _].
    rewrite Ho. now apply Hall.
  - now destruct (newborn_newcomer c Hc) as (_ & _ & _ & Ho).
  - now destruct (spawned_newcomer c Hc) as (_ & _ & _ & Ho).
Qed.

Lemma alive_after : Forall (fun c => is_dead c = false) (creatures w').
Proof.
  apply Forall_forall. intros c Hc. apply creatures_after in Hc.
  destruct Hc as [Hc | [Hc | Hc]].
  - now destruct (survivor_came_through c Hc).
  - apply newcomer_alive. now apply newborn_newcomer.
  - apply newcomer_alive. now apply spawned_newcomer.
Qed.

(** ** Plants *)

Lemma plants_before_loop :
  plants (st_world st) = map Plant.update (plants w) ++ ps /\
  Z.of_nat (List.length (plants (st_world st)))
  = Z.max (Z.of_nat (List.length (plants w))) MAX_PLANTS.
Proof.
  destruct R as [_ _ _ R4 R5 _ Rinv _ _ _ _ _ _ _ _].
  destruct Rinv as [_ I2 _ _ _ _ _ _ _].
  rewrite I2, R4. split; [reflexivity |].
  rewrite length_app, length_map, R5. lia.
Qed.

Lemma remove_eaten_length (eaten : list nat) (l : list (nat * Plant.plant)) :
  (List.length l <= List.length (remove_eaten eaten l) + List.length eaten)%nat.
Proof.
  unfold remove_eaten. revert l.
  induction eaten as [| k eaten IH]; intros l; cbn [fold_left List.length]; [lia |].
  destruct (remove_obj k l) as [l' |] eqn:E.
  - destruct (remove_obj_spec k l l' E) as (Hl & _). specialize (IH l'). lia.
  - specialize (IH l). lia.
Qed.

Lemma plants_after :
  (Z.of_nat (List.length (plants w'))
   <= Z.max (Z.of_nat (List.length (plants w))) MAX_PLANTS)%Z /\
  (Z.max (Z.of_nat (List.length (plants w))) MAX_PLANTS
   - Z.of_nat (List.length (creatures w))
   <= Z.of_nat (List.length (plants w')))%Z /\
  Forall (plant_origin t w) (plants w').
Proof.
  destruct plants_before_loop as [Hps Hlen].
  assert (Hun : plants w' = uneaten st) by (destruct R; assumption).
  assert (Heaten : (List.length (eaten_plants st) <= List.length (creatures w))%nat).
  { destruct R as [R1 _ _ _ _ _ _ Rfacts _ _ _ _ _ _ _].
    destruct Rfacts as [_ _ _ _ _ _ F7]. now rewrite <- R1. }
  assert (Hseeded : Forall (seeded t) ps) by (destruct R; assumption).
  rewrite Hun. unfold uneaten. rewrite length_map.
  split; [| split].
  - rewrite <- Hlen, <- (indexed_length (plants (st_world st))).
    apply inj_le, filter_length_le.
  - rewrite <- remove_eaten_filter by (rewrite map_fst_indexed; apply seq_NoDup).
    pose proof (remove_eaten_length (eaten_plants st)
                  (indexed (plants (st_world st)))) as H.
    rewrite indexed_length in H. lia.
  - apply Forall_forall. intros p Hp. apply in_map_iff in Hp.
    destruct Hp as ([k x] & E & Hx). cbn in E. subst x.
    apply filter_In in Hx. destruct Hx as [Hx _].
    apply in_indexed, nth_error_In in Hx. rewrite Hps in Hx.
    apply in_app_iff in Hx. destruct Hx as [Hx | Hx].
    + left. apply in_map_iff in Hx. destruct Hx as (p0 & <- & Hp0). eauto.
    + right. rewrite Forall_forall in Hseeded. now apply Hseeded.
Qed.

End Report.

Lemma seeded_on_stair (t : tape) (p : Plant.plant) : seeded t p -> on_stair p.
Proof.
  intros (i & ->). split; cbn; [lia |]. reflexivity.
Qed.

Lemma update_on_stair (p : Plant.plant) : on_stair p -> on_stair (Plant.update p).
Proof.
  intros [Ha He]. destruct (plant_update_fields p) as [Hage _].
  split; [lia |]. rewrite Hage.
  now apply plant_stair_step.
Qed.

Lemma seeded_rooted (t : tape) (p : Plant.plant) :
  unit_draws t -> seeded t p -> rooted p.
Proof.
  intros Ht (i & ->). unfold rooted, pos_x, pos_y, pos_z. cbn.
  destruct (Ht i) as [H0 H1]. destruct (Ht (S i)) as [H2 H3].
  unfold WORLD_SIZE.
  assert (E : 20 / 2 - 2 == 8) by reflexivity.
  assert (E' : - (20) / 2 + 2 == -8) by reflexivity.
  rewrite E, E'. repeat split; lra.
Qed.

Lemma update_rooted (p : Plant.plant) : rooted p -> rooted (Plant.update p).
Proof.
  unfold rooted. destruct (plant_update_fields p) as [_ ->]. auto.
Qed.

(** X18.  After a tick that returns, no creature of the list is dead,
    whatever the world was before: those that [is_dead] found dead at
    the end of their turn and those killed are removed, a creature can
    lose energy after its own turn only as the mate of a later one, which
    needs 70 and takes 30, and the newcomers start with
    [START_ENERGY]. *)
Theorem tick_leaves_no_dead (fsqrt : Q -> Q) (md : DNA -> nat) (w w' : world)
    (t : tape) (cur : nat) :
  fst (tick fsqrt md w t cur) = Ok w' ->
  Forall (fun c => is_dead c = false) (creatures w').
Proof.
  intros E.
  destruct (tick_report_of fsqrt md w w' t cur E) as (w1 & ps & sp & R).
  eapply alive_after, R.
Qed.

Lemma tick_leaves_no_dead_witness :
  exists w',
    fst (tick Library.sqrt_milli Library.joined_mesh_draws trio half_tape 0%nat)
    = Ok w' /\
    Forall (fun c => is_dead c = false) (creatures w').
Proof.
  destruct (fst (tick Library.sqrt_milli Library.joined_mesh_draws trio
                   half_tape 0%nat)) as [w' | e] eqn:E.
  - exists w'. split; [reflexivity |].
    exact (tick_leaves_no_dead Library.sqrt_milli Library.joined_mesh_draws
             trio w' half_tape 0%nat E).
  - vm_compute in E. discriminate E.
Defined.

(** X19.  The list of creatures after a tick that returns is the list
    the loop leaves, without the places that are on [dead] or [killed],
    followed by the newcomers.  The list the loop leaves is the old list
    place by place: at every place a later state of the same creature
    (same id, name, genome and generation).  So every creature that is
    neither killed nor found dead is kept, once, at its place in the
    order; it is exactly one tick older, has the body it had, and is not
    dead.  The newcomers, children and spawned ones, are of age 0, with
    [START_ENERGY], no cooldown, and a body. *)
Theorem tick_ages_the_survivors (fsqrt : Q -> Q) (md : DNA -> nat)
    (w w' : world) (t : tape) (cur : nat) :
  fst (tick fsqrt md w t cur) = Ok w' ->
  let st := fst (tick_pass fsqrt w t cur) in
  exists new,
    creatures w' =
      map snd (filter (fun x => negb (mem (fst x) (gone st)))
                      (indexed (creatures (st_world st)))) ++ new /\
    Forall2 evolves (creatures w) (creatures (st_world st)) /\
    (forall j, In j (gone st) <-> In j (dead st) \/ In j (killed st)) /\
    (forall j c0 c,
       nth_error (creatures w) j = Some c0 ->
       nth_error (creatures (st_world st)) j = Some c ->
       ~ In j (gone st) ->
       age c = (age c0 + 1)%Z /\ obj c = obj c0 /\ is_dead c = false) /\
    Forall newcomer new.
Proof.
  intros E. cbv zeta.
  destruct (tick_report_of fsqrt md w w' t cur E) as (w1 & ps & sp & R).
  set (st := fst (tick_pass fsqrt w t cur)) in *.
  pose proof R as [R1 _ _ _ _ _ Rinv Rfacts Rafter _ _ _ _ _ _].
  pose proof Rinv as [I1 _ I3 _ _ _ _ _ _].
  destruct Rfacts as [F1 F2 _ _ _ _ _].
  destruct (add_killed_to_dead_spec (killed st) (dead st) I3) as (_ & Din).
  exists (newborns st ++ sp).
  split; [exact Rafter |].
  split; [rewrite <- R1; exact I1 |].
  split; [exact Din |].
  split.
  - intros j c0 c Hc0 Hc Hg.
    assert (Hd : ~ In j (dead st)) by (intros H; apply Hg, Din; now left).
    assert (Hk : ~ In j (killed st)) by (intros H; apply Hg, Din; now right).
    assert (Hj : (j < List.length (creatures w1))%nat).
    { rewrite R1. eapply nth_error_lt, Hc0. }
    rewrite <- R1 in Hc0.
    destruct (F2 j c0 c Hc0 Hc) as (Ho & Hage & _).
    split; [now apply Hage |]. split; [exact Ho |].
    now apply (F1 j c).
  - apply Forall_app. split; apply Forall_forall; intros c Hc.
    + eapply newborn_newcomer; eassumption.
    + eapply spawned_newcomer; eassumption.
Qed.

Lemma tick_ages_the_survivors_witness :
  exists w' new,
    fst (tick Library.sqrt_milli Library.joined_mesh_draws trio half_tape 0%nat)
    = Ok w' /\
    creatures w' =
      map snd (filter (fun x => negb (mem (fst x)
                         (gone (fst (tick_pass Library.sqrt_milli trio
                                       half_tape 0%nat)))))
                 (indexed (creatures (st_world
                    (fst (tick_pass Library.sqrt_milli trio half_tape 0%nat))))))
      ++ new /\
    Forall newcomer new.
Proof.
  destruct (fst (tick Library.sqrt_milli Library.joined_mesh_draws trio
                   half_tape 0%nat)) as [w' | e] eqn:E.
  - destruct (tick_ages_the_survivors Library.sqrt_milli
                Library.joined_mesh_draws trio w' half_tape 0%nat E)
      as (new & H1 & _ & _ & _ & H5).
    exists w', new. split; [reflexivity |]. split; [exact H1 | exact H5].
  - vm_compute in E. discriminate E.
Defined.







(** X22.  On a tape of unit draws and for a tick that returns, if every
    creature has a genome with every field in its own range
    ([dna_kept]: [m1] in 3..14, [m2] in 2..12, each curvature in its
    range, depth and branching inside their bounds, scale factor and
    speed positive), so has every creature after the tick: the
    survivors keep their genome, a child gets the mutated crossover of
    two genomes of the list, a spawned creature a random one. *)
Theorem tick_keeps_genomes (fsqrt : Q -> Q) (md : DNA -> nat) (w w' : world)
    (t : tape) (cur : nat) :
  unit_draws t ->
  Forall (fun c => dna_kept (dna c)) (creatures w) ->
  fst (tick fsqrt md w t cur) = Ok w' ->
  Forall (fun c => dna_kept (dna c)) (creatures w').
Proof.
  intros Ht H E.
  destruct (tick_report_of fsqrt md w w' t cur E) as (w1 & ps & sp & R).
  eapply genomes_after; eassumption.
Qed.

Lemma trio_genomes : Forall (fun c => dna_kept (dna c)) (creatures trio).
Proof.
  repeat (apply Forall_cons; [exact starfish_dna_kept |]). apply Forall_nil.
Qed.

Lemma tick_keeps_genomes_witness :
  exists w',
    fst (tick Library.sqrt_milli Library.joined_mesh_draws trio half_tape 0%nat)
    = Ok w' /\
    Forall (fun c => dna_kept (dna c)) (creatures w').
Proof.
  destruct (fst (tick Library.sqrt_milli Library.joined_mesh_draws trio
                   half_tape 0%nat)) as [w' | e] eqn:E.
  - exists w'. split; [reflexivity |].
    exact (tick_keeps_genomes Library.sqrt_milli Library.joined_mesh_draws trio
             w' half_tape 0%nat half_tape_unit trio_genomes E).
  - vm_compute in E. discriminate E.
Defined.


End TickEffects.

(** * A whole simulation *)

Module RunFacts.

Import Random Config Dna Creature World Main DrawProps GenomeProps CreatureProps
  BodyProps LoopProps TickProps RandomFacts DnaFacts CreatureFacts LifeFacts
  ObjectLists TurnFacts TickFacts TurnEffects PassEffects SettleFacts TickEffects.
Local Open Scope Q_scope.

Lemma spawned_alive (t : tape) (c : creature) : spawned t c -> is_dead c = false.
Proof. intros [_ _ He _ _ _ _]. unfold is_dead. now rewrite He. Qed.

Section Run.

Variable fsqrt : Q -> Q.
Variable md : DNA -> nat.
Variable t : tape.

Lemma main_report (cur : nat) :
  exists ps sp,
    plants (fst (main md t cur)) = ps /\ List.length ps = 8%nat /\
    Forall (seeded t) ps /\
    creatures (fst (main md t cur)) = sp /\ List.length sp = 3%nat /\
    Forall (spawned t) sp /\
    map cid sp = [1; 2; 3]%nat /\
    counter (fst (main md t cur)) = 3%nat /\
    generation_record (fst (main md t cur)) = 1%Z.
Proof.
  unfold main, bind.
  destruct (spawn_plants_exact (Z.to_nat MAX_PLANTS) fresh_world t cur)
    as (ps & P1 & P2 & P3 & P4 & P5 & P6).
  destruct (spawn_plants (Z.to_nat MAX_PLANTS) fresh_world t cur) as [w1 cur1].
  cbn [fst] in *.
  destruct (spawn_creatures_exact md (Z.to_nat MAX_CREATURES) w1 t cur1)
    as (sp & C1 & C2 & C3 & C4 & C5 & C6 & C7).
  exists ps, sp. rewrite C7, P1, C1, P4, C5, C6, P5, P6. rewrite P5 in C4.
  cbn in *. repeat split; assumption.
Qed.

Lemma main_settled (cur : nat) : settled (fst (main md t cur)).
Proof.
  destruct (main_report cur) as (ps & sp & E1 & E2 & E3 & E4 & E5 & E6 & E7 & E8 & E9).
  split.
  - rewrite E4, E5. unfold MAX_CREATURES. lia.
  - rewrite E1, E2. unfold MAX_PLANTS, MAX_CREATURES. lia.
  - unfold ids_fresh. rewrite E4, E8. split.
    + rewrite E7. repeat (apply NoDup_cons; [cbn; lia |]). apply NoDup_nil.
    + apply Forall_forall. intros c Hc.
      assert (H : In (cid c) (map cid sp)) by now apply in_map.
      rewrite E7 in H. cbn in H. lia.
  - unfold record_covers. rewrite E4, E9. split; [lia |].
    eapply Forall_impl; [| exact E6]. intros c [Hg _ _ _ _ _ _]. lia.
  - rewrite E4. eapply Forall_impl; [| exact E6]. apply spawned_alive.
  - rewrite E4. eapply Forall_impl; [| exact E6].
    intros c [_ _ _ _ Hc _ _]. unfold cooldown_ok. lia.
  - rewrite E4. eapply Forall_impl; [| exact E6].
    intros c [_ _ _ _ _ Ho _]. exact Ho.
  - rewrite E1. eapply Forall_impl; [| exact E3]. apply seeded_on_stair.
Qed.

Lemma tick_then (w : world) (cur : nat) :
  fst (tick fsqrt md w t cur)
  = fst (tick_settle md (fst (tick_pass fsqrt w t cur)) t
           (snd (tick_pass fsqrt w t cur))).
Proof. unfold tick, bind. destruct (tick_pass fsqrt w t cur). reflexivity. Qed.

Lemma tick_settled (w : world) (cur : nat) :
  settled w ->
  exists w', fst (tick fsqrt md w t cur) = Ok w' /\ settled w'.
Proof.
  intros [H1 H2 H3 H4 H5 H6 H7 H8].
  destruct (tick_has_report fsqrt md w t cur) as (w1 & ps & w' & sp & E & R).
  exists w'. split; [exact E |].
  assert (Hpop : (MAX_CREATURES <= Z.of_nat (List.length (creatures w'))
                  <= MAX_CREATURES + 1)%Z /\
                 Forall cooldown_ok (creatures w')).
  { destruct R as [R1 _ _ _ _ _ Rinv _ _ _ _ _ _ _ _].
    destruct (tick_settle_spec md w1 _ _ t (snd (tick_pass fsqrt w t cur)) Rinv)
      as (w2 & E2 & Hlo & Hhi & _ & Hcd).
    rewrite <- tick_then, E in E2. injection E2 as <-.
    rewrite R1 in Hhi, Hcd. split; [lia | now apply Hcd]. }
  destruct (plants_after t w w1 ps _ w' sp R) as (P1 & P2 & P3).
  split.
  - apply Hpop.
  - unfold MAX_PLANTS, MAX_CREATURES in *. lia.
  - eapply ids_after; eassumption.
  - eapply record_after; eassumption.
  - eapply alive_after; eassumption.
  - apply Hpop.
  - eapply bodies_after; eassumption.
  - rewrite Forall_forall in H8. eapply Forall_impl; [| exact P3].
    intros p [(p0 & Hp0 & ->) | Hs].
    + apply update_on_stair. now apply H8.
    + eapply seeded_on_stair, Hs.
Qed.

Lemma ticks_keep (P : world -> Prop) (n : nat) :
  (forall w cur, P w -> exists w', fst (tick fsqrt md w t cur) = Ok w' /\ P w') ->
  forall w cur, P w ->
  exists w', fst (ticks fsqrt md n w t cur) = Ok w' /\ P w'.
Proof.
  intros Hstep. induction n as [| n IH]; intros w cur Hw; cbn [ticks].
  - exists w. split; [reflexivity | exact Hw].
  - unfold bind. destruct (Hstep w cur Hw) as (w1 & E & Hw1).
    destruct (tick fsqrt md w t cur) as [r cur1]. cbn [fst] in E. subst r.
    apply IH, Hw1.
Qed.

Lemma run_keeps (P : world -> Prop) (n : nat) (cur : nat) :
  (forall cur, P (fst (main md t cur))) ->
  (forall w cur, P w -> exists w', fst (tick fsqrt md w t cur) = Ok w' /\ P w') ->
  exists w', fst (run fsqrt md n t cur) = Ok w' /\ P w'.
Proof.
  intros Hmain Hstep. unfold run, bind.
  specialize (Hmain cur). destruct (main md t cur) as [w cur1]. cbn [fst] in Hmain.
  now apply ticks_keep.
Qed.

Lemma main_in_range (cur : nat) :
  unit_draws t ->
  Forall (fun c => dna_kept (dna c)) (creatures (fst (main md t cur))) /\
  Forall rooted (plants (fst (main md t cur))).
Proof.
  intros Ht.
  destruct (main_report cur) as (ps & sp & E1 & E2 & E3 & E4 & E5 & E6 & _).
  rewrite E1, E4. split.
  - eapply Forall_impl; [| exact E6]. intros c [_ (i & Hd) _ _ _ _ _].
    rewrite Hd. apply (random_dna_kept t Ht).
  - eapply Forall_impl; [| exact E3]. intros p. now apply seeded_rooted.
Qed.

Lemma tick_in_range (w : world) (cur : nat) :
  unit_draws t ->
  Forall (fun c => dna_kept (dna c)) (creatures w) /\ Forall rooted (plants w) ->
  exists w',
    fst (tick fsqrt md w t cur) = Ok w' /\
    Forall (fun c => dna_kept (dna c)) (creatures w') /\ Forall rooted (plants w').
Proof.
  intros Ht [Hg Hp].
  destruct (tick_has_report fsqrt md w t cur) as (w1 & ps & w' & sp & E & R).
  exists w'. split; [exact E |]. split.
  - eapply genomes_after; eassumption.
  - destruct (plants_after t w w1 ps _ w' sp R) as (_ & _ & P3).
    rewrite Forall_forall in Hp. eapply Forall_impl; [| exact P3].
    intros p [(p0 & Hp0 & ->) | Hs].
    + apply update_rooted. now apply Hp.
    + eapply seeded_rooted; eassumption.
Qed.

End Run.

(** X24.  After [main] and any number of ticks, if no call has raised,
    the world is settled: 3 or 4 creatures and 4 to 8 plants; ids all
    different and not above the counter; generations from 1 up to
    [generation_record]; no dead creature in the list, no negative
    cooldown, a body for every creature; and every plant holding the
    yield its age gives it. *)
Theorem simulation_stays_settled (fsqrt : Q -> Q) (md : DNA -> nat) (n : nat)
    (t : tape) (cur : nat) (w : world) :
  fst (run fsqrt md n t cur) = Ok w -> settled w.
Proof.
  intros E.
  destruct (run_keeps fsqrt md t settled n cur) as (w2 & E2 & H).
  - intros cur'. apply main_settled.
  - intros w0 cur'. apply tick_settled.
  - rewrite E in E2. injection E2 as <-. exact H.
Qed.

Lemma simulation_stays_settled_witness :
  exists w,
    fst (run Library.sqrt_milli Library.joined_mesh_draws 2 half_tape 0%nat) = Ok w /\
    settled w.
Proof.
  destruct (fst (run Library.sqrt_milli Library.joined_mesh_draws 2
                   half_tape 0%nat)) as [w | e] eqn:E.
  - exists w. split; [reflexivity |].
    exact (simulation_stays_settled Library.sqrt_milli Library.joined_mesh_draws
             2 half_tape 0%nat w E).
  - vm_compute in E. discriminate E.
Defined.

(** X25.  On a tape of unit draws, after [main] and any number of ticks,
    if no call has raised, every genome has every field in its own range
    ([dna_kept]) and every plant stands inside the square the creatures
    are kept in, at height 0.3. *)
Theorem simulation_stays_in_range (fsqrt : Q -> Q) (md : DNA -> nat) (n : nat)
    (t : tape) (cur : nat) (w : world) :
  unit_draws t ->
  fst (run fsqrt md n t cur) = Ok w ->
  Forall (fun c => dna_kept (dna c)) (creatures w) /\
  Forall rooted (plants w).
Proof.
  intros Ht E.
  destruct (run_keeps fsqrt md t
              (fun w => Forall (fun c => dna_kept (dna c)) (creatures w) /\
                        Forall rooted (plants w)) n cur) as (w2 & E2 & H).
  - intros cur'. now apply main_in_range.
  - intros w0 cur'. now apply tick_in_range.
  - rewrite E in E2. injection E2 as <-. exact H.
Qed.

Lemma simulation_stays_in_range_witness :
  exists w,
    fst (run Library.sqrt_milli Library.joined_mesh_draws 2 half_tape 0%nat) = Ok w /\
    Forall (fun c => dna_kept (dna c)) (creatures w) /\
    Forall rooted (plants w).
Proof.
  destruct (fst (run Library.sqrt_milli Library.joined_mesh_draws 2
                   half_tape 0%nat)) as [w | e] eqn:E.
  - exists w. split; [reflexivity |].
    exact (simulation_stays_in_range Library.sqrt_milli Library.joined_mesh_draws
             2 half_tape 0%nat w half_tape_unit E).
  - vm_compute in E. discriminate E.
Defined.

End RunFacts.

(** * The radius again, and what a turn chooses *)

Module RadiusFacts.

Import Gielis.
Local Open Scope R_scope.

(** X26.  The radius is an even function of the angle: [gielis_r] gives
    the same result, or raises the same exception, at [- angle] as at
    [angle]. *)
Theorem gielis_r_is_even (angle m n1 n2 n3 : R) :
  gielis_r (- angle) m n1 n2 n3 = gielis_r angle m n1 n2 n3.
Proof.
  unfold gielis_r.
  replace (m * - angle) with (- (m * angle)) by ring.
  rewrite Rabs_Ropp.
  replace (- (m * angle) / 4) with (- (m * angle / 4)) by field.
  rewrite cos_neg, sin_neg, Rabs_Ropp. reflexivity.
Qed.

End RadiusFacts.

Module ChoiceFacts.

Import Random Config Dna Creature World DrawProps GenomeProps CreatureProps
  LoopProps TickProps RandomFacts CreatureFacts ObjectLists TurnFacts
  TurnEffects.
Local Open Scope Q_scope.

(** ** The chain of tests of a hungry creature *)

Lemma xltb_or_xleb (a b : xfloat) : xltb a b = false -> xleb b a = true.
Proof.
  destruct a as [x |], b as [y |]; cbn; try reflexivity; try discriminate.
  unfold Qltb. destruct (Qlt_le_dec x y); [discriminate |].
  intros _. now apply Qle_bool_iff.
Qed.

(** What the chain of tests has found true when it picks an action. *)
Lemma hungry_choice_why
    (nearest_plant : option (nat * Plant.plant)) (plant_dist : xfloat)
    (nearest_other : option (nat * creature)) (other_dist : xfloat) :
  match hungry_choice nearest_plant plant_dist nearest_other other_dist with
  | EatPlant p =>
      nearest_plant = Some p /\ xltb plant_dist (Fin EAT_RANGE) = true /\
      (nearest_other = None \/ xltb plant_dist other_dist = true)
  | AttackCreature o =>
      nearest_other = Some o /\ xltb other_dist (Fin CANNIBAL_RANGE) = true /\
      (nearest_plant = None \/ xleb other_dist plant_dist = true)
  | MoveToPlant p =>
      nearest_plant = Some p /\ xltb plant_dist (Fin EAT_RANGE) = false /\
      (nearest_other = None \/ xltb plant_dist other_dist = true)
  | MoveToCreature o =>
      nearest_other = Some o /\ xltb other_dist (Fin CANNIBAL_RANGE) = false /\
      (nearest_plant = None \/ xleb other_dist plant_dist = true)
  | Wander => nearest_plant = None /\ nearest_other = None
  end.
Proof.
  unfold hungry_choice.
  destruct nearest_plant as [p |], nearest_other as [o |];
    cbn [is_some negb andb orb].
  - pose proof (xltb_or_xleb plant_dist other_dist) as Htot.
    destruct (xltb plant_dist other_dist) eqn:E1;
      destruct (xleb other_dist plant_dist) eqn:E2;
      destruct (xltb plant_dist (Fin EAT_RANGE)) eqn:E3;
      destruct (xltb other_dist (Fin CANNIBAL_RANGE)) eqn:E4;
      cbn [andb]; try (specialize (Htot eq_refl); discriminate);
      auto.
  - destruct (xltb plant_dist (Fin EAT_RANGE)) eqn:E3; cbn [andb]; auto.
  - destruct (xltb other_dist (Fin CANNIBAL_RANGE)) eqn:E4; cbn [andb]; auto.
  - auto.
Qed.

(** ** Satiated or hungry *)

Section Turn.

Variable fsqrt : Q -> Q.

Lemma satiated_turn_keeps (st : pass_state) (i : nat) (c : creature)
    (others : list (nat * creature)) (t : tape) (cur : nat) :
  eaten_plants (fst (satiated_turn fsqrt st i c others t cur)) = eaten_plants st /\
  killed (fst (satiated_turn fsqrt st i c others t cur)) = killed st.
Proof.
  unfold satiated_turn.
  assert (Hwander :
    eaten_plants (fst (bind (move_random fsqrt c)
                         (fun c' => ret (put_creature st i c')) t cur))
    = eaten_plants st /\
    killed (fst (bind (move_random fsqrt c)
                   (fun c' => ret (put_creature st i c')) t cur)) = killed st).
  { unfold bind, ret. destruct (move_random fsqrt c t cur). split; reflexivity. }
  destruct (can_mate c && _)%bool; [| exact Hwander].
  destruct (filter _ others) as [| m ms]; [exact Hwander |].
  destruct (find_nearest fsqrt creature_position c (m :: ms))
    as [[[j mate] |] dist]; [| split; reflexivity].
  destruct (xltb dist (Fin MATING_RANGE)); [| split; reflexivity].
  unfold bind, ret.
  destruct (mate_with (counter (st_world st)) c mate t cur)
    as [[[c' mate'] child] cur'].
  split; reflexivity.
Qed.

Lemma hungry_turn_keeps (st : pass_state) (i : nat) (c : creature)
    (act : hungry_action) (t : tape) (cur : nat) :
  new_children (fst (hungry_turn fsqrt st i c act t cur)) = new_children st /\
  counter (st_world (fst (hungry_turn fsqrt st i c act t cur)))
  = counter (st_world st) /\
  generation_record (st_world (fst (hungry_turn fsqrt st i c act t cur)))
  = generation_record (st_world st).
Proof.
  unfold hungry_turn.
  destruct act as [[k plant] | [j prey] | [k plant] | [j other] |];
    try (repeat split; reflexivity).
  - unfold bind, ret. destruct (attack c prey t cur) as [[c' won] cur'].
    destruct won; repeat split; reflexivity.
  - unfold bind, ret. destruct (move_random fsqrt c t cur).
    repeat split; reflexivity.
Qed.

Lemma turn_tail_keeps (i : nat) (m : Rand pass_state) (t : tape) (cur : nat) :
  let st' :=
    fst (bind m (fun st2 =>
           match nth_error (creatures (st_world st2)) i with
           | Some c =>
               if is_dead c
               then ret (mk_pass (st_world st2) (dead st2 ++ [i])
                           (eaten_plants st2) (new_children st2) (killed st2))
               else ret st2
           | None => ret st2
           end) t cur) in
  st_world st' = st_world (fst (m t cur)) /\
  eaten_plants st' = eaten_plants (fst (m t cur)) /\
  new_children st' = new_children (fst (m t cur)) /\
  killed st' = killed (fst (m t cur)).
Proof.
  cbv zeta. unfold bind. destruct (m t cur) as [st2 cur2]. cbn [fst].
  destruct (nth_error (creatures (st_world st2)) i) as [c |];
    [destruct (is_dead c) |]; repeat split; reflexivity.
Qed.

(** The turn of a hungry creature: [update], the two searches, the
    action the chain of tests picks, and the test [is_dead], which
    writes on [dead] only. *)
Lemma hungry_turn_unfold (st : pass_state) (i : nat) (c0 : creature)
    (t : tape) (cur : nat) :
  nth_error (creatures (st_world st)) i = Some c0 ->
  mem i (killed st) = false ->
  Qle_bool SATISFIED_ENERGY (energy (update c0)) = false ->
  let c := update c0 in
  let act :=
    hungry_choice (fst (nearest_plant_seen fsqrt st i c))
                  (snd (nearest_plant_seen fsqrt st i c))
                  (fst (nearest_other_seen fsqrt st i c))
                  (snd (nearest_other_seen fsqrt st i c)) in
  let st2 := fst (hungry_turn fsqrt (put_creature st i c) i c act t cur) in
  let st' := fst (turn fsqrt st i t cur) in
  st_world st' = st_world st2 /\ eaten_plants st' = eaten_plants st2 /\
  new_children st' = new_children st2 /\ killed st' = killed st2.
Proof.
  intros Hn Hk Hh. cbv zeta. unfold turn. rewrite Hn, Hk. cbv zeta.
  unfold nearest_plant_seen, nearest_other_seen.
  destruct (find_nearest fsqrt plant_position (update c0) _) as [np pd].
  destruct (find_nearest fsqrt creature_position (update c0) _) as [no od].
  cbn [fst snd]. rewrite Hh.
  match goal with
  | |- context [bind ?m _] => exact (turn_tail_keeps i m t cur)
  end.
Qed.

(** What each action does to the state [st1] the creature at place [i]
    finds, the creature being in state [c]: to the creature itself, to
    [eaten_plants] and to [killed]. *)
Lemma hungry_turn_does (st1 : pass_state) (i : nat) (c1 c : creature)
    (act : hungry_action) (t : tape) (cur : nat) :
  nth_error (creatures (st_world st1)) i = Some c1 ->
  let st2 := fst (hungry_turn fsqrt st1 i c act t cur) in
  let mine := nth_error (creatures (st_world st2)) i in
  match act with
  | EatPlant (k, plant) =>
      mine = Some (eat c plant) /\
      eaten_plants st2 = eaten_plants st1 ++ [k] /\ killed st2 = killed st1
  | AttackCreature (j, prey) =>
      let fight := fst (attack c prey t cur) in
      mine = Some (if snd fight then fst (devour (fst fight) prey)
                   else fst fight) /\
      eaten_plants st2 = eaten_plants st1 /\
      killed st2 = (if snd fight then killed st1 ++ [j] else killed st1)
  | MoveToPlant (_, plant) =>
      mine = Some (move_towards fsqrt c (Plant.position plant)) /\
      eaten_plants st2 = eaten_plants st1 /\ killed st2 = killed st1
  | MoveToCreature (_, other) =>
      mine = Some (move_towards fsqrt c (position other)) /\
      eaten_plants st2 = eaten_plants st1 /\ killed st2 = killed st1
  | Wander =>
      mine = Some (fst (move_random fsqrt c t cur)) /\
      eaten_plants st2 = eaten_plants st1 /\ killed st2 = killed st1
  end.
Proof.
  intros Hn. cbv zeta. unfold hungry_turn.
  destruct act as [[k plant] | [j prey] | [k plant] | [j other] |].
  - cbn. split; [| split; reflexivity].
    exact (nth_error_list_set_same _ _ _ _ Hn).
  - unfold bind, ret. destruct (attack c prey t cur) as [[c' won] cur'].
    cbn [fst snd]. destruct won; cbn;
      (split; [exact (nth_error_list_set_same _ _ _ _ Hn) | split; reflexivity]).
  - cbn. split; [| split; reflexivity].
    exact (nth_error_list_set_same _ _ _ _ Hn).
  - cbn. split; [| split; reflexivity].
    exact (nth_error_list_set_same _ _ _ _ Hn).
  - unfold bind, ret. destruct (move_random fsqrt c t cur) as [c' cur'].
    cbn. split; [| split; reflexivity].
    exact (nth_error_list_set_same _ _ _ _ Hn).
Qed.

(** No action touches another creature of the list, or a plant. *)
Lemma hungry_turn_others (st1 : pass_state) (i : nat) (c : creature)
    (act : hungry_action) (t : tape) (cur : nat) :
  let st2 := fst (hungry_turn fsqrt st1 i c act t cur) in
  plants (st_world st2) = plants (st_world st1) /\
  forall k, k <> i ->
    nth_error (creatures (st_world st2)) k
    = nth_error (creatures (st_world st1)) k.
Proof.
  cbv zeta. unfold hungry_turn.
  destruct act as [[k plant] | [j prey] | [k plant] | [j other] |].
  - cbn. split; [reflexivity |].
    intros k' Hk. apply nth_error_list_set_other. congruence.
  - unfold bind, ret. destruct (attack c prey t cur) as [[c' won] cur'].
    destruct won; cbn; (split; [reflexivity |]);
      intros k' Hk; apply nth_error_list_set_other; congruence.
  - cbn. split; [reflexivity |].
    intros k' Hk. apply nth_error_list_set_other. congruence.
  - cbn. split; [reflexivity |].
    intros k' Hk. apply nth_error_list_set_other. congruence.
  - unfold bind, ret. destruct (move_random fsqrt c t cur) as [c' cur'].
    cbn. split; [reflexivity |].
    intros k' Hk. apply nth_error_list_set_other. congruence.
Qed.

(** X27.  The turn of a hungry creature does one of five things, and the
    tests of the chain decide which.  It eats the nearest plant, which
    goes on [eaten_plants], when that plant is within [EAT_RANGE] and
    there is no other creature or the plant is strictly nearer.  It
    attacks the nearest other creature when that one is within
    [CANNIBAL_RANGE] and there is no plant or the creature is not
    farther than the plant; it devours it, and writes it on [killed],
    when [attack] returns true.  Out of range it moves towards the one
    or the other with [move_towards].  It wanders with [move_random]
    only when it sees neither. *)
Theorem hungry_choice_goes_for_food (st : pass_state) (i : nat) (c0 : creature)
    (t : tape) (cur : nat) :
  nth_error (creatures (st_world st)) i = Some c0 ->
  mem i (killed st) = false ->
  Qle_bool SATISFIED_ENERGY (energy (update c0)) = false ->
  let c := update c0 in
  let nearest_plant := fst (nearest_plant_seen fsqrt st i c) in
  let plant_dist := snd (nearest_plant_seen fsqrt st i c) in
  let nearest_other := fst (nearest_other_seen fsqrt st i c) in
  let other_dist := snd (nearest_other_seen fsqrt st i c) in
  let st' := fst (turn fsqrt st i t cur) in
  let mine := nth_error (creatures (st_world st')) i in
  match hungry_choice nearest_plant plant_dist nearest_other other_dist with
  | EatPlant (k, plant) =>
      (nearest_plant = Some (k, plant) /\
       xltb plant_dist (Fin EAT_RANGE) = true /\
       (nearest_other = None \/ xltb plant_dist other_dist = true)) /\
      mine = Some (eat c plant) /\
      eaten_plants st' = eaten_plants st ++ [k] /\ killed st' = killed st
  | AttackCreature (j, prey) =>
      (nearest_other = Some (j, prey) /\
       xltb other_dist (Fin CANNIBAL_RANGE) = true /\
       (nearest_plant = None \/ xleb other_dist plant_dist = true)) /\
      let fight := fst (attack c prey t cur) in
      mine = Some (if snd fight then fst (devour (fst fight) prey)
                   else fst fight) /\
      eaten_plants st' = eaten_plants st /\
      killed st' = (if snd fight then killed st ++ [j] else killed st)
  | MoveToPlant (k, plant) =>
      (nearest_plant = Some (k, plant) /\
       xltb plant_dist (Fin EAT_RANGE) = false /\
       (nearest_other = None \/ xltb plant_dist other_dist = true)) /\
      mine = Some (move_towards fsqrt c (Plant.position plant)) /\
      eaten_plants st' = eaten_plants st /\ killed st' = killed st
  | MoveToCreature (j, other) =>
      (nearest_other = Some (j, other) /\
       xltb other_dist (Fin CANNIBAL_RANGE) = false /\
       (nearest_plant = None \/ xleb other_dist plant_dist = true)) /\
      mine = Some (move_towards fsqrt c (position other)) /\
      eaten_plants st' = eaten_plants st /\ killed st' = killed st
  | Wander =>
      (nearest_plant = None /\ nearest_other = None) /\
      mine = Some (fst (move_random fsqrt c t cur)) /\
      eaten_plants st' = eaten_plants st /\ killed st' = killed st
  end.
Proof.
  intros Hn Hk Hh. cbv zeta.
  destruct (hungry_turn_unfold st i c0 t cur Hn Hk Hh) as (Ew & Ee & _ & Ek).
  rewrite Ew, Ee, Ek.
  pose proof (hungry_choice_why
                (fst (nearest_plant_seen fsqrt st i (update c0)))
                (snd (nearest_plant_seen fsqrt st i (update c0)))
                (fst (nearest_other_seen fsqrt st i (update c0)))
                (snd (nearest_other_seen fsqrt st i (update c0)))) as Hwhy.
  assert (Hput : nth_error
                   (creatures (st_world (put_creature st i (update c0)))) i
                 = Some (update c0))
    by exact (nth_error_list_set_same _ _ _ _ Hn).
  pose proof (hungry_turn_does (put_creature st i (update c0)) i (update c0)
                (update c0)
                (hungry_choice
                   (fst (nearest_plant_seen fsqrt st i (update c0)))
                   (snd (nearest_plant_seen fsqrt st i (update c0)))
                   (fst (nearest_other_seen fsqrt st i (update c0)))
                   (snd (nearest_other_seen fsqrt st i (update c0))))
                t cur Hput) as Hdoes.
  cbv zeta in Hdoes.
  destruct (hungry_choice _ _ _ _) as [[k plant] | [j prey] | [k plant] | [j other] |];
    (split; [exact Hwhy | exact Hdoes]).
Qed.

(** X28.  In its turn a creature that is satiated after [update]
    (energy at least [SATISFIED_ENERGY]) neither eats a plant nor kills;
    one that is hungry has no child, and leaves the id counter and the
    generation record as they were. *)
Theorem satiated_mates_hungry_eats (st : pass_state) (i : nat) (c0 : creature)
    (t : tape) (cur : nat) :
  nth_error (creatures (st_world st)) i = Some c0 ->
  mem i (killed st) = false ->
  let st' := fst (turn fsqrt st i t cur) in
  (Qle_bool SATISFIED_ENERGY (energy (update c0)) = true ->
   eaten_plants st' = eaten_plants st /\ killed st' = killed st) /\
  (Qle_bool SATISFIED_ENERGY (energy (update c0)) = false ->
   new_children st' = new_children st /\
   counter (st_world st') = counter (st_world st) /\
   generation_record (st_world st') = generation_record (st_world st)).
Proof.
  intros Hn Hk. cbv zeta. unfold turn. rewrite Hn, Hk.
  set (st1 := put_creature st i (update c0)).
  destruct (find_nearest fsqrt plant_position (update c0)
              (indexed (plants (st_world st1)))) as [np pd].
  destruct (find_nearest fsqrt creature_position (update c0)
              (other_creatures_of st1 i)) as [no od].
  match goal with
  | |- context [bind ?m _] =>
      destruct (turn_tail_keeps i m t cur) as (Tw & Te & Tc & Tk)
  end.
  rewrite Tw, Te, Tc, Tk.
  destruct (Qle_bool SATISFIED_ENERGY (energy (update c0))).
  - split; [intros _ | discriminate].
    exact (satiated_turn_keeps st1 i (update c0) _ t cur).
  - split; [discriminate | intros _].
    exact (hungry_turn_keeps st1 i (update c0) _ t cur).
Qed.

(** X29.  A turn changes the creature whose turn it is and at most one
    other creature of the list, its mate, which is satiated and pays the
    mating cost; every other creature, the prey of an attack included,
    is left exactly as it was. *)
Theorem turn_changes_at_most_two (st : pass_state) (i : nat) (t : tape)
    (cur : nat) :
  let cs := creatures (st_world st) in
  let cs' := creatures (st_world (fst (turn fsqrt st i t cur))) in
  (forall j, j <> i -> nth_error cs' j = nth_error cs j) \/
  (exists j mate,
     j <> i /\ nth_error cs j = Some mate /\ fed mate /\
     nth_error cs' j = Some (after_mating mate) /\
     forall k, k <> i -> k <> j -> nth_error cs' k = nth_error cs k).
Proof.
  cbv zeta.
  destruct (turn_effect_holds fsqrt st i t cur)
    as [[E _] | (c0 & c' & Hn & Hk & Hout & _)].
  - left. intros j _. now rewrite E.
  - destruct Hout as [c' Hs Hcs Hcn Hr Hch
                     | j0 mate child Hj Hm Hf Hfm Hcs Hb Hid Hch Hcn Hr].
    + left. intros j Hj. rewrite Hcs.
      apply nth_error_list_set_other. congruence.
    + right. exists j0, mate.
      split; [exact Hj |]. split; [exact Hm |]. split; [exact Hfm |].
      rewrite Hcs. split.
      * eapply nth_error_list_set_same.
        rewrite nth_error_list_set_other by congruence. exact Hm.
      * intros k Hki Hkj.
        rewrite !nth_error_list_set_other by congruence. reflexivity.
Qed.

End Turn.

(** The theorem on the tie of [tie_state]: the creature attacks, loses,
    and nothing is written on [eaten_plants] or [killed]. *)
Lemma hungry_choice_goes_for_food_witness :
  eaten_plants (fst (turn Library.sqrt_milli tie_state 0 half_tape 0%nat)) = [] /\
  killed (fst (turn Library.sqrt_milli tie_state 0 half_tape 0%nat)) = [].
Proof.
  pose proof (hungry_choice_goes_for_food Library.sqrt_milli tie_state 0
                hungry_one half_tape 0%nat eq_refl eq_refl eq_refl) as H.
  vm_compute in H. destruct H as (_ & _ & He & Hk).
  split; [exact He | exact Hk].
Defined.

Lemma satiated_mates_hungry_eats_witness :
  new_children (fst (turn Library.sqrt_milli tie_state 0 half_tape 0%nat)) = [].
Proof.
  exact (proj1 (proj2 (satiated_mates_hungry_eats Library.sqrt_milli tie_state 0
                         hungry_one half_tape 0%nat eq_refl eq_refl) eq_refl)).
Defined.

End ChoiceFacts.

(** * Who leaves the list *)

Module RemovedFacts.

Import Random Config Dna Creature World DrawProps GenomeProps CreatureProps
  BodyProps LoopProps TickProps RandomFacts DnaFacts CreatureFacts LifeFacts
  ObjectLists TurnFacts TickFacts TurnEffects PassEffects SettleFacts TickEffects.
Local Open Scope Q_scope.

Lemma in_combine_at {A : Type} (l : list A) (s j : nat) (x : A) :
  nth_error l j = Some x -> In ((s + j)%nat, x) (combine (seq s (List.length l)) l).
Proof.
  revert s j. induction l as [| y l IH]; intros s [| j] E; cbn in *;
    try discriminate.
  - injection E as <-. left. f_equal. lia.
  - right. replace (s + S j)%nat with (S s + j)%nat by lia. now apply IH.
Qed.

Lemma indexed_at {A : Type} (l : list A) (j : nat) (x : A) :
  nth_error l j = Some x -> In (j, x) (indexed l).
Proof. intros E. exact (in_combine_at l 0 j x E). Qed.

Lemma fed_not_dead (c : creature) : fed c -> is_dead c = true -> False.
Proof.
  unfold fed, is_dead. rewrite !Qle_bool_iff.
  unfold SATISFIED_ENERGY, STARVATION_THRESHOLD. intros H1 H2. lra.
Qed.

Section Pass.

Variable fsqrt : Q -> Q.

Lemma starved_turn (t : tape) (w : world) (k : nat) (st : pass_state)
    (cur : nat) :
  pass_inv w k st -> starved st -> starved (fst (turn fsqrt st k t cur)).
Proof.
  intros Hinv Hs.
  pose proof (turn_effect_holds fsqrt st k t cur) as Heff.
  set (st' := fst (turn fsqrt st k t cur)) in *.
  destruct Heff as [[E _] | (c0 & c' & Hn & Hk & Hout & Hdead)].
  - rewrite E. exact Hs.
  - assert (Hfresh : ~ In k (dead st)).
    { intros Hin. destruct Hinv as [_ _ _ I4 _ _ _ _ _].
      apply I4 in Hin. lia. }
    assert (Hplace : nth_error (creatures (st_world st')) k = Some c')
      by (eapply outcome_place; eassumption).
    intros j Hj. rewrite Hdead in Hj.
    assert (Hcase : In j (dead st) \/ (j = k /\ is_dead c' = true)).
    { destruct (is_dead c'); [| now left].
      apply in_app_iff in Hj. destruct Hj as [Hj | [<- | []]]; auto. }
    destruct Hcase as [Hold | [-> Hd]]; [| exists c'; now split].
    destruct (Hs j Hold) as (c & Hc & Hdc). exists c. split; [| exact Hdc].
    assert (Hjk : j <> k) by (intros ->; contradiction).
    clear Hplace Hdead.
    destruct Hout as [c' _ Hcs _ _ _
                     | j0 mate child _ Hm _ Hfm Hcs _ _ _ _ _].
    + rewrite Hcs, nth_error_list_set_other by congruence. exact Hc.
    + rewrite Hcs. destruct (Nat.eq_dec j j0) as [-> | Hne].
      * exfalso. rewrite Hm in Hc. injection Hc as <-.
        exact (fed_not_dead _ Hfm Hdc).
      * rewrite !nth_error_list_set_other by congruence. exact Hc.
Qed.

Lemma starved_before (t : tape) (w : world) (k : nat) (cur : nat) :
  starved (fst (state_before_turn fsqrt w k t cur)).
Proof.
  induction k as [| k IH].
  - intros j [].
  - rewrite state_before_turn_S.
    eapply starved_turn; [apply pass_inv_before | exact IH].
Qed.

Lemma tick_pass_starved (w : world) (t : tape) (cur : nat) :
  starved (fst (tick_pass fsqrt w t cur)).
Proof.
  unfold tick_pass, bind.
  destruct (spawn_plants _ _ t cur) as [w1 cur1].
  rewrite decision_pass_is_last_state. apply starved_before.
Qed.

End Pass.

(** ** Counting *)

Lemma gone_spec (w : world) (k : nat) (st : pass_state) :
  pass_inv w k st ->
  NoDup (gone st) /\
  (forall j, In j (gone st) <-> In j (dead st) \/ In j (killed st)) /\
  (forall j, In j (gone st) -> (j < List.length (creatures (st_world st)))%nat).
Proof.
  intros [I1 _ I3 I4 _ I6 _ _ _].
  pose proof (Forall2_evolves_length _ _ I1) as Hlen.
  destruct (add_killed_to_dead_spec (killed st) (dead st) I3) as (Dnd & Din).
  split; [exact Dnd |]. split; [exact Din |].
  intros j Hj. rewrite Hlen. apply Din in Hj.
  destruct Hj as [Hj | Hj]; [apply I4 in Hj | apply I6 in Hj]; lia.
Qed.

Lemma survivors_count (w : world) (k : nat) (st : pass_state) :
  pass_inv w k st ->
  (List.length (survivors st) + List.length (gone st))%nat
  = List.length (creatures w).
Proof.
  intros Hinv.
  destruct (gone_spec w k st Hinv) as (Dnd & _ & Hlt).
  pose proof Hinv as [I1 _ _ _ _ _ _ _ _].
  pose proof (Forall2_evolves_length _ _ I1) as Hlen.
  assert (Hnd : NoDup (map fst (indexed (creatures (st_world st)))))
    by (rewrite map_fst_indexed; apply seq_NoDup).
  assert (Hin : forall j, In j (gone st) ->
                  In j (map fst (indexed (creatures (st_world st))))).
  { intros j Hj. rewrite map_fst_indexed. apply in_seq. apply Hlt in Hj. lia. }
  destruct (remove_dead_ok (gone st) (indexed (creatures (st_world st)))
              Dnd Hnd Hin) as (cs' & E & Hcount & _).
  rewrite (remove_dead_filter _ _ Dnd Hnd Hin) in E. injection E as <-.
  unfold survivors. fold (gone st). rewrite length_map.
  rewrite indexed_length in Hcount. lia.
Qed.

Lemma survivor_stays (st : pass_state) (j : nat) (c : creature) :
  nth_error (creatures (st_world st)) j = Some c -> ~ In j (gone st) ->
  In c (survivors st).
Proof.
  intros Hc Hg. unfold survivors. fold (gone st).
  apply in_map_iff. exists (j, c). split; [reflexivity |].
  apply filter_In. split; [now apply indexed_at |].
  cbn [fst]. apply negb_true_iff. now apply mem_not_In.
Qed.

End RemovedFacts.

(** * The loop over the creatures, and the population *)

Module LoopFacts.

Import Random Config Dna Creature World Library DrawProps GenomeProps
  CreatureProps BodyProps LoopProps TickProps RandomFacts DnaFacts
  CreatureFacts LifeFacts ObjectLists TurnFacts TickFacts WorldFacts
  TurnEffects PassEffects SettleFacts TickEffects ChoiceFacts RemovedFacts.
Local Open Scope Q_scope.

(** ** What a turn looks at *)






(** ** The hungry branch on a tie *)

(** C3, as amended.  When the nearest plant and the nearest other
    creature are at the same distance, the turn of a hungry creature
    goes for the creature.  Inside [CANNIBAL_RANGE] it attacks it: the
    creature whose turn it is becomes what [attack] leaves of it, or
    what [devour] makes of that when the attack is won, and then the
    prey is written on [killed].  Otherwise it moves towards it with
    [move_towards].  In both cases nothing is written on [eaten_plants],
    no plant changes, and no other creature of the list changes. *)
Theorem tie_goes_to_the_creature (fsqrt : Q -> Q) (st : pass_state) (i : nat)
    (c0 : creature) (p : nat * Plant.plant) (j : nat) (other : creature)
    (d : xfloat) (t : tape) (cur : nat) :
  nth_error (creatures (st_world st)) i = Some c0 ->
  mem i (killed st) = false ->
  Qle_bool SATISFIED_ENERGY (energy (update c0)) = false ->
  nearest_plant_seen fsqrt st i (update c0) = (Some p, d) ->
  nearest_other_seen fsqrt st i (update c0) = (Some (j, other), d) ->
  let c := update c0 in
  let st' := fst (turn fsqrt st i t cur) in
  let mine := nth_error (creatures (st_world st')) i in
  let fight := fst (attack c other t cur) in
  hungry_choice (Some p) d (Some (j, other)) d =
    (if xltb d (Fin CANNIBAL_RANGE)
     then AttackCreature (j, other) else MoveToCreature (j, other)) /\
  (xltb d (Fin CANNIBAL_RANGE) = true ->
   mine = Some (if snd fight then fst (devour (fst fight) other)
                else fst fight) /\
   killed st' = (if snd fight then killed st ++ [j] else killed st)) /\
  (xltb d (Fin CANNIBAL_RANGE) = false ->
   mine = Some (move_towards fsqrt c (position other)) /\
   killed st' = killed st) /\
  eaten_plants st' = eaten_plants st /\
  plants (st_world st') = plants (st_world st) /\
  (forall k, k <> i ->
     nth_error (creatures (st_world st')) k
     = nth_error (creatures (st_world st)) k).
Proof.
  intros Hn Hk Hh Ep Eo. cbv zeta.
  pose proof (hungry_choice_tie p (j, other) d) as E.
  destruct (hungry_turn_unfold fsqrt st i c0 t cur Hn Hk Hh) as (Ew & Ee & _ & Ekl).
  cbv zeta in Ew, Ee, Ekl. rewrite Ep, Eo in Ew, Ee, Ekl.
  cbn [fst snd] in Ew, Ee, Ekl. rewrite E in Ew, Ee, Ekl.
  rewrite Ew, Ee, Ekl.
  assert (Hput : nth_error
                   (creatures (st_world (put_creature st i (update c0)))) i
                 = Some (update c0))
    by exact (nth_error_list_set_same _ _ _ _ Hn).
  assert (Hothers : forall act,
            plants (st_world (fst (hungry_turn fsqrt
                       (put_creature st i (update c0)) i (update c0) act t cur)))
            = plants (st_world st) /\
            forall k, k <> i ->
              nth_error (creatures (st_world (fst (hungry_turn fsqrt
                           (put_creature st i (update c0)) i (update c0) act
                           t cur)))) k
              = nth_error (creatures (st_world st)) k).
  { intros act.
    destruct (hungry_turn_others fsqrt (put_creature st i (update c0)) i
                (update c0) act t cur) as [Hp Ho].
    split; [exact Hp |].
    intros k Hki. rewrite (Ho k Hki). cbn.
    apply nth_error_list_set_other. congruence. }
  split; [exact E |].
  destruct (xltb d (Fin CANNIBAL_RANGE)).
  - pose proof (hungry_turn_does fsqrt (put_creature st i (update c0)) i
                  (update c0) (update c0) (AttackCreature (j, other)) t cur Hput)
      as (D1 & D2 & D3).
    destruct (Hothers (AttackCreature (j, other))) as [Hp Ho].
    split; [intros _; split; [exact D1 | exact D3] |].
    split; [discriminate |].
    split; [exact D2 |]. split; [exact Hp | exact Ho].
  - pose proof (hungry_turn_does fsqrt (put_creature st i (update c0)) i
                  (update c0) (update c0) (MoveToCreature (j, other)) t cur Hput)
      as (D1 & D2 & D3).
    destruct (Hothers (MoveToCreature (j, other))) as [Hp Ho].
    split; [discriminate |].
    split; [intros _; split; [exact D1 | exact D3] |].
    split; [exact D2 |]. split; [exact Hp | exact Ho].
Qed.

(** The theorem on [tie_state]: the creature attacks the bystander, one
    unit and a bit away, and loses; it is left as [attack] leaves it. *)
Lemma tie_goes_to_the_creature_witness :
  nth_error (creatures (st_world (fst (turn sqrt_milli tie_state 0 half_tape 0%nat)))) 0
  = Some (fst (fst (attack (update hungry_one) bystander half_tape 0%nat))) /\
  killed (fst (turn sqrt_milli tie_state 0 half_tape 0%nat)) = [] /\
  eaten_plants (fst (turn sqrt_milli tie_state 0 half_tape 0%nat)) = [].
Proof.
  destruct (tie_goes_to_the_creature sqrt_milli tie_state 0 hungry_one
              (0%nat, lone_plant) 1%nat bystander (Fin (sqrt_milli 1.04))
              half_tape 0%nat)
    as (_ & H2 & _ & H4 & _).
  - reflexivity.
  - reflexivity.
  - reflexivity.
  - vm_compute. reflexivity.
  - vm_compute. reflexivity.
  - destruct (H2 eq_refl) as [Hm Hkl].
    split; [exact Hm |]. split; [exact Hkl | exact H4].
Defined.

(** ** The number of creatures *)

(** C9, as amended.  After a tick that returns there are at least
    [MAX_CREATURES] creatures, and at most the larger of the number
    before and [MAX_CREATURES + 1]; a tick that starts with at most
    [MAX_CREATURES] leaves at most [MAX_CREATURES] plus the children
    born in it.  Nobody is removed to bring the number down: the number
    after the tick is the number before, less the places on [dead] once
    the killed are added to it, plus the children, topped up to
    [MAX_CREATURES]; a place on that list holds a creature that was
    killed or that [is_dead] finds dead; and every other creature of the
    list is in the list after the tick.  So a creature above the cap
    stays until one is killed or starves. *)
Theorem population_after_tick (fsqrt : Q -> Q) (md : DNA -> nat) (w w' : world)
    (t : tape) (cur : nat) :
  fst (tick fsqrt md w t cur) = Ok w' ->
  let st := fst (tick_pass fsqrt w t cur) in
  (MAX_CREATURES <= Z.of_nat (List.length (creatures w')))%Z /\
  (Z.of_nat (List.length (creatures w'))
   <= Z.max (Z.of_nat (List.length (creatures w))) (MAX_CREATURES + 1))%Z /\
  ((Z.of_nat (List.length (creatures w)) <= MAX_CREATURES)%Z ->
   (Z.of_nat (List.length (creatures w'))
    <= MAX_CREATURES + Z.of_nat (births fsqrt w t cur))%Z) /\
  Z.of_nat (List.length (creatures w'))
  = Z.max MAX_CREATURES
      (Z.of_nat (List.length (creatures w)) - Z.of_nat (List.length (gone st))
       + Z.of_nat (births fsqrt w t cur)) /\
  NoDup (gone st) /\
  (forall j, In j (gone st) ->
     In j (killed st) \/
     exists c, nth_error (creatures (st_world st)) j = Some c /\
               is_dead c = true) /\
  (forall j c,
     nth_error (creatures (st_world st)) j = Some c -> ~ In j (gone st) ->
     In c (creatures w')).
Proof.
  intros E. cbv zeta.
  destruct (tick_report_of fsqrt md w w' t cur E) as (w1 & ps & sp & R).
  set (st := fst (tick_pass fsqrt w t cur)) in *.
  pose proof R as [R1 _ _ _ _ _ Rinv _ Rafter _ _ _ _ _ Rmiss].
  destruct (tick_settle_spec md w1 _ _ t (snd (tick_pass fsqrt w t cur)) Rinv)
    as (w2 & E2 & Hlo & Hhi & Hb & _).
  unfold st in E2. rewrite <- tick_unfold, E in E2. injection E2 as <-.
  rewrite R1 in Hhi, Hb.
  destruct (gone_spec w1 _ st Rinv) as (Gnd & Gin & _).
  pose proof (survivors_count w1 _ st Rinv) as Hcount. rewrite R1 in Hcount.
  pose proof (tick_pass_starved fsqrt w t cur) as Hst. fold st in Hst.
  assert (Hborn : List.length (newborns st) = births fsqrt w t cur).
  { unfold newborns, births. now rewrite length_map. }
  split; [exact Hlo |]. split; [exact Hhi |].
  split; [intros Hn; unfold births; fold st; lia |].
  split.
  - rewrite Rafter, !length_app, Rmiss, length_app, Hborn. lia.
  - split; [exact Gnd |]. split.
    + intros j Hj. apply Gin in Hj. destruct Hj as [Hj | Hj]; [| now left].
      right. now apply Hst.
    + intros j c Hc Hg. rewrite Rafter. apply in_app_iff. left.
      now apply survivor_stays with (j := j).
Qed.

(** The theorem on the first tick of [trio]: a child is born, nobody is
    removed, and four creatures are left. *)
Lemma population_after_tick_witness :
  exists w' : world,
    fst (tick sqrt_milli joined_mesh_draws trio half_tape 0%nat) = Ok w' /\
    (Z.of_nat (List.length (creatures w'))
     <= MAX_CREATURES + Z.of_nat (births sqrt_milli trio half_tape 0%nat))%Z /\
    Z.of_nat (List.length (creatures w'))
    = Z.max MAX_CREATURES
        (Z.of_nat (List.length (creatures trio))
         - Z.of_nat (List.length
                       (gone (fst (tick_pass sqrt_milli trio half_tape 0%nat))))
         + Z.of_nat (births sqrt_milli trio half_tape 0%nat)).
Proof.
  destruct (fst (tick sqrt_milli joined_mesh_draws trio half_tape 0%nat))
    as [w' | e] eqn:E.
  - destruct (population_after_tick sqrt_milli joined_mesh_draws trio w'
                half_tape 0%nat E) as (_ & _ & H3 & H4 & _).
    exists w'. split; [reflexivity |]. split; [| exact H4].
    apply H3. vm_compute. discriminate.
  - vm_compute in E. discriminate E.
Defined.

End LoopFacts.
